(** * photo_sorter.py: the hash database and the sorting pipeline

    A shallow embedding of [src/photo_sorter.py] (Python 2): the
    [HashDatabase] class (the ledger of sha1 digests persisted as a csv
    file) and the [PhotoSort] class (date resolution, destination path,
    copy or move, the [sort] loop).

    Python state is threaded explicitly: a computation is a function from the
    state of the process and of the file system to an outcome and a new
    state.  An outcome is a normal return, [sys.exit(n)] or an exception that
    propagates to the caller.  Library calls ([hashlib], [PIL], [time],
    [os], [shutil]) are modelled by their documented behaviour, the writer
    and the reader of [csv] by the state machine of the module; the csv file
    and the buffer of its file object hold bytes.  What depends on the
    platform (the digest function, the metadata decoder, the locale, the
    time zone, the C library, I/O errors) is gathered in the record
    [platform]. *)

From Stdlib Require Import ZArith Ascii String DecimalString DecimalZ.
From stdpp Require Import base gmap strings list fin_maps.

(** ** Strings: [str.lower], slicing, [str.rfind] *)

Module Str.

Definition lower_ascii (c : ascii) : ascii :=
  let n := nat_of_ascii c in
  if (65 <=? n)%nat && (n <=? 90)%nat then ascii_of_nat (n + 32) else c.

(** [s.lower()] on a byte string, in the C locale for LC_CTYPE. *)
Fixpoint lower (s : string) : string :=
  match s with
  | EmptyString => EmptyString
  | String c r => String (lower_ascii c) (lower r)
  end.

(** [s[:n]] and [s[n:]] *)
Fixpoint take (n : nat) (s : string) : string :=
  match n, s with
  | S k, String c r => String c (take k r)
  | _, _ => EmptyString
  end.

Fixpoint drop (n : nat) (s : string) : string :=
  match n, s with
  | S k, String c r => drop k r
  | _, _ => s
  end.

(** [s.rfind(c)]; [None] stands for Python's -1. *)
Fixpoint rfind (c : ascii) (s : string) : option nat :=
  match s with
  | EmptyString => None
  | String a r =>
      match rfind c r with
      | Some i => Some (S i)
      | None => if Ascii.eqb a c then Some 0%nat else None
      end
  end.

(** [i + 1] for an index returned by [rfind] *)
Definition after (i : option nat) : nat :=
  match i with Some k => S k | None => 0%nat end.

Fixpoint all_char (c : ascii) (s : string) : bool :=
  match s with
  | EmptyString => true
  | String a r => Ascii.eqb a c && all_char c r
  end.

Definition startswith (c : ascii) (s : string) : bool :=
  match s with String a _ => Ascii.eqb a c | EmptyString => false end.

Fixpoint endswith (c : ascii) (s : string) : bool :=
  match s with
  | EmptyString => false
  | String a EmptyString => Ascii.eqb a c
  | String _ r => endswith c r
  end.

Fixpoint contains (c : ascii) (s : string) : bool :=
  match s with
  | EmptyString => false
  | String a r => Ascii.eqb a c || contains c r
  end.

(** [s.rstrip(c)] *)
Fixpoint rstrip (c : ascii) (s : string) : string :=
  match s with
  | EmptyString => EmptyString
  | String a r =>
      match rstrip c r with
      | EmptyString => if Ascii.eqb a c then EmptyString else String a EmptyString
      | r' => String a r'
      end
  end.

End Str.

(** ** [os.path] (posixpath) *)

Module Path.

(** [os.path.basename(p)]: [p[p.rfind('/') + 1:]] *)
Definition basename (p : string) : string :=
  Str.drop (Str.after (Str.rfind "/" p)) p.

(** [os.path.splitext(p)]: split at the last dot, unless that dot is not
    after the last separator or only dots separate it from the separator *)
Definition splitext (p : string) : string * string :=
  let sepIndex := Str.rfind "/" p in
  match Str.rfind "." p with
  | None => (p, "")
  | Some dotIndex =>
      if (Str.after sepIndex <=? dotIndex)%nat then
        let lead := Str.take (dotIndex - Str.after sepIndex)
                             (Str.drop (Str.after sepIndex) p) in
        if Str.all_char "." lead then (p, "")
        else (Str.take dotIndex p, Str.drop dotIndex p)
      else (p, "")
  end.

(** [os.path.join(a, b)] *)
Definition join (a b : string) : string :=
  if Str.startswith "/" b then b
  else if String.eqb a "" || Str.endswith "/" a then a +:+ b
  else a +:+ "/" +:+ b.

(** [os.path.dirname(p)]: what precedes the last separator, without the
    separators that end it unless it has nothing else *)
Definition dirname (p : string) : string :=
  let head := Str.take (Str.after (Str.rfind "/" p)) p in
  if negb (String.eqb head "") && negb (Str.all_char "/" head)
  then Str.rstrip "/" head
  else head.

(** the proper ancestors of a path: the prefixes that end before a
    separator *)
Fixpoint ancestors_from (seen rest : string) : list string :=
  match rest with
  | EmptyString => []
  | String c r =>
      (if Ascii.eqb c "/" && negb (String.eqb seen "") then [seen] else [])
        ++ ancestors_from (seen +:+ String c EmptyString) r
  end.

Definition ancestors (p : string) : list string := ancestors_from "" p.

End Path.

(** ** [time.struct_time] and [time.strftime] *)

Record struct_time := {
  tm_year : Z;
  tm_mon : nat;   (* 1..12 *)
  tm_mday : nat;  (* 1..31 *)
  tm_hour : nat;
  tm_min : nat;
  tm_sec : nat;
  tm_wday : nat;  (* 0 is Monday *)
}.

Module Calendar.

Definition is_leap (y : Z) : bool :=
  ((y mod 4 =? 0) && negb (y mod 100 =? 0) || (y mod 400 =? 0))%Z.

Definition days_in_month (y : Z) (m : nat) : nat :=
  match m with
  | 2 => if is_leap y then 29 else 28
  | 4 | 6 | 9 | 11 => 30
  | _ => 31
  end%nat.

(** days since 1970-01-01 of a date of the proleptic Gregorian calendar *)
Definition days_from_civil (y : Z) (m d : nat) : Z :=
  let y' := (if (m <=? 2)%nat then y - 1 else y)%Z in
  let era := (y' / 400)%Z in
  let yoe := (y' - era * 400)%Z in
  let mp := (if (m <=? 2)%nat then Z.of_nat m + 9 else Z.of_nat m - 3)%Z in
  let doy := ((153 * mp + 2) / 5 + Z.of_nat d - 1)%Z in
  let doe := (yoe * 365 + yoe / 4 - yoe / 100 + doy)%Z in
  (era * 146097 + doe - 719468)%Z.

(** the day of the week as [tm_wday] has it; 1970-01-01 was a Thursday *)
Definition weekday (y : Z) (m d : nat) : nat :=
  Z.to_nat ((days_from_civil y m d + 3) mod 7).

(** What [time.strptime] and [time.localtime] guarantee of their result:
    a date of the calendar, with the day of the week that belongs to it. *)
Definition wellformed (t : struct_time) : Prop :=
  (1 <= tm_mon t <= 12)%nat ∧
  (1 <= tm_mday t <= days_in_month (tm_year t) (tm_mon t))%nat ∧
  tm_wday t = weekday (tm_year t) (tm_mon t) (tm_mday t).

Definition wellformedb (t : struct_time) : bool :=
  (1 <=? tm_mon t)%nat && (tm_mon t <=? 12)%nat &&
  (1 <=? tm_mday t)%nat && (tm_mday t <=? days_in_month (tm_year t) (tm_mon t))%nat &&
  (tm_wday t =? weekday (tm_year t) (tm_mon t) (tm_mday t))%nat.

(** the calendar date of a timestamp *)
Definition ymd (t : struct_time) : Z * nat * nat :=
  (tm_year t, tm_mon t, tm_mday t).

End Calendar.

Module Format.

Definition digit (d : nat) : ascii := ascii_of_nat (48 + d).

(** [%m] and [%d]: two digits, zero padded *)
Definition two_digits (n : nat) : string :=
  String (digit (n / 10)) (String (digit (n mod 10)) EmptyString).

(** ["{0}".format(n)] for an integer *)
Definition decimal (z : Z) : string :=
  NilEmpty.string_of_int (Z.to_int z).

End Format.

(** ** [hexdigest]: a number as hexadecimal digits *)

Module Hex.

Definition digit (d : N) : ascii :=
  match N.to_nat d with
  | 0 => "0" | 1 => "1" | 2 => "2" | 3 => "3" | 4 => "4" | 5 => "5"
  | 6 => "6" | 7 => "7" | 8 => "8" | 9 => "9" | 10 => "a" | 11 => "b"
  | 12 => "c" | 13 => "d" | 14 => "e" | _ => "f"
  end%char.

(** the [n] last hexadecimal digits of [v], before [acc] *)
Fixpoint digits (n : nat) (v : N) (acc : string) : string :=
  match n with
  | O => acc
  | S k => digits k (v / 16)%N (String (digit (v mod 16)%N) acc)
  end.

End Hex.

(** ** [csv]: the writer and the reader, for the default dialect

    The dialect is [excel]: delimiter [,], quotechar the double quote,
    doublequote, lineterminator CR LF, QUOTE_MINIMAL, no escapechar, not
    strict.  Fields are byte strings (Python 2). *)

Module Csv.

Definition NUL : ascii := "000".
Definition CR : ascii := "013".
Definition LF : ascii := "010".
Definition delimiter : ascii := ",".
Definition quotechar : ascii := "034".

(** *** [writer.writerow] *)

(** the field as the C code reads it: it stops at the first NUL byte *)
Fixpoint c_string (f : string) : string :=
  match f with
  | EmptyString => EmptyString
  | String c r => if Ascii.eqb c NUL then EmptyString else String c (c_string r)
  end.

(** the characters that make the writer quote a field *)
Definition special (c : ascii) : bool :=
  Ascii.eqb c delimiter || Ascii.eqb c quotechar
  || Ascii.eqb c CR || Ascii.eqb c LF.

Fixpoint needs_quotes (f : string) : bool :=
  match f with
  | EmptyString => false
  | String c r => special c || needs_quotes r
  end.

(** every quotechar doubled *)
Fixpoint doubled (f : string) : string :=
  match f with
  | EmptyString => EmptyString
  | String c r =>
      if Ascii.eqb c quotechar then String c (String c (doubled r))
      else String c (doubled r)
  end.

(** [join_append]: the bytes of one field; [quote_empty] for the only
    field of a row *)
Definition field_bytes (quote_empty : bool) (f : string) : string :=
  let f := c_string f in
  if needs_quotes f || (quote_empty && String.eqb f "")
  then String quotechar (doubled f +:+ String quotechar EmptyString)
  else f.

Fixpoint join_fields (row : list string) : string :=
  match row with
  | [] => EmptyString
  | [f] => field_bytes false f
  | f :: rest => field_bytes false f +:+ String delimiter (join_fields rest)
  end.

(** the record that [writerow] gives to the [write] of the file object *)
Definition row_bytes (row : list string) : string :=
  match row with
  | [f] => field_bytes true f
  | _ => join_fields row
  end +:+ String CR (String LF EmptyString).

Definition rows_bytes (rows : list (list string)) : string :=
  foldr (λ row bytes, row_bytes row +:+ bytes) EmptyString rows.

(** *** [reader] *)

Inductive parser_state :=
| START_RECORD | START_FIELD | IN_FIELD | IN_QUOTED_FIELD
| QUOTE_IN_QUOTED_FIELD | EAT_CRNL.

(** the reader object: the state, the field being read and the fields of
    the row that are complete *)
Record parser := {
  state : parser_state;
  field : string;
  fields : list string;
}.

(** [parse_reset] *)
Definition start : parser :=
  {| state := START_RECORD; field := EmptyString; fields := [] |}.

Definition with_state (st : parser_state) (p : parser) : parser :=
  {| state := st; field := field p; fields := fields p |}.

(** [csv.field_size_limit()] *)
Definition field_limit : N := 131072.

(** [parse_add_char]; [None] stands for [csv.Error] *)
Definition add_char (c : ascii) (st : parser_state) (p : parser) : option parser :=
  if (field_limit <=? N.of_nat (String.length (field p)))%N then None
  else Some {| state := st; field := field p +:+ String c EmptyString;
               fields := fields p |}.

(** [parse_save_field] *)
Definition save_field (st : parser_state) (p : parser) : parser :=
  {| state := st; field := EmptyString; fields := fields p ++ [field p] |}.

Definition newline (c : ascii) : bool := Ascii.eqb c LF || Ascii.eqb c CR.

(** the case START_FIELD of [parse_process_char] *)
Definition start_field (p : parser) (c : ascii) : option parser :=
  if Ascii.eqb c NUL then Some (save_field START_RECORD p)
  else if newline c then Some (save_field EAT_CRNL p)
  else if Ascii.eqb c quotechar then Some (with_state IN_QUOTED_FIELD p)
  else if Ascii.eqb c delimiter then Some (save_field START_FIELD p)
  else add_char c IN_FIELD p.

(** [parse_process_char]; the character NUL is what the reader gives at
    the end of each line *)
Definition process_char (p : parser) (c : ascii) : option parser :=
  match state p with
  | START_RECORD =>
      if Ascii.eqb c NUL then Some p
      else if newline c then Some (with_state EAT_CRNL p)
      else start_field p c
  | START_FIELD => start_field p c
  | IN_FIELD =>
      if Ascii.eqb c NUL then Some (save_field START_RECORD p)
      else if newline c then Some (save_field EAT_CRNL p)
      else if Ascii.eqb c delimiter then Some (save_field START_FIELD p)
      else add_char c IN_FIELD p
  | IN_QUOTED_FIELD =>
      if Ascii.eqb c NUL then Some p
      else if Ascii.eqb c quotechar then Some (with_state QUOTE_IN_QUOTED_FIELD p)
      else add_char c IN_QUOTED_FIELD p
  | QUOTE_IN_QUOTED_FIELD =>
      if Ascii.eqb c quotechar then add_char c IN_QUOTED_FIELD p
      else if Ascii.eqb c delimiter then Some (save_field START_FIELD p)
      else if Ascii.eqb c NUL then Some (save_field START_RECORD p)
      else if newline c then Some (save_field EAT_CRNL p)
      else add_char c IN_FIELD p
  | EAT_CRNL =>
      if newline c then Some p
      else if Ascii.eqb c NUL then Some (with_state START_RECORD p)
      else None
  end.

(** the end of a line in [Reader_iternext]: the reader is given NUL, and
    the row is returned when that leaves it at the start of a record *)
Definition end_of_line (rows : list (list string)) (p : parser) :
    option (list (list string) * parser) :=
  match process_char p NUL with
  | None => None
  | Some p' =>
      match state p' with
      | START_RECORD => Some (rows ++ [fields p'], start)
      | _ => Some (rows, p')
      end
  end.

(** the bytes of the file go through the reader, line by line as the file
    object iterates (a line ends with LF): the rows returned so far, and
    the reader, or [None] when it has raised [csv.Error] (a NUL byte in a
    line, a field over the limit, a character after CR that is not LF) *)
Fixpoint scan (bytes : string) (rows : list (list string)) (p : parser) :
    list (list string) * option parser :=
  match bytes with
  | EmptyString => (rows, Some p)
  | String c rest =>
      if Ascii.eqb c NUL then (rows, None)
      else
        match process_char p c with
        | None => (rows, None)
        | Some p1 =>
            if Ascii.eqb c LF then
              match end_of_line rows p1 with
              | None => (rows, None)
              | Some (rows', p2) => scan rest rows' p2
              end
            else scan rest rows p1
        end
  end.

(** the last line of the file has no LF *)
Definition unterminated (bytes : string) : bool :=
  negb (String.eqb bytes "") && negb (Str.endswith LF bytes).

(** [for row in csv.reader(file)]: the rows, and whether the reader raises
    [csv.Error] after them.  At the end of the file a field that has
    characters, or that is inside quotes, ends the last row. *)
Definition reader (bytes : string) : list (list string) * bool :=
  match scan bytes [] start with
  | (rows, None) => (rows, true)
  | (rows, Some p) =>
      match (if unterminated bytes then end_of_line rows p
             else Some (rows, p)) with
      | None => (rows, true)
      | Some (rows', p') =>
          if negb (String.eqb (field p') "")
             || match state p' with IN_QUOTED_FIELD => true | _ => false end
          then (rows' ++ [fields (save_field START_RECORD p')], false)
          else (rows', false)
      end
  end.

(** the file ends where a row ends: the reader is between two records
    and the last line has its LF *)
Definition complete (bytes : string) : Prop :=
  (scan bytes [] start).2 = Some start ∧ unterminated bytes = false.

(** a field that the writer writes whole and that the reader accepts: no
    NUL byte, not over the limit *)
Definition plain (f : string) : bool :=
  negb (Str.contains NUL f) && (N.of_nat (String.length f) <=? field_limit)%N.

(** a field that the writer does not quote *)
Definition bare (f : string) : Prop :=
  needs_quotes f = false ∧ Str.contains NUL f = false.

(** the reader [p'] has read the field [f] of a row, from [p] at the start
    of that field, and expects a delimiter or the end of the line *)
Definition field_read (p p' : parser) (f : string) : Prop :=
  fields p' = fields p ∧ field p' = f
  ∧ (state p' = IN_FIELD ∨ state p' = QUOTE_IN_QUOTED_FIELD
     ∨ (state p' = state p ∧ f = EmptyString)).

End Csv.


(** ** The process and the file system *)

(** Python exceptions that the program can meet.  [SystemExit] is not one of
    them: it is not an [Exception], so [except Exception] lets it through;
    it is the outcome [Exits]. *)
Inductive exn :=
| IOError | OSError | KeyError | IndexError | ValueError | TypeError
| AttributeError | CsvError.

Inductive level := DEBUG | INFO | WARNING | ERROR.

(** One constructor per [logging] call of the source. *)
Inductive message :=
| MsgStoreMissing (file_name : string)          (* line 55 *)
| MsgDatabaseLoaded (elements : nat)            (* line 62 *)
| MsgStoreReadError (file_name : string)        (* line 64 *)
| MsgException (ex : exn)                       (* lines 65, 142 *)
| MsgDuplicatedEntry (file_name : string)       (* line 73 *)
| MsgInputNotDirectory (input : string)         (* line 89 *)
| MsgSorting (input output database_file : string)  (* line 95 *)
| MsgDeleteAfterCopy (remove : bool)            (* line 97 *)
| MsgNoExif (base : string)                     (* line 104 *)
| MsgNoDateInExif (base : string)               (* line 114 *)
| MsgIncorrectDateInExif (base : string)        (* line 116 *)
| MsgAlreadyExist (output_file : string)        (* line 128 *)
| MsgCopyError (input_file output_directory : string)  (* line 141 *)
| MsgIgnoring (file_path : string)              (* line 153 *)
| MsgDuplicatedPhoto (file_path : string)       (* line 158 *)
| MsgCopying (file dir_struct : string)         (* line 166 *)
| MsgSorted (count : nat).                      (* line 172 *)

(** A regular file: its bytes and its last-modified time. *)
Record file := { content : string; st_mtime : Z }.

(** The csv file of the hash database: absent, impossible to open for
    reading, or its bytes. *)
Inductive store_file :=
| StoreAbsent
| StoreUnreadable
| StoreBytes (bytes : string).

Record state := {
  files : gmap string file;        (* regular files, by path *)
  dirs : gset string;              (* directories, by path *)
  store : store_file;              (* the csv file, as it is on disk *)
  database : gmap string string;   (* HashDatabase.database *)
  csv_buffer : string;             (* bytes written to the file object of
                                      csv_writer and still in its buffer *)
  log : list (level * message);    (* what logging has emitted, in order *)
}.

Definition with_files (f : gmap string file → gmap string file) (s : state) : state :=
  {| files := f (files s); dirs := dirs s; store := store s;
     database := database s; csv_buffer := csv_buffer s; log := log s |}.

Definition with_dirs (f : gset string → gset string) (s : state) : state :=
  {| files := files s; dirs := f (dirs s); store := store s;
     database := database s; csv_buffer := csv_buffer s; log := log s |}.

Definition with_store (st : store_file) (buf : string) (s : state) : state :=
  {| files := files s; dirs := dirs s; store := st;
     database := database s; csv_buffer := buf; log := log s |}.

Definition with_database (f : gmap string string → gmap string string) (s : state) : state :=
  {| files := files s; dirs := dirs s; store := store s;
     database := f (database s); csv_buffer := csv_buffer s; log := log s |}.

Definition with_log (e : level * message) (s : state) : state :=
  {| files := files s; dirs := dirs s; store := store s;
     database := database s; csv_buffer := csv_buffer s;
     log := log s ++ [e] |}.

(** ** Computations *)

Inductive outcome (A : Type) : Type :=
| Returns (a : A)          (* the call returns [a] *)
| Exits (status : Z)       (* [sys.exit(status)] unwinds the process *)
| Raises (e : exn).        (* an exception propagates to the caller *)
Arguments Returns {A} a.
Arguments Exits {A} status.
Arguments Raises {A} e.

Definition M (A : Type) : Type := state → outcome A * state.

Definition ret {A} (a : A) : M A := λ s, (Returns a, s).

Definition bind {A B} (m : M A) (k : A → M B) : M B :=
  λ s, match m s with
       | (Returns a, s') => k a s'
       | (Exits n, s') => (Exits n, s')
       | (Raises e, s') => (Raises e, s')
       end.

Declare Scope M_scope.
Delimit Scope M_scope with M.
Bind Scope M_scope with M.
Notation "x <- m ;; k" := (bind m (λ x, k))
  (at level 100, m at next level, right associativity) : M_scope.
Notation "m ;; k" := (bind m (λ _, k))
  (at level 100, right associativity) : M_scope.
Local Open Scope M_scope.

Definition raise {A} (e : exn) : M A := λ s, (Raises e, s).
Definition sys_exit {A} (status : Z) : M A := λ s, (Exits status, s).
Definition get : M state := λ s, (Returns s, s).
Definition modify (f : state → state) : M unit := λ s, (Returns tt, f s).

(** [try: body except Exception as ex: handler(ex)] *)
Definition try_except {A} (body : M A) (handler : exn → M A) : M A :=
  λ s, match body s with
       | (Raises e, s') => handler e s'
       | r => r
       end.

Definition logging (l : level) (m : message) : M unit := modify (with_log (l, m)).

(** The exit status of the process, from the outcome of the main program:
    0 when it runs to its end, the argument of [sys.exit], 1 when an
    exception reaches the top level. *)
Definition exit_status {A} (o : outcome A) : Z :=
  match o with
  | Returns _ => 0
  | Exits n => n
  | Raises _ => 1
  end.

(** ** What the platform decides *)

Inductive exif_value :=
| ExifStr (s : string)
| ExifOther.               (* a number, a tuple, ... *)

(** [Image.open(filename)._getexif()] on the bytes of a file: an exception
    ([IOError] when PIL cannot identify an image, [AttributeError] for a
    format that has no [_getexif]), [None], or a dict from tag numbers to
    values, given here by its [items()]. *)
Inductive getexif_result :=
| GetexifRaises (e : exn)
| GetexifNone
| GetexifDict (items : list (Z * exif_value)).

Record platform := {
  sha1 : string → N;                  (* hashlib.sha1(bytes): the 160 bits *)
  getexif : string → getexif_result;
  TAGS : Z → option string;           (* PIL.ExifTags.TAGS *)
  strptime : string → option struct_time;
     (* time.strptime(s, "%Y:%m:%d %H:%M:%S"); None stands for ValueError *)
  localtime : Z → option struct_time;
     (* time.localtime, in the time zone; None stands for ValueError (a
        time stamp out of the range of the platform) *)
  month_name : nat → string;          (* %B in the LC_TIME locale *)
  weekday_name : nat → string;        (* %A in the LC_TIME locale *)
  now : Z;                            (* the mtime given to a new file *)
  flushed : string → nat;
     (* a write to a buffered file object leaves these bytes pending: how
        many of them the C library writes out at once (none while its
        buffer is not full) *)
  (* I/O errors: exhausted storage, permissions, ... *)
  open_append_fails : bool;           (* open(filename, "ab") *)
  write_fails : string → string → option nat;
     (* writing out a block after the bytes that the file holds: Some n,
        the write fails after n bytes *)
  makedirs_fails : string → bool;     (* os.makedirs(d) *)
  rename_fails : string → string → bool;     (* os.rename(src, dst) *)
  copy_fails : string → string → option nat;
     (* copying src to dst: Some n, the copy raises after n bytes *)
  unlink_fails : string → bool;       (* os.unlink(p) *)
}.

(** The parsed command line ([self.args]). *)
Record args := { input : string; output : string; remove : bool }.

(** One entry of [os.walk]: [(root, dirs, files)]. *)
Definition walk_entry : Type := string * list string * list string.

Section Program.

Variable P : platform.

(** *** The file system calls *)

(** [os.path.exists(p)] *)
Definition path_exists (p : string) (s : state) : bool :=
  bool_decide (is_Some (files s !! p)) || bool_decide (p ∈ dirs s).

(** [os.path.isdir(p)] *)
Definition isdir (p : string) (s : state) : bool := bool_decide (p ∈ dirs s).

(** [os.makedirs(d)]: the directory and the missing ancestors *)
Definition makedirs (d : string) : M unit :=
  if makedirs_fails P d then raise OSError
  else modify (with_dirs (λ ds, ds ∪ list_to_set (Path.ancestors d) ∪ {[ d ]})).

(** [shutil.copyfile(src, dst)]: the destination is created, then filled;
    an error while copying leaves the bytes written so far *)
Definition copyfile (src dst : string) (mtime : file → Z) : M unit :=
  s <- get ;;
  match files s !! src with
  | None => raise IOError
  | Some f =>
      match copy_fails P src dst with
      | Some n =>
          modify (with_files <[dst := {| content := Str.take n (content f);
                                         st_mtime := now P |}]>) ;;
          raise IOError
      | None =>
          modify (with_files <[dst := {| content := content f;
                                         st_mtime := mtime f |}]>)
      end
  end.

(** [shutil.copy(src, dst)]: [copyfile] then [copymode] *)
Definition shutil_copy (src dst : string) : M unit :=
  copyfile src dst (λ _, now P).

(** [shutil.copy2(src, dst)]: [copyfile] then [copystat] *)
Definition shutil_copy2 (src dst : string) : M unit :=
  copyfile src dst st_mtime.

(** [os.rename(src, dst)] *)
Definition os_rename (src dst : string) : M unit :=
  s <- get ;;
  match files s !! src with
  | None => raise OSError
  | Some f =>
      if rename_fails P src dst then raise OSError
      else modify (with_files (λ fs, <[dst := f]> (delete src fs)))
  end.

(** [os.unlink(p)] *)
Definition os_unlink (p : string) : M unit :=
  s <- get ;;
  match files s !! p with
  | None => raise OSError
  | Some _ =>
      if unlink_fails P p then raise OSError
      else modify (with_files (delete p))
  end.

(** [shutil.move(src, dst)] for a regular file and a destination that is
    not a directory: rename, and when that raises [OSError] (another
    device), copy then unlink *)
Definition shutil_move (src dst : string) : M unit :=
  try_except (os_rename src dst)
    (λ _, shutil_copy2 src dst ;; os_unlink src).

(** *** The csv file object *)

Definition store_bytes (st : store_file) : string :=
  match st with
  | StoreBytes bytes => bytes
  | _ => EmptyString
  end.

(** the file once [bytes] have been appended to it *)
Definition store_append (st : store_file) (bytes : string) : store_file :=
  match st with
  | StoreBytes old => StoreBytes (old +:+ bytes)
  | _ => st
  end.

(** the file object writes [block] out, after what the file holds: the
    file afterwards, and whether the write succeeded.  A write that fails
    leaves the bytes that it had written. *)
Definition write_out (st : store_file) (block : string) : store_file * bool :=
  match block with
  | EmptyString => (st, true)
  | _ =>
      match write_fails P (store_bytes st) block with
      | None => (store_append st block, true)
      | Some n => (store_append st (Str.take n block), false)
      end
  end.

(** [csv_writer.writerow(row)]: one [write] of the bytes of the row to the
    file object, which adds them to its buffer.  The C library decides how
    much of the buffer it writes out now; the rest stays in memory.  When
    that write fails, [write] raises [IOError] and the buffer is given up.
    Nothing in the source flushes or closes the file. *)
Definition writerow (row : list string) : M unit :=
  s <- get ;;
  let pending := csv_buffer s +:+ Csv.row_bytes row in
  let n := flushed P pending in
  let w := write_out (store s) (Str.take n pending) in
  if w.2 then modify (with_store w.1 (Str.drop n pending))
  else (modify (with_store w.1 EmptyString) ;;
        raise IOError).

(** the file can be created: its directory exists (the empty name is the
    current directory) *)
Definition creatable (filename : string) (s : state) : bool :=
  let d := Path.dirname filename in
  String.eqb d "" || isdir d s.

(** [open(filename, "ab")]: creates the file when it is missing *)
Definition open_append (filename : string) : M unit :=
  s <- get ;;
  if open_append_fails P then raise IOError
  else
    match store s with
    | StoreAbsent =>
        if creatable filename s
        then modify (with_store (StoreBytes EmptyString) EmptyString)
        else raise IOError
    | st => modify (with_store st EmptyString)
    end.

(** *** class HashDatabase *)

(** [row[i]] *)
Definition index (row : list string) (i : nat) : M string :=
  match row !! i with
  | Some x => ret x
  | None => raise IndexError
  end.

(** lines 60-61: [for row in reader: self.database[row[0]] = row[1]] *)
Fixpoint load_rows (rows : list (list string)) : M unit :=
  match rows with
  | [] => ret tt
  | row :: rest =>
      k <- index row 0 ;;
      v <- index row 1 ;;
      modify (with_database <[k := v]>) ;;
      load_rows rest
  end.

(** lines 58-61: open the file and iterate the reader over it *)
Definition read_store : M unit :=
  s <- get ;;
  match store s with
  | StoreBytes bytes =>
      load_rows (Csv.reader bytes).1 ;;
      if (Csv.reader bytes).2 then raise CsvError else ret tt
  | _ => raise IOError
  end.

Definition load_database (file_name : string) : M unit :=
  s <- get ;;
  match store s with
  | StoreAbsent => logging WARNING (MsgStoreMissing file_name)
  | _ =>
      try_except
        (read_store ;;
         s' <- get ;;
         logging DEBUG (MsgDatabaseLoaded (size (database s'))))
        (λ ex,
         logging ERROR (MsgStoreReadError file_name) ;;
         logging DEBUG (MsgException ex) ;;
         sys_exit 0)
  end.

(** [HashDatabase.__init__] *)
Definition HashDatabase_init (filename : string) : M unit :=
  modify (with_database (λ _, ∅)) ;;
  load_database filename ;;
  open_append filename.

(** [hashlib.sha1(bytes).hexdigest()]: 40 hexadecimal digits *)
Definition sha1_hexdigest (bytes : string) : string :=
  Hex.digits 40 (sha1 P bytes) EmptyString.

Definition get_file_hash (filename : string) : M string :=
  s <- get ;;
  match files s !! filename with
  | None => raise IOError
  | Some f => ret (sha1_hexdigest (content f))
  end.

Definition exist (hash : string) : M bool :=
  s <- get ;;
  ret (bool_decide (is_Some (database s !! hash))).

Definition add_hash (hash file_name : string) : M unit :=
  s <- get ;;
  if bool_decide (is_Some (database s !! hash)) then
    logging ERROR (MsgDuplicatedEntry file_name)
  else
    modify (with_database <[hash := file_name]>) ;;
    writerow [hash; file_name].

(** *** class PhotoSort *)

(** lines 106-108: [data[TAGS.get(tag, tag)] = value] for each item *)
Definition decode_tags (items : list (Z * exif_value)) : gmap (string + Z) exif_value :=
  foldl (λ data item,
           <[match TAGS P item.1 with
             | Some name => inl name
             | None => inr item.1
             end := item.2]> data)
        ∅ items.

(** line 112: [time.strptime(data["DateTimeOriginal"], ...)] *)
Definition parse_original (data : gmap (string + Z) exif_value) : M struct_time :=
  match data !! inl "DateTimeOriginal" with
  | None => raise KeyError
  | Some (ExifStr v) =>
      match strptime P v with
      | Some t => ret t
      | None => raise ValueError
      end
  | Some ExifOther => raise TypeError
  end.

(** lines 101-102: [Image.open(filename)._getexif()] *)
Definition image_getexif (filename : string) : M getexif_result :=
  s <- get ;;
  match files s !! filename with
  | None => raise IOError
  | Some f =>
      match getexif P (content f) with
      | GetexifRaises e => raise e
      | info => ret info
      end
  end.

(** line 119: [time.localtime(os.stat(filename).st_mtime)] *)
Definition mtime_date (filename : string) : M struct_time :=
  s <- get ;;
  match files s !! filename with
  | None => raise OSError
  | Some f =>
      match localtime P (st_mtime f) with
      | Some t => ret t
      | None => raise ValueError
      end
  end.

Definition get_exif_date (filename : string) : M struct_time :=
  info <- image_getexif filename ;;
  found <- match info with
           | GetexifDict items =>
               try_except
                 (t <- parse_original (decode_tags items) ;; ret (Some t))
                 (λ ex,
                  match ex with
                  | KeyError =>
                      logging INFO (MsgNoDateInExif (Path.basename filename)) ;;
                      ret None
                  | _ =>
                      logging WARNING (MsgIncorrectDateInExif (Path.basename filename)) ;;
                      ret None
                  end)
           | _ =>
               logging INFO (MsgNoExif (Path.basename filename)) ;;
               ret None
           end ;;
  match found with
  | Some t => ret t
  | None => mtime_date filename
  end.

(** [time.strftime("%m-%B", date)] and [time.strftime("%d-%A", date)] *)
Definition strftime_m_B (date : struct_time) : string :=
  Format.two_digits (tm_mon date) +:+ "-" +:+ month_name P (tm_mon date).

Definition strftime_d_A (date : struct_time) : string :=
  Format.two_digits (tm_mday date) +:+ "-" +:+ weekday_name P (tm_wday date).

(** lines 162-165 *)
Definition dir_struct (date : struct_time) : string :=
  Format.decimal (tm_year date) +:+ "/" +:+ strftime_m_B date
    +:+ "/" +:+ strftime_d_A date.

(** line 167 *)
Definition output_directory_of (a : args) (date : struct_time) : string :=
  Path.join (output a) (dir_struct date).

(** lines 124-125 *)
Definition output_file_of (input_file output_directory : string) : string :=
  let (root, ext) := Path.splitext (Path.basename input_file) in
  Path.join output_directory (root +:+ Str.lower ext).

(** lines 123-139: the body of the [try] of [copy_file] *)
Definition copy_file_try (a : args) (input_file output_directory : string) : M bool :=
  let output_file := output_file_of input_file output_directory in
  s <- get ;;
  if path_exists output_file s then
    (logging ERROR (MsgAlreadyExist output_file) ;;
     ret false)
  else
    ((if path_exists output_directory s then ret tt
      else makedirs output_directory) ;;
     (if remove a then shutil_move input_file output_file
      else shutil_copy input_file output_file) ;;
     ret true).

Definition copy_file (a : args) (input_file output_directory : string) : M bool :=
  try_except
    (copy_file_try a input_file output_directory)
    (λ ex,
     logging ERROR (MsgCopyError input_file output_directory) ;;
     logging DEBUG (MsgException ex) ;;
     sys_exit 0).

(** line 152: the file is not a jpeg, by its extension *)
Definition not_jpeg (file : string) : bool :=
  let extension := Str.lower (Path.splitext file).2 in
  negb (String.eqb extension ".jpg") && negb (String.eqb extension ".jpeg").

(** lines 149-170: the body of the inner loop, for one file; the result
    is the new value of [count] *)
Definition sort_file (a : args) (root file : string) (count : nat) : M nat :=
  let file_path := Path.join root file in
  if not_jpeg file then
    (logging DEBUG (MsgIgnoring file_path) ;;
     ret count)
  else
    (hash <- get_file_hash file_path ;;
     known <- exist hash ;;
     if known : bool then
       (logging INFO (MsgDuplicatedPhoto file_path) ;;
        ret count)
     else
       (date <- get_exif_date file_path ;;
        logging DEBUG (MsgCopying file (dir_struct date)) ;;
        copied <- copy_file a file_path (output_directory_of a date) ;;
        if copied : bool then
          (add_hash hash file_path ;;
           ret (S count))
        else ret count)).

(** line 148: [for file in files] *)
Fixpoint sort_files (a : args) (root : string) (names : list string)
    (count : nat) : M nat :=
  match names with
  | [] => ret count
  | file :: rest =>
      count' <- sort_file a root file count ;;
      sort_files a root rest count'
  end.

(** line 147: [for root, dirs, files in os.walk(self.args.input)]; the
    entries that [os.walk] yields during the run are given as a list, in
    the order of discovery *)
Fixpoint sort_walk (a : args) (walk : list walk_entry) (count : nat) : M nat :=
  match walk with
  | [] => ret count
  | (root, _, names) :: rest =>
      count' <- sort_files a root names count ;;
      sort_walk a rest count'
  end.

Definition sort (a : args) (walk : list walk_entry) : M unit :=
  count <- sort_walk a walk 0%nat ;;
  logging INFO (MsgSorted count).

(** [PhotoSort.__init__], after the arguments are parsed *)
Definition PhotoSort_init (a : args) : M unit :=
  s <- get ;;
  (if isdir (input a) s then ret tt
   else (logging ERROR (MsgInputNotDirectory (input a)) ;;
         sys_exit 0)) ;;
  let database_file := Path.join (output a) ".database.csv" in
  HashDatabase_init database_file ;;
  logging INFO (MsgSorting (input a) (output a) database_file) ;;
  logging INFO (MsgDeleteAfterCopy (remove a)).

(** lines 180-181 *)
Definition main (a : args) (walk : list walk_entry) : M unit :=
  PhotoSort_init a ;;
  sort a walk.

(** *** The life of the process *)

(** a new process on the disk that [s] leaves: nothing in memory *)
Definition boot (s : state) : state :=
  {| files := files s; dirs := dirs s; store := store s;
     database := ∅; csv_buffer := EmptyString; log := [] |}.

(** the interpreter shuts down (end of the program, [sys.exit], an
    uncaught exception): the file object of [csv_writer] is closed, which
    writes its buffer out; an error of that write is not reported *)
Definition interpreter_exit (s : state) : state :=
  with_store (write_out (store s) (csv_buffer s)).1 EmptyString s.

(** the process is killed or the machine stops: what the buffer held is
    lost *)
Definition crash (s : state) : state :=
  with_store (store s) EmptyString s.

End Program.

(** ** A concrete platform

    English names, the UTC time zone, a digest that keeps the last twenty
    bytes, a decoder that reads a toy image format, a file object with a
    buffer of 4096 bytes, no I/O error.  The examples run the program on
    it. *)

Module Demo.

Definition month (m : nat) : string :=
  match m with
  | 1 => "January" | 2 => "February" | 3 => "March" | 4 => "April"
  | 5 => "May" | 6 => "June" | 7 => "July" | 8 => "August"
  | 9 => "September" | 10 => "October" | 11 => "November" | _ => "December"
  end%nat.

Definition day (w : nat) : string :=
  match w with
  | 0 => "Monday" | 1 => "Tuesday" | 2 => "Wednesday" | 3 => "Thursday"
  | 4 => "Friday" | 5 => "Saturday" | _ => "Sunday"
  end%nat.

Definition tags (tag : Z) : option string :=
  if (tag =? 36867)%Z then Some "DateTimeOriginal"
  else if (tag =? 36868)%Z then Some "DateTimeDigitized"
  else if (tag =? 306)%Z then Some "DateTime"
  else None.

(** the number that a string of digits denotes *)
Fixpoint number (acc : nat) (s : string) : option nat :=
  match s with
  | EmptyString => Some acc
  | String c r =>
      let n := nat_of_ascii c in
      if (48 <=? n)%nat && (n <=? 57)%nat then number (10 * acc + (n - 48)) r
      else None
  end.

Definition field (from len : nat) (s : string) : option nat :=
  number 0 (Str.take len (Str.drop from s)).

(** "2008:12:11 22:47:48", every field at its full width *)
Definition parse (s : string) : option struct_time :=
  if negb (String.length s =? 19)%nat then None
  else if negb (String.eqb (Str.take 1 (Str.drop 4 s)) ":"
                && String.eqb (Str.take 1 (Str.drop 7 s)) ":"
                && String.eqb (Str.take 1 (Str.drop 10 s)) " "
                && String.eqb (Str.take 1 (Str.drop 13 s)) ":"
                && String.eqb (Str.take 1 (Str.drop 16 s)) ":") then None
  else
    y ← field 0 4 s; m ← field 5 2 s; d ← field 8 2 s;
    hh ← field 11 2 s; mm ← field 14 2 s; ss ← field 17 2 s;
    let t := {| tm_year := Z.of_nat y; tm_mon := m; tm_mday := d;
                tm_hour := hh; tm_min := mm; tm_sec := ss;
                tm_wday := Calendar.weekday (Z.of_nat y) m d |} in
    if Calendar.wellformedb t && (1 <=? y)%nat && (hh <=? 23)%nat
       && (mm <=? 59)%nat && (ss <=? 61)%nat
    then Some t else None.

(** the UTC date of a number of seconds since the epoch *)
Definition gmtime (t : Z) : struct_time :=
  let days := (t / 86400)%Z in
  let secs := (t mod 86400)%Z in
  let z := (days + 719468)%Z in
  let era := (z / 146097)%Z in
  let doe := (z - era * 146097)%Z in
  let yoe := ((doe - doe / 1460 + doe / 36524 - doe / 146096) / 365)%Z in
  let doy := (doe - (365 * yoe + yoe / 4 - yoe / 100))%Z in
  let mp := ((5 * doy + 2) / 153)%Z in
  let d := Z.to_nat (doy - (153 * mp + 2) / 5 + 1) in
  let m := Z.to_nat (if (mp <? 10)%Z then mp + 3 else mp - 9) in
  let y := (yoe + era * 400 + (if (m <=? 2)%nat then 1 else 0))%Z in
  {| tm_year := y; tm_mon := m; tm_mday := d;
     tm_hour := Z.to_nat (secs / 3600);
     tm_min := Z.to_nat ((secs mod 3600) / 60);
     tm_sec := Z.to_nat (secs mod 60);
     tm_wday := Calendar.weekday y m d |}.

(** [time.localtime] where the C type of a year has 32 bits *)
Definition localtime_utc (t : Z) : option struct_time :=
  if ((-67768040609740800 <=? t) && (t <=? 67768036191676799))%Z
  then Some (gmtime t) else None.

(** the bytes as a number in base 256 *)
Fixpoint number_of (acc : N) (bytes : string) : N :=
  match bytes with
  | EmptyString => acc
  | String c r => number_of (acc * 256 + N_of_ascii c)%N r
  end.

(** a file object with a buffer of [size] bytes: when a write leaves more
    than that pending, the whole blocks are written out (0 is no buffer) *)
Definition buffered (size : nat) (pending : string) : nat :=
  match size with
  | O => String.length pending
  | _ =>
      if (String.length pending <=? size)%nat then 0%nat
      else (String.length pending / size * size)%nat
  end.

(** a toy image format, by the first byte: [E] an image whose Exif data
    has DateTimeOriginal, the rest of the bytes; [T] an image whose Exif
    data has only DateTime; [V] an image whose DateTimeOriginal is not a
    string; [N] an image without Exif data; anything else is not an
    image *)
Definition decoder (bytes : string) : getexif_result :=
  match bytes with
  | String "E" r => GetexifDict [(306%Z, ExifStr r); (36867%Z, ExifStr r)]
  | String "T" r => GetexifDict [(306%Z, ExifStr r)]
  | String "V" r => GetexifDict [(36867%Z, ExifOther)]
  | String "N" _ => GetexifNone
  | _ => GetexifRaises IOError
  end.

Definition plat : platform :=
  {| sha1 := number_of 0;
     getexif := decoder;
     TAGS := tags;
     strptime := parse;
     localtime := localtime_utc;
     month_name := month;
     weekday_name := day;
     now := 1700000000;
     flushed := buffered 4096;
     open_append_fails := false;
     write_fails := λ _ _, None;
     makedirs_fails := λ _, false;
     rename_fails := λ _ _, false;
     copy_fails := λ _ _, None;
     unlink_fails := λ _, false |}.

(** the same platform with I/O errors *)
Definition with_faults (mk : string → bool) (rn : string → string → bool)
    (cp : string → string → option nat) (ul : string → bool) : platform :=
  {| sha1 := sha1 plat;
     getexif := getexif plat;
     TAGS := TAGS plat;
     strptime := strptime plat;
     localtime := localtime plat;
     month_name := month_name plat;
     weekday_name := weekday_name plat;
     now := now plat;
     flushed := flushed plat;
     open_append_fails := false;
     write_fails := write_fails plat;
     makedirs_fails := mk;
     rename_fails := rn;
     copy_fails := cp;
     unlink_fails := ul |}.

(** the same platform with another file object: a buffer of [size] bytes,
    and writes that fail as [wf] says *)
Definition with_file_object (size : nat)
    (wf : string → string → option nat) : platform :=
  {| sha1 := sha1 plat;
     getexif := getexif plat;
     TAGS := TAGS plat;
     strptime := strptime plat;
     localtime := localtime plat;
     month_name := month_name plat;
     weekday_name := weekday_name plat;
     now := now plat;
     flushed := buffered size;
     open_append_fails := false;
     write_fails := wf;
     makedirs_fails := makedirs_fails plat;
     rename_fails := rename_fails plat;
     copy_fails := copy_fails plat;
     unlink_fails := unlink_fails plat |}.

Definition copy_args : args := {| input := "in"; output := "out"; remove := false |}.
Definition move_args : args := {| input := "in"; output := "out"; remove := true |}.

(** a disk with the given files, the input and output directories and
    the given csv file; nothing in memory *)
Definition disk (fs : list (string * file)) (st : store_file) : state :=
  {| files := list_to_map fs; dirs := {[ "in"; "out" ]}; store := st;
     database := ∅; csv_buffer := EmptyString; log := [] |}.

End Demo.


Module Runs.

Definition photo (bytes : string) (mtime : Z) : file :=
  {| content := bytes; st_mtime := mtime |}.

Definition db_file : string := "out/.database.csv".

(** the digest that [Demo.plat] gives to the bytes of the photo used
    below *)
Definition digest : string := "45323032303a30313a30352031303a30303a3030".

(** the process after [HashDatabase.__init__] on a csv file of one row *)
Definition one_row : state :=
  (HashDatabase_init Demo.plat db_file
     (Demo.disk [] (StoreBytes (Csv.row_bytes ["h1"; "in/a.jpg"])))).2.

(** two files with the same bytes; the destination of the first is taken
    by a file with other bytes *)
Definition taken : state :=
  (PhotoSort_init Demo.plat Demo.copy_args
     (Demo.disk [("in/a.jpg", photo "E2020:01:05 10:00:00" 0);
                 ("in/b.jpg", photo "E2020:01:05 10:00:00" 0);
                 ("out/2020/01-January/05-Sunday/a.jpg", photo "Nother" 0)]
                StoreAbsent)).2.

(** a photo, a second file with the same bytes, and a file that is not
    an image under a jpeg name *)
Definition fresh : state :=
  (PhotoSort_init Demo.plat Demo.copy_args
     (Demo.disk [("in/a.JPG", photo "E2020:01:05 10:00:00" 0);
                 ("in/copy.jpeg", photo "E2020:01:05 10:00:00" 86400);
                 ("in/broken.jpg", photo "not an image" 0)]
                StoreAbsent)).2.

(** a platform on which [os.rename] fails and the copy stops after three
    bytes *)
Definition other_device : platform :=
  Demo.with_faults (λ _, false) (λ _ _, true) (λ _ _, Some 3) (λ _, false).


(** the input directory with a photo, and no output directory *)
Definition no_output : state :=
  {| files := {[ "in/a.jpg" := photo "Nabc" 0 ]}; dirs := {[ "in" ]};
     store := StoreAbsent; database := ∅; csv_buffer := EmptyString;
     log := [] |}.

(** a platform whose file objects have a buffer of 32 bytes *)
Definition small_buffer : platform :=
  Demo.with_file_object 32 (λ _ _, None).

(** the same on a disk that only has room for 5 more bytes *)
Definition full_disk : platform :=
  Demo.with_file_object 32 (λ _ _, Some 5%nat).

End Runs.

(** ** What the properties are about *)

(** the bytes that have been written to the csv file, on disk or still in
    the buffer of the file object, in the order of writing *)
Definition stream (s : state) : string :=
  store_bytes (store s) +:+ csv_buffer s.

(** the rows that [csv.reader] finds in them *)
Definition written (s : state) : list (list string) :=
  (Csv.reader (stream s)).1.

(** the csv file exists and can be read: what [HashDatabase.__init__]
    leaves when it returns *)
Definition store_open (s : state) : Prop :=
  ∃ bytes, store s = StoreBytes bytes.

(** the digests that the database has stay in it *)
Definition ledger_grows (s s' : state) : Prop :=
  ∀ h, is_Some (database s !! h) → is_Some (database s' !! h).

(** the database after the rows of the csv file have been read into it,
    one assignment [database[row[0]] = row[1]] per row *)
Definition rows_into (db : gmap string string) (rows : list (list string)) :
    gmap string string :=
  foldl (λ db row, match row with
                   | k :: v :: _ => <[k := v]> db
                   | _ => db
                   end) db rows.

(** a csv file that exists and cannot be loaded: it cannot be opened, the
    reader raises, or a row has fewer than two fields *)
Definition unusable (st : store_file) : Prop :=
  match st with
  | StoreAbsent => False
  | StoreUnreadable => True
  | StoreBytes bytes =>
      (Csv.reader bytes).2 = true
      ∨ Exists (λ row, length row < 2) (Csv.reader bytes).1
  end.

Definition two_fields (rows : list (list string)) : Prop :=
  Forall (λ row : list string, 2 ≤ length row) rows.

(** two states that differ at most by what has been logged *)
Definition only_logged (s s' : state) : Prop :=
  files s' = files s ∧ dirs s' = dirs s ∧ store s' = store s
  ∧ database s' = database s ∧ csv_buffer s' = csv_buffer s.

(** a computation whose only exits are [sys.exit(0)] *)
Definition exits_zero {A} (m : M A) : Prop :=
  ∀ s n s', m s = (Exits n, s') → n = 0%Z.

(** what [get_exif_date] falls back to, on line 119: the date of the last
    modification, when [time.localtime] accepts the time stamp *)
Definition fallback (P : platform) (f : file) (s : state) :
    outcome struct_time * state :=
  match localtime P (st_mtime f) with
  | Some t => (Returns t, s)
  | None => (Raises ValueError, s)
  end.

(** the write that closes the file object succeeds: the buffer is empty,
    or the disk takes what it holds *)
Definition closes (P : platform) (s : state) : Prop :=
  csv_buffer s = EmptyString
  ∨ write_fails P (store_bytes (store s)) (csv_buffer s) = None.


(** ** What the further properties are about *)

(** the hash database and its csv file are as they were *)
Definition ledger_same (s s' : state) : Prop :=
  database s' = database s ∧ store s' = store s
  ∧ csv_buffer s' = csv_buffer s.

(** the database in memory is what loading the bytes written so far
    gives, and these bytes end where a row ends *)
Definition in_sync (s : state) : Prop :=
  store_open s ∧ Csv.complete (stream s) ∧ two_fields (written s)
  ∧ database s = rows_into ∅ (written s).

(** the paths of a walk are names that the file system can hold *)
Definition plain_walk (walk : list walk_entry) : Prop :=
  Forall (λ entry : walk_entry,
            Forall (λ file, Csv.plain (Path.join entry.1.1 file) = true)
                   entry.2) walk.

(** no write to the disk fails *)
Definition never_full (P : platform) : Prop :=
  ∀ held block, write_fails P held block = None.

(** some write to the disk fails *)
Definition write_failed (P : platform) : Prop :=
  ∃ held block, is_Some (write_fails P held block).

(** a row of two fields that are written and read whole *)
Definition plain_row (row : list string) : Prop :=
  ∃ h p, row = [h; p] ∧ Csv.plain h = true ∧ Csv.plain p = true.

(** the recorded path of a digest stays what it is *)
Definition ledger_keeps (s s' : state) : Prop :=
  ∀ h p, database s !! h = Some p → database s' !! h = Some p.

(** nothing is removed and nothing is overwritten: the files and the
    directories of [s] are in [s'] as they were *)
Definition disk_grows (s s' : state) : Prop :=
  files s ⊆ files s' ∧ dirs s ⊆ dirs s'.

(** what [sort_file] does with a file only depends on the log: the file is
    not a jpeg, or its digest is in the database, or its destination is
    taken *)
Definition settled (P : platform) (a : args) (s : state) (root file : string) : Prop :=
  not_jpeg file = true
  ∨ ∃ f, files s !! Path.join root file = Some f
         ∧ (is_Some (database s !! sha1_hexdigest P (content f))
            ∨ ∃ date,
                (get_exif_date P (Path.join root file) s).1 = Returns date
                ∧ path_exists (output_file_of (Path.join root file)
                                 (output_directory_of P a date)) s = true).

Definition all_settled (P : platform) (a : args) (s : state)
    (walk : list walk_entry) : Prop :=
  Forall (λ entry : walk_entry,
            Forall (settled P a s entry.1.1) entry.2) walk.

(** the number of files that a walk names *)
Definition walk_size (walk : list walk_entry) : nat :=
  sum_list ((λ entry : walk_entry, length entry.2) <$> walk).

(** *** [get_file_hash], block by block *)

Section HashObject.

(** the hash object of [hashlib.sha1()]: its state, [update] and
    [hexdigest] *)
Variable hash_object : Type.
Variable sha1_new : hash_object.
Variable update : hash_object → string → hash_object.
Variable hexdigest : hash_object → string.

(** lines 46-50: [file.read(block_size)] until it returns no data, each
    block given to [hash.update]; [rest] is what the file still holds.
    [None] when the fuel runs out before the end of the file. *)
Fixpoint hash_loop (fuel block_size : nat) (rest : string)
    (hash : hash_object) : option hash_object :=
  match fuel with
  | 0 => None
  | S fuel' =>
      let data := Str.take block_size rest in
      if String.eqb data "" then Some hash
      else hash_loop fuel' block_size (Str.drop block_size rest)
             (update hash data)
  end.

(** the blocks that the loop reads *)
Fixpoint blocks_read (fuel block_size : nat) (rest : string) : list string :=
  match fuel with
  | 0 => []
  | S fuel' =>
      let data := Str.take block_size rest in
      if String.eqb data "" then []
      else data :: blocks_read fuel' block_size (Str.drop block_size rest)
  end.

(** line 43 *)
Definition block_size : nat := 2 ^ 16.

(** lines 44-51, on the bytes of the file *)
Definition get_file_hash_loop (fuel : nat) (bytes : string) : option string :=
  hexdigest <$> hash_loop fuel block_size bytes sha1_new.

End HashObject.

(** *** More runs on the concrete platform *)

Module Again.

(** a photo, a second file with the same bytes, a photo without Exif
    data and a text file; no csv file yet *)
Definition start : state :=
  Demo.disk [("in/a.JPG", Runs.photo "E2020:01:05 10:00:00" 0);
             ("in/copy.jpeg", Runs.photo "E2020:01:05 10:00:00" 86400);
             ("in/c.jpg", Runs.photo "Nxyz" 86400);
             ("in/notes.txt", Runs.photo "to do" 0)]
            StoreAbsent.

Definition walk : list walk_entry :=
  [("in", ["trip"], ["a.JPG"; "copy.jpeg"; "c.jpg"; "notes.txt"]);
   ("in/trip", [], [])].

(** the process after [PhotoSort.__init__] *)
Definition ready : state := (PhotoSort_init Demo.plat Demo.copy_args start).2.

(** the process at the end of [main] *)
Definition done : state := (main Demo.plat Demo.copy_args walk start).2.

Definition wrong_input : args :=
  {| input := "nowhere"; output := "out"; remove := false |}.

End Again.

(** * Properties *)

(** ** The library functions on examples *)

Example weekday_2020_01_05 : Calendar.weekday 2020 1 5 = 6%nat.
Proof. reflexivity. Qed.

Example splitext_upper : Path.splitext "IMG_1.JPG" = ("IMG_1", ".JPG").
Proof. reflexivity. Qed.

Example splitext_hidden : Path.splitext "dir/.bashrc" = ("dir/.bashrc", "").
Proof. reflexivity. Qed.

Example basename_nested : Path.basename "in/2014/a.b.JPeG" = "a.b.JPeG".
Proof. reflexivity. Qed.

Example join_default_root : Path.join "./" "2020/01-January" = "./2020/01-January".
Proof. reflexivity. Qed.

Example join_plain_root : Path.join "out" ".database.csv" = "out/.database.csv".
Proof. reflexivity. Qed.

Example decimal_year : Format.decimal 2020 = "2020".
Proof. reflexivity. Qed.

Example ancestors_ex : Path.ancestors "out/2020/01-January" = ["out"; "out/2020"].
Proof. reflexivity. Qed.

Example parse_ex :
  Demo.parse "2020:01:05 10:00:00"
  = Some {| tm_year := 2020; tm_mon := 1; tm_mday := 5; tm_hour := 10;
            tm_min := 0; tm_sec := 0; tm_wday := 6 |}.
Proof. reflexivity. Qed.

Example parse_unset : Demo.parse "0000:00:00 00:00:00" = None.
Proof. reflexivity. Qed.

Example gmtime_ex :
  Demo.gmtime 1578218400
  = {| tm_year := 2020; tm_mon := 1; tm_mday := 5; tm_hour := 10;
       tm_min := 0; tm_sec := 0; tm_wday := 6 |}.
Proof. reflexivity. Qed.

Example dir_struct_ex :
  dir_struct Demo.plat (Demo.gmtime 1578218400) = "2020/01-January/05-Sunday".
Proof. reflexivity. Qed.


(** ** Computations: unfolding *)

Ltac unfold_M :=
  unfold bind, ret, get, modify, raise, sys_exit, logging, try_except.

(** unfold the computation in the goal, and take the branches that the
    hypotheses decide *)
Ltac run :=
  repeat first
    [ progress unfold_M
    | progress simpl
    | match goal with
      | H : ?x = _ |- context [match ?x with _ => _ end] => rewrite H
      | H : ?x = _ |- context [if ?x then _ else _] => rewrite H
      end ].

Lemma bind_returns {A B} (m : M A) (k : A → M B) s a s' :
  m s = (Returns a, s') → bind m k s = k a s'.
Proof. intros H. unfold bind. by rewrite H. Qed.

Lemma bind_exits {A B} (m : M A) (k : A → M B) s n s' :
  m s = (Exits n, s') → bind m k s = (Exits n, s').
Proof. intros H. unfold bind. by rewrite H. Qed.

Lemma bind_raises {A B} (m : M A) (k : A → M B) s e s' :
  m s = (Raises e, s') → bind m k s = (Raises e, s').
Proof. intros H. unfold bind. by rewrite H. Qed.

(** ** The destination path *)

Section StringFacts.

Lemma append_nil (s : string) : "" +:+ s = s.
Proof. reflexivity. Qed.

Lemma append_cons (c : ascii) (a s : string) :
  String c a +:+ s = String c (a +:+ s).
Proof. reflexivity. Qed.

Lemma append_nil_r (s : string) : s +:+ "" = s.
Proof. induction s as [|c s IH]; [done|]. by rewrite append_cons, IH. Qed.

Lemma append_assoc (a b c : string) : (a +:+ b) +:+ c = a +:+ (b +:+ c).
Proof.
  induction a as [|x a IH]; [done|]. by rewrite !append_cons, IH.
Qed.

Lemma append_inj_prefix (a x y : string) : a +:+ x = a +:+ y → x = y.
Proof. apply String.app_inj. Qed.

Lemma take_drop (n : nat) (s : string) : Str.take n s +:+ Str.drop n s = s.
Proof.
  revert s. induction n as [|n IH]; intros [|c s]; simpl; try done.
  by rewrite append_cons, IH.
Qed.

(** two strings without the separator, each followed by the separator:
    the parts before it are equal, and the parts after it *)
Lemma split_at_sep (c : ascii) (a a' r r' : string) :
  Str.contains c a = false → Str.contains c a' = false →
  a +:+ String c r = a' +:+ String c r' → a = a' ∧ r = r'.
Proof.
  revert a'. induction a as [|x a IH]; intros [|x' a'] Ha Ha' Heq;
    rewrite ?append_cons, ?append_nil in Heq; simpl in *.
  - by simplify_eq.
  - simplify_eq. by rewrite Ascii.eqb_refl in Ha'.
  - simplify_eq. by rewrite Ascii.eqb_refl in Ha.
  - apply orb_false_iff in Ha as [_ Ha].
    apply orb_false_iff in Ha' as [_ Ha'].
    simplify_eq. destruct (IH a' Ha Ha') as [-> ->]; done.
Qed.

Lemma uint_no_slash (d : Decimal.uint) :
  Str.contains "/" (NilEmpty.string_of_uint d) = false.
Proof. induction d; simpl; done. Qed.

Lemma decimal_no_slash (z : Z) : Str.contains "/" (Format.decimal z) = false.
Proof.
  unfold Format.decimal. destruct (Z.to_int z); simpl; apply uint_no_slash.
Qed.

Lemma decimal_inj (z z' : Z) : Format.decimal z = Format.decimal z' → z = z'.
Proof.
  unfold Format.decimal. intros Heq.
  apply DecimalZ.to_int_inj.
  assert (Some (Z.to_int z) = Some (Z.to_int z')) as [=]; [|done].
  by rewrite <- !NilEmpty.isi, Heq.
Qed.

Lemma decimal_not_absolute (z : Z) (r : string) :
  Str.startswith "/" (Format.decimal z +:+ r) = false
  ∨ Format.decimal z = "".
Proof.
  pose proof (decimal_no_slash z) as H.
  destruct (Format.decimal z) as [|c s]; [by right|left].
  rewrite append_cons. simpl in *. by apply orb_false_iff in H as [-> _].
Qed.

Lemma digit_inj (d d' : nat) :
  d < 10 → d' < 10 → Format.digit d = Format.digit d' → d = d'.
Proof.
  intros Hd Hd' Heq. unfold Format.digit in Heq.
  apply (f_equal nat_of_ascii) in Heq.
  rewrite !nat_ascii_embedding in Heq by lia. lia.
Qed.

Lemma two_digits_inj (n n' : nat) :
  n < 100 → n' < 100 → Format.two_digits n = Format.two_digits n' → n = n'.
Proof.
  intros Hn Hn' Heq. unfold Format.two_digits in Heq.
  assert (Format.digit (n / 10) = Format.digit (n' / 10)
          ∧ Format.digit (n mod 10) = Format.digit (n' mod 10))
    as [Hhi Hlo] by (split; congruence).
  apply digit_inj in Hhi; [|by apply Nat.Div0.div_lt_upper_bound..].
  apply digit_inj in Hlo; [|by apply Nat.mod_upper_bound..].
  rewrite (Nat.div_mod_eq n 10), (Nat.div_mod_eq n' 10). lia.
Qed.

Lemma two_digits_prefix_inj (n n' : nat) (r r' : string) :
  n < 100 → n' < 100 →
  Format.two_digits n +:+ r = Format.two_digits n' +:+ r' →
  n = n' ∧ r = r'.
Proof.
  intros Hn Hn' Heq. unfold Format.two_digits in Heq.
  rewrite !append_cons, !append_nil in Heq.
  split; [|congruence].
  apply two_digits_inj; [done..|]. unfold Format.two_digits. congruence.
Qed.

Lemma splitext_append (p : string) :
  (Path.splitext p).1 +:+ (Path.splitext p).2 = p.
Proof.
  unfold Path.splitext.
  destruct (Str.rfind "." p) as [dotIndex|]; simpl.
  - destruct (_ <=? _); simpl.
    + destruct (Str.all_char _ _); simpl.
      * apply append_nil_r.
      * apply take_drop.
    + apply append_nil_r.
  - apply append_nil_r.
Qed.

Lemma join_inj (a x y : string) :
  Str.startswith "/" x = false → Str.startswith "/" y = false →
  Path.join a x = Path.join a y → x = y.
Proof.
  intros Hx Hy. unfold Path.join. rewrite Hx, Hy.
  destruct (_ || _).
  - apply append_inj_prefix.
  - intros Heq. apply append_inj_prefix in Heq.
    rewrite !append_cons, !append_nil in Heq. congruence.
Qed.

End StringFacts.

Section Destination.

Variable P : platform.

Lemma decimal_nonempty (z : Z) : Format.decimal z ≠ "".
Proof.
  intros Hz. pose proof (NilEmpty.isi (Z.to_int z)) as Hisi.
  unfold Format.decimal in Hz. rewrite Hz in Hisi. simpl in Hisi.
  injection Hisi as Hisi.
  pose proof (DecimalZ.of_to z) as Hof. rewrite <- Hisi in Hof.
  simpl in Hof. subst z. discriminate Hisi.
Qed.

Lemma dir_struct_relative date : Str.startswith "/" (dir_struct P date) = false.
Proof.
  unfold dir_struct.
  destruct (decimal_not_absolute (tm_year date)
              ("/" +:+ strftime_m_B P date +:+ "/" +:+ strftime_d_A P date))
    as [H|H]; [done|].
  by apply decimal_nonempty in H.
Qed.

(** the year, the month and the day can be read off the directory *)
Lemma dir_struct_inj d1 d2 :
  tm_mon d1 < 100 → tm_mon d2 < 100 → tm_mday d1 < 100 → tm_mday d2 < 100 →
  dir_struct P d1 = dir_struct P d2 → Calendar.ymd d1 = Calendar.ymd d2.
Proof.
  intros Hm1 Hm2 Hd1 Hd2 Heq. unfold dir_struct in Heq.
  apply (split_at_sep "/" _ _
           (strftime_m_B P d1 +:+ "/" +:+ strftime_d_A P d1)
           (strftime_m_B P d2 +:+ "/" +:+ strftime_d_A P d2))
    in Heq as [Hy Hrest]; [|apply decimal_no_slash..].
  apply decimal_inj in Hy.
  unfold strftime_m_B in Hrest. rewrite !append_assoc in Hrest.
  apply two_digits_prefix_inj in Hrest as [Hm Hrest]; [|done..].
  rewrite Hm in Hrest.
  do 3 apply append_inj_prefix in Hrest.
  unfold strftime_d_A in Hrest.
  apply two_digits_prefix_inj in Hrest as [Hd _]; [|done..].
  unfold Calendar.ymd. congruence.
Qed.

Lemma days_in_month_bound y m : Calendar.days_in_month y m ≤ 31.
Proof.
  unfold Calendar.days_in_month.
  do 12 (destruct m as [|m]; [try destruct (Calendar.is_leap y); lia|]).
  lia.
Qed.

Lemma wellformed_bounds t :
  Calendar.wellformed t → tm_mon t < 100 ∧ tm_mday t < 100.
Proof.
  intros ((Hm1 & Hm2) & (Hd1 & Hd2) & _).
  pose proof (days_in_month_bound (tm_year t) (tm_mon t)). lia.
Qed.

(** C9: the output directory is the output root joined with
    year/MM-month/DD-weekday, computed from the date alone; the output
    file is the base name of the input file, its extension in lower case,
    in that directory; and for dates as [time] makes them, two dates have
    the same year, month and day exactly when they have the same output
    directory. *)
Theorem destination_of_date a :
  (∀ date,
     output_directory_of P a date
     = Path.join (output a)
         (Format.decimal (tm_year date) +:+ "/"
          +:+ (Format.two_digits (tm_mon date) +:+ "-"
               +:+ month_name P (tm_mon date)) +:+ "/"
          +:+ (Format.two_digits (tm_mday date) +:+ "-"
               +:+ weekday_name P (tm_wday date))))
  ∧ (∀ input_file output_directory,
       ∃ root ext,
         Path.splitext (Path.basename input_file) = (root, ext)
         ∧ root +:+ ext = Path.basename input_file
         ∧ output_file_of input_file output_directory
           = Path.join output_directory (root +:+ Str.lower ext))
  ∧ (∀ d1 d2,
       Calendar.wellformed d1 → Calendar.wellformed d2 →
       (Calendar.ymd d1 = Calendar.ymd d2
        ↔ output_directory_of P a d1 = output_directory_of P a d2)).
Proof.
  split_and!.
  - done.
  - intros input_file output_directory.
    pose proof (splitext_append (Path.basename input_file)) as Happ.
    unfold output_file_of.
    destruct (Path.splitext (Path.basename input_file)) as [root ext].
    by exists root, ext.
  - intros d1 d2 Hw1 Hw2. split.
    + intros Hymd. unfold Calendar.ymd in Hymd.
      injection Hymd as Hy Hm Hd.
      destruct Hw1 as (_ & _ & Hwd1). destruct Hw2 as (_ & _ & Hwd2).
      unfold output_directory_of, dir_struct, strftime_m_B, strftime_d_A.
      rewrite Hwd1, Hwd2, Hy, Hm, Hd. done.
    + intros Hdir. unfold output_directory_of in Hdir.
      apply join_inj in Hdir; [|apply dir_struct_relative..].
      destruct (wellformed_bounds d1 Hw1), (wellformed_bounds d2 Hw2).
      by apply dir_struct_inj.
Qed.

End Destination.

(** ** The csv reader and the csv writer *)

Lemma length_append (a b : string) :
  String.length (a +:+ b) = String.length a + String.length b.
Proof. induction a as [|c a IH]; [done|]. rewrite append_cons. simpl. by rewrite IH. Qed.

Lemma endswith_append (c : ascii) (a b : string) :
  b ≠ "" → Str.endswith c (a +:+ b) = Str.endswith c b.
Proof.
  intros Hb. induction a as [|x a IH]; [done|].
  rewrite append_cons. simpl. rewrite IH.
  destruct (a +:+ b) as [|y r] eqn:Hab; [|done].
  destruct a; [|discriminate]. by destruct b.
Qed.

Lemma append_not_empty (a b : string) : b ≠ "" → a +:+ b ≠ "".
Proof. intros Hb. destruct a; [done|]. by rewrite append_cons. Qed.

Module CsvFacts.

Import Csv.

(** reading bytes that are in two parts: the second part is read from
    where the first has left the reader *)
Lemma scan_app (a b : string) rows p :
  scan (a +:+ b) rows p
  = match scan a rows p with
    | (rows', Some p') => scan b rows' p'
    | r => r
    end.
Proof.
  revert rows p. induction a as [|c a IH]; intros rows p; [done|].
  rewrite append_cons. simpl.
  destruct (Ascii.eqb c NUL); [done|].
  destruct (process_char p c) as [p1|]; [|done].
  destruct (Ascii.eqb c LF); [|apply IH].
  destruct (end_of_line rows p1) as [[rows' p2]|]; [apply IH|done].
Qed.

Lemma unterminated_row_bytes (bytes : string) (row : list string) :
  unterminated (bytes +:+ row_bytes row) = false.
Proof.
  unfold unterminated, row_bytes.
  rewrite <- append_assoc.
  rewrite endswith_append by done. simpl.
  by rewrite andb_false_r.
Qed.

(** a file that ends where a row ends is read without error, and the
    reader adds no row at the end of the file *)
Lemma reader_complete (bytes : string) :
  complete bytes → reader bytes = ((scan bytes [] start).1, false).
Proof.
  intros [Hscan Hterm]. unfold reader.
  destruct (scan bytes [] start) as [rows o]. simpl in *. subst o.
  by rewrite Hterm.
Qed.

Lemma complete_empty : complete "".
Proof. by split. Qed.

(** *** What the writer writes, the reader reads *)

Lemma special_false c :
  special c = false →
  Ascii.eqb c delimiter = false ∧ Ascii.eqb c quotechar = false
  ∧ newline c = false ∧ Ascii.eqb c LF = false.
Proof.
  unfold special, newline. intros H.
  repeat (apply orb_false_iff in H as [H ?]). by split_and!; try (apply orb_false_iff).
Qed.

Lemma scan_unquoted_tail f rest rows p :
  bare f →
  state p = IN_FIELD →
  (N.of_nat (String.length (field p) + String.length f) <= field_limit)%N →
  scan (f +:+ rest) rows p
  = scan rest rows {| state := IN_FIELD; field := field p +:+ f;
                      fields := fields p |}.
Proof.
  revert p. induction f as [|c f IH]; intros p [Hq Hn] Hst Hlen.
  - rewrite append_nil, append_nil_r. by destruct p; simpl in *; subst.
  - rewrite append_cons. simpl in *.
    apply orb_false_iff in Hq as [Hc Hq]. apply orb_false_iff in Hn as [Hc0 Hn].
    destruct (special_false c Hc) as (Hd & Hqc & Hnl & Hlf).
    rewrite Hc0. unfold process_char. rewrite Hst, Hc0, Hnl, Hd.
    unfold add_char.
    destruct (N.leb_spec field_limit (N.of_nat (String.length (field p))));
      [lia|].
    rewrite Hlf. rewrite IH; simpl.
    + by rewrite append_assoc.
    + done.
    + done.
    + rewrite length_append. simpl. lia.
Qed.

Lemma scan_quoted_tail f rest rows p :
  Str.contains NUL f = false →
  state p = IN_QUOTED_FIELD →
  (N.of_nat (String.length (field p) + String.length f) <= field_limit)%N →
  scan (doubled f +:+ rest) rows p
  = scan rest rows {| state := IN_QUOTED_FIELD; field := field p +:+ f;
                      fields := fields p |}.
Proof.
  revert p. induction f as [|c f IH]; intros p Hn Hst Hlen.
  - rewrite append_nil, append_nil_r. by destruct p; simpl in *; subst.
  - simpl in *. apply orb_false_iff in Hn as [Hc0 Hn].
    assert (scan rest rows
              {| state := IN_QUOTED_FIELD; field := field p +:+ String c f;
                 fields := fields p |}
            = scan rest rows
              {| state := IN_QUOTED_FIELD;
                 field := (field p +:+ String c "") +:+ f;
                 fields := fields p |}) as ->
      by (by rewrite append_assoc).
    assert ((field_limit <=? N.of_nat (String.length (field p)))%N = false)
      as Hroom by (apply N.leb_gt; lia).
    destruct (Ascii.eqb c quotechar) eqn:Hqc.
    + apply Ascii.eqb_eq in Hqc. subst c.
      rewrite !append_cons. simpl.
      unfold process_char at 1. rewrite Hst. simpl.
      unfold process_char at 1. simpl. unfold add_char. simpl.
      rewrite Hroom.
      rewrite IH; simpl; [done..|].
      rewrite length_append. simpl. lia.
    + rewrite append_cons. simpl. rewrite Hc0.
      unfold process_char at 1. rewrite Hst, Hc0, Hqc.
      unfold add_char. rewrite Hroom.
      destruct (Ascii.eqb c LF) eqn:Hlf.
      * unfold end_of_line, process_char. simpl.
        rewrite IH; simpl; [done..|].
        rewrite length_append. simpl. lia.
      * rewrite IH; simpl; [done..|].
        rewrite length_append. simpl. lia.
Qed.

Lemma c_string_plain f : Str.contains NUL f = false → c_string f = f.
Proof.
  induction f as [|c f IH]; simpl; [done|].
  intros [Hc Hf]%orb_false_iff. rewrite Hc. by rewrite IH.
Qed.

Lemma plain_spec f :
  plain f = true
  ↔ Str.contains NUL f = false
    ∧ (N.of_nat (String.length f) <= field_limit)%N.
Proof.
  unfold plain. rewrite andb_true_iff, negb_true_iff, N.leb_le. done.
Qed.

(** the bytes of a field, read from the start of a field *)
Lemma scan_field f rows p :
  plain f = true →
  state p = START_RECORD ∨ state p = START_FIELD →
  field p = "" →
  ∃ p', field_read p p' f
        ∧ ∀ rest, scan (field_bytes false f +:+ rest) rows p
                  = scan rest rows p'.
Proof.
  intros [Hnul Hlen]%plain_spec Hst Hf.
  unfold field_bytes. rewrite c_string_plain by done.
  rewrite andb_false_l, orb_false_r.
  destruct (needs_quotes f) eqn:Hq.
  - (* quoted *)
    exists {| state := QUOTE_IN_QUOTED_FIELD; field := f; fields := fields p |}.
    split; [by split_and!; auto|].
    intros rest. rewrite append_cons, append_assoc, append_cons, append_nil.
    simpl.
    assert (process_char p quotechar = Some (with_state IN_QUOTED_FIELD p))
      as -> by (unfold process_char; by destruct Hst as [-> | ->]).
    rewrite scan_quoted_tail; simpl; [|done..|rewrite Hf; simpl; lia].
    rewrite Hf, append_nil. done.
  - destruct f as [|c f].
    + exists p. split; [by split_and!; auto|]. done.
    + exists {| state := IN_FIELD; field := String c f; fields := fields p |}.
      split; [by split_and!; auto|].
      intros rest. rewrite append_cons. simpl in *.
      apply orb_false_iff in Hq as [Hc Hq].
      apply orb_false_iff in Hnul as [Hc0 Hnul].
      destruct (special_false c Hc) as (Hd & Hqc & Hnl & Hlf).
      rewrite Hc0.
      assert (process_char p c
              = Some {| state := IN_FIELD; field := String c "";
                        fields := fields p |}) as ->.
      { unfold process_char, start_field, add_char.
        rewrite Hf. simpl.
        by destruct Hst as [-> | ->]; rewrite Hc0, Hnl, ?Hqc, ?Hd. }
      rewrite Hlf.
      rewrite scan_unquoted_tail; simpl; [done|done|done|lia].
Qed.

(** after a field, the delimiter: the field is saved and the next one
    starts *)
Lemma scan_delimiter p p' f rest rows :
  state p = START_RECORD ∨ state p = START_FIELD →
  field_read p p' f →
  scan (String delimiter rest) rows p'
  = scan rest rows {| state := START_FIELD; field := "";
                      fields := fields p ++ [f] |}.
Proof.
  intros Hst (Hfs & Hf & Hs). simpl.
  assert (process_char p' delimiter
          = Some (save_field START_FIELD p')) as ->.
  { unfold process_char.
    destruct Hs as [-> | [-> | [-> _]]]; [done|done|].
    by destruct Hst as [-> | ->]. }
  unfold save_field. by rewrite Hfs, Hf.
Qed.

(** after the last field, CR LF: the row is returned *)
Lemma scan_crlf p p' f rest rows :
  state p = START_FIELD →
  field_read p p' f →
  scan (String CR (String LF rest)) rows p'
  = scan rest (rows ++ [fields p ++ [f]]) start.
Proof.
  intros Hst (Hfs & Hf & Hs). simpl.
  assert (process_char p' CR = Some (save_field EAT_CRNL p')) as ->.
  { unfold process_char.
    destruct Hs as [-> | [-> | [-> _]]]; [done|done|].
    by rewrite Hst. }
  unfold end_of_line, save_field. simpl. by rewrite Hfs, Hf.
Qed.

(** the row that [add_hash] writes is read as it was written *)
Lemma scan_row h p rest rows :
  plain h = true → plain p = true →
  scan (row_bytes [h; p] +:+ rest) rows start
  = scan rest (rows ++ [[h; p]]) start.
Proof.
  intros Hh Hp. unfold row_bytes, join_fields.
  rewrite !append_assoc, append_cons.
  destruct (scan_field h rows start Hh) as (p1 & Hread1 & ->); [by left|done|].
  rewrite (scan_delimiter start p1 h) by (by try left).
  set (p2 := {| state := START_FIELD; field := ""; fields := fields start ++ [h] |}).
  destruct (scan_field p rows p2 Hp) as (p3 & Hread3 & ->); [by right|done|].
  rewrite !append_cons, append_nil.
  by rewrite (scan_crlf p2 p3 p).
Qed.

(** appending the bytes of such a row to a file that ends where a row ends
    adds that row to what the reader returns, and the file still ends
    where a row ends *)
Lemma reader_append_row bytes h p :
  complete bytes → plain h = true → plain p = true →
  complete (bytes +:+ row_bytes [h; p])
  ∧ reader (bytes +:+ row_bytes [h; p])
    = ((reader bytes).1 ++ [[h; p]], false).
Proof.
  intros Hc Hh Hp.
  assert (scan (bytes +:+ row_bytes [h; p]) [] start
          = ((reader bytes).1 ++ [[h; p]], Some start)) as Hscan.
  { rewrite scan_app. rewrite (reader_complete bytes Hc).
    destruct Hc as [Hs _].
    destruct (scan bytes [] start) as [rows o]. simpl in *. subst o.
    rewrite <- (append_nil_r (row_bytes [h; p])).
    by rewrite scan_row. }
  assert (complete (bytes +:+ row_bytes [h; p])) as Hc'.
  { split; [by rewrite Hscan|apply unterminated_row_bytes]. }
  split; [done|].
  rewrite (reader_complete _ Hc'). by rewrite Hscan.
Qed.

Lemma reader_row h p :
  plain h = true → plain p = true →
  reader (row_bytes [h; p]) = ([[h; p]], false).
Proof.
  intros Hh Hp.
  destruct (reader_append_row "" h p complete_empty Hh Hp) as (_ & Hr).
  by rewrite append_nil in Hr.
Qed.

(** *** The digest is such a field *)

Lemma digits_length n v acc :
  String.length (Hex.digits n v acc) = n + String.length acc.
Proof.
  revert v acc. induction n as [|n IH]; intros v acc; [done|].
  simpl. rewrite IH. simpl. lia.
Qed.

Lemma digit_not_nul d : Ascii.eqb (Hex.digit d) NUL = false.
Proof.
  unfold Hex.digit.
  destruct (N.to_nat d) as [|[|[|[|[|[|[|[|[|[|[|[|[|[|[|k]]]]]]]]]]]]]]]; done.
Qed.

Lemma digits_no_nul n v acc :
  Str.contains NUL acc = false →
  Str.contains NUL (Hex.digits n v acc) = false.
Proof.
  revert v acc. induction n as [|n IH]; intros v acc Hacc; [done|].
  simpl. apply IH. simpl. by rewrite digit_not_nul.
Qed.

End CsvFacts.

(** the same for several rows *)
Lemma reader_append_rows bytes rows :
  Csv.complete bytes → Forall plain_row rows →
  Csv.complete (bytes +:+ Csv.rows_bytes rows)
  ∧ Csv.reader (bytes +:+ Csv.rows_bytes rows)
    = ((Csv.reader bytes).1 ++ rows, false).
Proof.
  intros Hc Hall. revert bytes Hc.
  induction Hall as [|row rest (h & p & -> & Hh & Hp) Hrest IH];
    intros bytes Hc.
  - simpl. rewrite append_nil_r, app_nil_r. split; [done|].
    by rewrite (CsvFacts.reader_complete bytes Hc).
  - simpl. rewrite <- append_assoc.
    destruct (CsvFacts.reader_append_row bytes h p Hc Hh Hp) as (Hc' & Hr').
    destruct (IH _ Hc') as (Hc'' & Hr'').
    split; [done|]. rewrite Hr'', Hr'. simpl. by rewrite <- app_assoc.
Qed.

Lemma sha1_hexdigest_plain (P : platform) (bytes : string) :
  Csv.plain (sha1_hexdigest P bytes) = true.
Proof.
  apply CsvFacts.plain_spec. unfold sha1_hexdigest. split.
  - by apply CsvFacts.digits_no_nul.
  - rewrite CsvFacts.digits_length. done.
Qed.

(** ** The hash database *)

Lemma ledger_grows_refl s : ledger_grows s s.
Proof. by intros h. Qed.

Lemma ledger_grows_trans s1 s2 s3 :
  ledger_grows s1 s2 → ledger_grows s2 s3 → ledger_grows s1 s3.
Proof. intros H12 H23 h Hh. by apply H23, H12. Qed.

Lemma ledger_grows_same s s' : database s' = database s → ledger_grows s s'.
Proof. intros Heq h. by rewrite Heq. Qed.

Lemma take_all_drop_nothing n s : Str.drop n s = "" → Str.take n s = s.
Proof.
  intros Hd. pose proof (take_drop n s) as H. rewrite Hd in H.
  by rewrite append_nil_r in H.
Qed.

Lemma take_nothing_drop_all n s : Str.take n s = "" → Str.drop n s = s.
Proof. intros Ht. pose proof (take_drop n s) as H. by rewrite Ht in H. Qed.

Section Ledger.

Variable P : platform.

(** what the file holds after the file object has written a block out:
    what it held, and the block or the part of it that the failing write
    left *)
Lemma write_out_cases bytes block :
  let w := write_out P (StoreBytes bytes) block in
  (w = (StoreBytes (bytes +:+ block), true))
  ∨ (w.2 = false
     ∧ ∃ n, write_fails P bytes block = Some n
            ∧ w.1 = StoreBytes (bytes +:+ Str.take n block)).
Proof.
  simpl. unfold write_out. destruct block as [|c block].
  - left. by rewrite append_nil_r.
  - simpl. destruct (write_fails P bytes (String c block)) as [n|] eqn:Hw.
    + right. split; [done|]. by exists n.
    + by left.
Qed.

Lemma writerow_eq row s :
  let pending := csv_buffer s +:+ Csv.row_bytes row in
  let n := flushed P pending in
  let w := write_out P (store s) (Str.take n pending) in
  writerow P row s
  = if w.2 then (Returns tt, with_store w.1 (Str.drop n pending) s)
    else (Raises IOError, with_store w.1 "" s).
Proof.
  simpl. unfold writerow. unfold_M.
  by destruct (write_out P (store s) _).2.
Qed.

(** [writerow] returns or raises [IOError], and touches nothing but the
    csv file and the buffer of its file object *)
Lemma writerow_frame row s :
  let r := writerow P row s in
  (r.1 = Returns tt ∨ r.1 = Raises IOError)
  ∧ files r.2 = files s ∧ dirs r.2 = dirs s
  ∧ database r.2 = database s ∧ log r.2 = log s.
Proof.
  simpl. rewrite writerow_eq.
  destruct (write_out P (store s) _).2; simpl; auto.
Qed.

(** when [writerow] returns, the bytes of the row follow what had been
    written: the file has received the part that the C library has
    written out, the rest is in the buffer *)
Lemma writerow_returns row s bytes :
  store s = StoreBytes bytes →
  (writerow P row s).1 = Returns tt →
  let pending := csv_buffer s +:+ Csv.row_bytes row in
  let s' := (writerow P row s).2 in
  store s' = StoreBytes (bytes +:+ Str.take (flushed P pending) pending)
  ∧ csv_buffer s' = Str.drop (flushed P pending) pending
  ∧ stream s' = stream s +:+ Csv.row_bytes row.
Proof.
  intros Hst. simpl. rewrite writerow_eq, Hst.
  destruct (write_out_cases bytes
              (Str.take (flushed P (csv_buffer s +:+ Csv.row_bytes row))
                 (csv_buffer s +:+ Csv.row_bytes row)))
    as [-> | (Hfail & _)]; simpl.
  - intros _. split_and!; [done..|].
    unfold stream. simpl. rewrite Hst. simpl.
    by rewrite !append_assoc, take_drop.
  - by rewrite Hfail.
Qed.

(** when [writerow] raises, a write to the disk has failed; the file
    has the part of the block that was written before, and the buffer is
    empty *)
Lemma writerow_raises row s bytes :
  store s = StoreBytes bytes →
  (writerow P row s).1 ≠ Returns tt →
  let pending := csv_buffer s +:+ Csv.row_bytes row in
  let block := Str.take (flushed P pending) pending in
  let s' := (writerow P row s).2 in
  (writerow P row s).1 = Raises IOError
  ∧ (∃ n, write_fails P bytes block = Some n
          ∧ store s' = StoreBytes (bytes +:+ Str.take n block))
  ∧ csv_buffer s' = "".
Proof.
  intros Hst. simpl. rewrite writerow_eq, Hst.
  destruct (write_out_cases bytes
              (Str.take (flushed P (csv_buffer s +:+ Csv.row_bytes row))
                 (csv_buffer s +:+ Csv.row_bytes row)))
    as [-> | (Hfail & n & Hn & Hw)]; simpl; [done|].
  rewrite Hfail. simpl. intros _. split_and!; [done| |done].
  by exists n.
Qed.

(** closing the file object when the last write succeeds: the file holds
    every byte that was written *)
Lemma interpreter_exit_store s :
  store_open s → closes P s →
  store (interpreter_exit P s) = StoreBytes (stream s)
  ∧ csv_buffer (interpreter_exit P s) = "".
Proof.
  intros [bytes Hst] Hok. unfold closes in Hok.
  unfold interpreter_exit, stream. simpl.
  rewrite Hst in *. simpl in *. split; [|done].
  destruct (csv_buffer s) as [|c buf] eqn:Hbuf.
  - simpl. by rewrite append_nil_r.
  - destruct Hok as [Hok|Hok]; [done|].
    unfold write_out. simpl. by rewrite Hok.
Qed.

(** [add_hash] on a digest that the database has: an error is logged,
    and that is all. *)
Lemma add_hash_present hash file_name s :
  is_Some (database s !! hash) →
  add_hash P hash file_name s
  = (Returns tt, with_log (ERROR, MsgDuplicatedEntry file_name) s).
Proof.
  intros H. unfold add_hash. run.
  by rewrite bool_decide_eq_true_2.
Qed.

Lemma add_hash_absent hash file_name s :
  database s !! hash = None →
  add_hash P hash file_name s
  = writerow P [hash; file_name] (with_database <[hash := file_name]> s).
Proof.
  intros H. unfold add_hash. run.
  rewrite bool_decide_eq_false_2; [done|].
  rewrite H. by intros [? ?].
Qed.

(** [add_hash] returns, or lets the [IOError] of a failed write through *)
Lemma add_hash_outcome hash file_name s :
  let r := add_hash P hash file_name s in
  r.1 = Returns tt ∨ r.1 = Raises IOError.
Proof.
  simpl. destruct (database s !! hash) as [old|] eqn:Hdb.
  - rewrite add_hash_present; [by left|]. rewrite Hdb. eauto.
  - rewrite add_hash_absent by done. apply writerow_frame.
Qed.

Lemma add_hash_only_ledger hash file_name s :
  let s' := (add_hash P hash file_name s).2 in
  files s' = files s ∧ dirs s' = dirs s.
Proof.
  destruct (database s !! hash) as [old|] eqn:Hdb; simpl.
  - rewrite add_hash_present; [done|]. rewrite Hdb. eauto.
  - rewrite add_hash_absent by done.
    destruct (writerow_frame [hash; file_name]
                (with_database <[hash := file_name]> s)) as (_ & ? & ? & _).
    done.
Qed.

Lemma add_hash_ledger_grows hash file_name s :
  ledger_grows s (add_hash P hash file_name s).2.
Proof.
  destruct (database s !! hash) as [old|] eqn:Hdb.
  - rewrite add_hash_present by (rewrite Hdb; eauto).
    by apply ledger_grows_same.
  - rewrite add_hash_absent by done.
    destruct (writerow_frame [hash; file_name]
                (with_database <[hash := file_name]> s))
      as (_ & _ & _ & Hdb' & _).
    intros h Hh. rewrite Hdb'. simpl.
    destruct (decide (hash = h)) as [->|].
    + rewrite lookup_insert_eq; eauto.
    + by rewrite lookup_insert_ne.
Qed.

(** the mapping is in the database when [add_hash] ends, whether the row
    could be written or not: line 75 comes before line 76 *)
Lemma add_hash_recorded hash file_name s :
  database s !! hash = None →
  database (add_hash P hash file_name s).2 = <[hash := file_name]> (database s).
Proof.
  intros Hdb. rewrite add_hash_absent by done.
  by destruct (writerow_frame [hash; file_name]
                 (with_database <[hash := file_name]> s))
    as (_ & _ & _ & -> & _).
Qed.

(** C4, as the code has it: [add_hash] on a digest that the database
    already has logs the error "Duplicated entry", keeps the mapping as it
    is, leaves the csv file and the buffer of its file object as they are,
    and returns as it does otherwise.  On a new digest it inserts the
    mapping, then gives the bytes of the one row [(hash, file_name)] to the
    file object: when the call returns, they follow what had been written,
    in the buffer, except for the part that the C library has written out;
    the file holds them all once the file object has been closed.  When the
    write fails, [IOError] leaves [add_hash], with the mapping in the
    database.  Nothing else is touched. *)
Theorem add_hash_rejects_or_appends hash file_name s bytes :
  store s = StoreBytes bytes →
  let r := add_hash P hash file_name s in
  let pending := csv_buffer s +:+ Csv.row_bytes [hash; file_name] in
  let block := Str.take (flushed P pending) pending in
  match database s !! hash with
  | Some old =>
      r.1 = Returns tt
      ∧ database r.2 = database s
      ∧ database r.2 !! hash = Some old
      ∧ store r.2 = store s
      ∧ csv_buffer r.2 = csv_buffer s
      ∧ log r.2 = log s ++ [(ERROR, MsgDuplicatedEntry file_name)]
  | None =>
      database r.2 = <[hash := file_name]> (database s)
      ∧ log r.2 = log s
      ∧ (r.1 = Returns tt
         ∧ store r.2 = StoreBytes (bytes +:+ block)
         ∧ csv_buffer r.2 = Str.drop (flushed P pending) pending
         ∧ (closes P r.2 →
            store (interpreter_exit P r.2) = StoreBytes (bytes +:+ pending))
         ∨ r.1 = Raises IOError
           ∧ (∃ n, write_fails P bytes block = Some n
                   ∧ store r.2 = StoreBytes (bytes +:+ Str.take n block))
           ∧ csv_buffer r.2 = "")
      ∧ (Csv.plain hash = true → Csv.plain file_name = true →
         Csv.reader (Csv.row_bytes [hash; file_name])
         = ([[hash; file_name]], false))
  end
  ∧ files r.2 = files s ∧ dirs r.2 = dirs s.
Proof.
  intros Hst. simpl. split; [|apply add_hash_only_ledger].
  destruct (database s !! hash) as [old|] eqn:Hdb.
  - rewrite add_hash_present by (rewrite Hdb; eauto). simpl.
    by rewrite Hdb.
  - split; [by apply add_hash_recorded|].
    rewrite add_hash_absent by done.
    set (s0 := with_database <[hash := file_name]> s).
    destruct (writerow_frame [hash; file_name] s0)
      as (Hr & _ & _ & _ & Hl).
    split; [done|]. split; [|apply CsvFacts.reader_row].
    assert (store s0 = StoreBytes bytes) as Hst0 by done.
    destruct Hr as [Hr|Hr].
    + left. split; [done|].
      destruct (writerow_returns [hash; file_name] s0 bytes Hst0 Hr)
        as (Hs & Hb & Hstream).
      split; [done|]. split; [done|].
      intros Hok.
      destruct (interpreter_exit_store (writerow P [hash; file_name] s0).2)
        as (Hdisk & _); [by eexists|done|].
      etrans; [exact Hdisk|]. rewrite Hstream. unfold stream.
      by rewrite Hst0, append_assoc.
    + right. split; [done|].
      apply (writerow_raises [hash; file_name] s0 bytes Hst0).
      by rewrite Hr.
Qed.

End Ledger.

(** ** Loading the csv file *)

Lemma rows_into_app db rows1 rows2 :
  rows_into db (rows1 ++ rows2) = rows_into (rows_into db rows1) rows2.
Proof. apply foldl_app. Qed.

Lemma rows_into_other db rows h :
  Forall (λ row : list string, row !! 0%nat ≠ Some h) rows →
  rows_into db rows !! h = db !! h.
Proof.
  revert db. induction rows as [|row rest IH]; intros db Hall; [done|].
  inversion Hall as [|? ? Hrow Hrest]; subst. simpl.
  rewrite IH by done.
  destruct row as [|k [|v more]]; try done.
  rewrite lookup_insert_ne; [done|]. intros ->. by apply Hrow.
Qed.

(** the last row that starts with a digest decides what the database
    holds for it *)
Lemma rows_into_last db pre row post h p :
  row !! 0%nat = Some h → row !! 1%nat = Some p →
  Forall (λ row : list string, row !! 0%nat ≠ Some h) post →
  rows_into db (pre ++ row :: post) !! h = Some p.
Proof.
  intros H0 H1 Hpost. rewrite rows_into_app. simpl.
  rewrite rows_into_other by done.
  destruct row as [|k [|v more]]; try done.
  simpl in *. simplify_eq. apply lookup_insert_eq.
Qed.

(** reading rows never removes a digest *)
Lemma rows_into_keeps db rows h :
  is_Some (db !! h) → is_Some (rows_into db rows !! h).
Proof.
  revert db. induction rows as [|row rest IH]; intros db Hsome; [done|].
  simpl. apply IH.
  destruct row as [|k [|v more]]; try done.
  destruct (decide (k = h)) as [->|].
  - rewrite lookup_insert_eq; eauto.
  - by rewrite lookup_insert_ne.
Qed.

Lemma rows_into_elem db rows h p :
  [h; p] ∈ rows → is_Some (rows_into db rows !! h).
Proof.
  revert db. induction rows as [|row rest IH]; intros db Hin.
  - by apply elem_of_nil in Hin.
  - apply elem_of_cons in Hin as [<-|Hin]; simpl.
    + apply rows_into_keeps. rewrite lookup_insert_eq; eauto.
    + by apply IH.
Qed.

Section Loading.

Variable P : platform.

Lemma load_rows_two_fields rows s :
  two_fields rows →
  load_rows rows s
  = (Returns tt, with_database (λ _, rows_into (database s) rows) s).
Proof.
  revert s. induction rows as [|row rest IH]; intros s Hall.
  - simpl. unfold ret. by destruct s.
  - inversion Hall as [|? ? Hrow Hrest]; subst.
    destruct row as [|k [|v more]]; simpl in Hrow; try lia.
    simpl. run. rewrite IH by done. done.
Qed.

(** a row with fewer than two fields: [row[0]] or [row[1]] raises
    [IndexError] *)
Lemma load_rows_short rows s :
  Exists (λ row : list string, length row < 2) rows →
  ∃ s', load_rows rows s = (Raises IndexError, s')
        ∧ files s' = files s ∧ dirs s' = dirs s ∧ store s' = store s
        ∧ csv_buffer s' = csv_buffer s ∧ log s' = log s.
Proof.
  revert s. induction rows as [|row rest IH]; intros s Hex.
  - by apply Exists_nil in Hex.
  - destruct row as [|k [|v more]].
    + exists s. by run.
    + exists s. by run.
    + apply Exists_cons in Hex as [Hrow|Hrest]; [simpl in Hrow; lia|].
      destruct (IH (with_database <[k := v]> s) Hrest) as (s' & Hs' & ?).
      exists s'. split; [|done]. simpl. run. by rewrite Hs'.
Qed.

Lemma load_rows_frame rows s :
  let r := load_rows rows s in
  (r.1 = Returns tt ∨ r.1 = Raises IndexError)
  ∧ files r.2 = files s ∧ dirs r.2 = dirs s ∧ store r.2 = store s
  ∧ csv_buffer r.2 = csv_buffer s ∧ log r.2 = log s.
Proof.
  revert s. induction rows as [|row rest IH]; intros s; simpl.
  - run. tauto.
  - destruct row as [|k [|v more]]; run; try tauto.
    destruct (IH (with_database <[k := v]> s)) as (Ho & ?).
    simpl in Ho.
    destruct (load_rows rest (with_database <[k := v]> s)) as [[[]|n|e] s'];
      simpl in *; destruct Ho; simplify_eq; tauto.
Qed.

Lemma load_database_absent file_name s :
  store s = StoreAbsent →
  load_database file_name s
  = (Returns tt, with_log (WARNING, MsgStoreMissing file_name) s).
Proof. intros H. unfold load_database. by run. Qed.

Lemma load_database_two_fields file_name bytes rows s :
  store s = StoreBytes bytes → Csv.reader bytes = (rows, false) →
  two_fields rows →
  load_database file_name s
  = (Returns tt,
     with_log (DEBUG, MsgDatabaseLoaded (size (rows_into (database s) rows)))
              (with_database (λ _, rows_into (database s) rows) s)).
Proof.
  intros Hst Hread Hall. unfold load_database, read_store. run.
  rewrite Hread. simpl. run.
  rewrite load_rows_two_fields by done. done.
Qed.

(** the csv file exists and cannot be loaded: the error is logged and
    the process exits, with status 0; the disk is as it was *)
Lemma load_database_unusable file_name s :
  unusable (store s) →
  ∃ s', load_database file_name s = (Exits 0, s')
        ∧ files s' = files s ∧ dirs s' = dirs s ∧ store s' = store s
        ∧ ∃ ex, log s' = log s ++ [(ERROR, MsgStoreReadError file_name);
                                    (DEBUG, MsgException ex)].
Proof.
  intros Hbad.
  destruct (store s) as [| |bytes] eqn:Hst; simpl in Hbad; [done| |].
  - unfold load_database, read_store. run.
    eexists. repeat split; eauto. exists IOError. simpl.
    by rewrite <- app_assoc.
  - destruct (Csv.reader bytes) as [rows bad] eqn:Hread. simpl in Hbad.
    destruct (load_rows_frame rows s) as (Ho & Hf & Hd & Hs & Hb & Hl).
    unfold load_database, read_store. run. rewrite Hread. simpl.
    destruct (load_rows rows s) as [[[]|n|e] s1] eqn:Hload; simpl in *.
    + destruct Hbad as [->|Hshort].
      * eexists. repeat split; simpl; eauto; try congruence.
        exists CsvError. rewrite Hl. by rewrite <- app_assoc.
      * destruct (load_rows_short rows s Hshort) as (s2 & Hs2 & _).
        congruence.
    + destruct Ho; discriminate.
    + eexists. repeat split; simpl; eauto; try congruence.
      exists e. rewrite Hl. by rewrite <- app_assoc.
Qed.

(** C10: when the csv file has several rows with the same digest,
    [load_database] keeps the path of the last of them: the load succeeds
    and logs nothing but the number of elements.  [add_hash], on the
    contrary, rejects a second path for a digest and logs an error. *)
Theorem load_database_keeps_last_row file_name s bytes pre row1 mid row2 post h p2 :
  store s = StoreBytes bytes →
  Csv.reader bytes = (pre ++ row1 :: mid ++ row2 :: post, false) →
  two_fields (pre ++ row1 :: mid ++ row2 :: post) →
  row1 !! 0%nat = Some h →
  row2 !! 0%nat = Some h → row2 !! 1%nat = Some p2 →
  Forall (λ row : list string, row !! 0%nat ≠ Some h) post →
  let r := load_database file_name s in
  r.1 = Returns tt
  ∧ database r.2 !! h = Some p2
  ∧ log r.2 = log s ++ [(DEBUG, MsgDatabaseLoaded (size (database r.2)))]
  ∧ ∀ file_name',
      add_hash P h file_name' r.2
      = (Returns tt, with_log (ERROR, MsgDuplicatedEntry file_name') r.2).
Proof.
  intros Hst Hread Hall _ H0 H1 Hpost. simpl.
  rewrite (load_database_two_fields _ _ _ _ Hst Hread Hall). simpl.
  assert (rows_into (database s) (pre ++ row1 :: mid ++ row2 :: post) !! h
          = Some p2) as Hlast.
  { replace (pre ++ row1 :: mid ++ row2 :: post)
      with ((pre ++ row1 :: mid) ++ row2 :: post)
      by (by rewrite <- app_assoc).
    by apply rows_into_last. }
  repeat split; [done|].
  intros file_name'. apply add_hash_present. simpl. rewrite Hlast. eauto.
Qed.

End Loading.

(** ** Date resolution *)

Lemma only_logged_refl s : only_logged s s.
Proof. by repeat split. Qed.

Lemma only_logged_with_log e s : only_logged s (with_log e s).
Proof. by repeat split. Qed.

Section Dates.

Variable P : platform.

Lemma fallback_only_logs f s s' :
  only_logged s s' → only_logged s (fallback P f s').2.
Proof. unfold fallback. by destruct (localtime P (st_mtime f)). Qed.

(** [get_exif_date], branch by branch, on a file that exists *)
Lemma get_exif_date_cases filename f s :
  files s !! filename = Some f →
  get_exif_date P filename s
  = match getexif P (content f) with
    | GetexifRaises e => (Raises e, s)
    | GetexifNone =>
        fallback P f (with_log (INFO, MsgNoExif (Path.basename filename)) s)
    | GetexifDict items =>
        match decode_tags P items !! inl "DateTimeOriginal" with
        | None =>
            fallback P f
              (with_log (INFO, MsgNoDateInExif (Path.basename filename)) s)
        | Some (ExifStr v) =>
            match strptime P v with
            | Some t => (Returns t, s)
            | None =>
                fallback P f
                  (with_log (WARNING, MsgIncorrectDateInExif (Path.basename filename)) s)
            end
        | Some ExifOther =>
            fallback P f
              (with_log (WARNING, MsgIncorrectDateInExif (Path.basename filename)) s)
        end
    end.
Proof.
  intros Hf.
  unfold get_exif_date, image_getexif, mtime_date, parse_original, fallback.
  run. destruct (getexif P (content f)) as [e| |items]; run; [done| |].
  { by destruct (localtime P (st_mtime f)). }
  destruct (decode_tags P items !! inl "DateTimeOriginal") as [[v|]|]; run.
  - destruct (strptime P v); run; [done|].
    by destruct (localtime P (st_mtime f)).
  - by destruct (localtime P (st_mtime f)).
  - by destruct (localtime P (st_mtime f)).
Qed.

(** whatever it returns, [get_exif_date] only logs *)
Lemma get_exif_date_only_logs filename s :
  only_logged s (get_exif_date P filename s).2.
Proof.
  destruct (files s !! filename) as [f|] eqn:Hf.
  - rewrite (get_exif_date_cases _ _ _ Hf).
    repeat case_match; try apply only_logged_refl;
      apply fallback_only_logs, only_logged_with_log.
  - unfold get_exif_date, image_getexif. run. apply only_logged_refl.
Qed.

(** When the decoder returns, [get_exif_date] uses the Exif date or falls
    back to the date of the last modification of the file, in the three
    cases where the Exif data give no date (no Exif data, no
    DateTimeOriginal, a DateTimeOriginal that cannot be parsed).  It
    returns unless [time.localtime] rejects that time stamp: the
    [ValueError] of line 119 is outside the [try]. *)
Lemma get_exif_date_fallback filename f s :
  files s !! filename = Some f →
  (∀ e, getexif P (content f) ≠ GetexifRaises e) →
  let r := get_exif_date P filename s in
  ((∃ t, r.1 = Returns t)
   ∨ (r.1 = Raises ValueError ∧ localtime P (st_mtime f) = None))
  ∧ (is_Some (localtime P (st_mtime f)) → ∃ t, r.1 = Returns t)
  ∧ (getexif P (content f) = GetexifNone →
     r = fallback P f (with_log (INFO, MsgNoExif (Path.basename filename)) s))
  ∧ (∀ items, getexif P (content f) = GetexifDict items →
     decode_tags P items !! inl "DateTimeOriginal" = None →
     r = fallback P f
           (with_log (INFO, MsgNoDateInExif (Path.basename filename)) s))
  ∧ (∀ items, getexif P (content f) = GetexifDict items →
     match decode_tags P items !! inl "DateTimeOriginal" with
     | Some (ExifStr v) => strptime P v = None
     | Some ExifOther => True
     | None => False
     end →
     r = fallback P f
           (with_log (WARNING, MsgIncorrectDateInExif (Path.basename filename)) s)).
Proof.
  intros Hf Hret. simpl. rewrite (get_exif_date_cases _ _ _ Hf).
  split; [|split; [|split; [|split]]].
  - unfold fallback.
    repeat case_match; simplify_eq; eauto; by edestruct Hret.
  - intros [t Ht]. unfold fallback. rewrite Ht.
    repeat case_match; simplify_eq; eauto; by edestruct Hret.
  - by intros ->.
  - by intros items -> ->.
  - intros items ->. repeat case_match; naive_solver.
Qed.

End Dates.

(** ** Placement *)

Section Placement.

Variable P : platform.

Lemma copy_file_conflict a input_file output_directory s :
  path_exists (output_file_of input_file output_directory) s = true →
  copy_file P a input_file output_directory s
  = (Returns false,
     with_log (ERROR, MsgAlreadyExist (output_file_of input_file output_directory)) s).
Proof. intros H. unfold copy_file, copy_file_try. by run. Qed.


(** [copy_file] leaves the hash database and its csv file alone *)
Lemma copy_file_ledger a input_file output_directory s :
  let r := copy_file P a input_file output_directory s in
  database r.2 = database s ∧ store r.2 = store s
  ∧ csv_buffer r.2 = csv_buffer s.
Proof.
  unfold copy_file, copy_file_try, makedirs, shutil_move, shutil_copy,
    shutil_copy2, os_rename, os_unlink, copyfile.
  run. repeat (case_match; run; simplify_eq); eauto.
Qed.


Lemma copy_file_try_makedirs_fails a input_file output_directory s :
  path_exists (output_file_of input_file output_directory) s = false →
  path_exists output_directory s = false →
  makedirs_fails P output_directory = true →
  copy_file_try P a input_file output_directory s = (Raises OSError, s).
Proof. intros H1 H2 H3. unfold copy_file_try, makedirs. by run. Qed.

Lemma copy_file_try_copy_fails a input_file output_directory s f n :
  remove a = false →
  path_exists (output_file_of input_file output_directory) s = false →
  path_exists output_directory s = true →
  files s !! input_file = Some f →
  copy_fails P input_file (output_file_of input_file output_directory) = Some n →
  copy_file_try P a input_file output_directory s
  = (Raises IOError,
     with_files <[output_file_of input_file output_directory :=
                    {| content := Str.take n (content f); st_mtime := now P |}]> s).
Proof.
  intros H1 H2 H3 H4 H5.
  unfold copy_file_try, shutil_copy, copyfile. by run.
Qed.

(** C8: with [--remove], a call of [copy_file] on a source that exists
    never leaves the file without a copy: afterwards the source is still
    there, or the call has returned True and the destination holds the
    file.  In particular the source is still there when the call ends in
    an error (the exit of the except clause) and when the destination was
    taken. *)
Theorem move_keeps_a_copy a input_file output_directory s f :
  remove a = true →
  files s !! input_file = Some f →
  let r := copy_file P a input_file output_directory s in
  let output_file := output_file_of input_file output_directory in
  (files r.2 !! input_file = Some f
   ∨ (r.1 = Returns true ∧ files r.2 !! output_file = Some f))
  ∧ (∀ n, r.1 = Exits n → files r.2 !! input_file = Some f)
  ∧ (r.1 = Returns false → files r.2 = files s).
Proof.
  intros Hrm Hf. simpl.
  destruct (path_exists (output_file_of input_file output_directory) s)
    eqn:Hex.
  { rewrite copy_file_conflict by done. simpl. split_and?; eauto; done. }
  assert (files s !! output_file_of input_file output_directory = None)
    as Hdst.
  { unfold path_exists in Hex. apply orb_false_iff in Hex as [Hex _].
    apply bool_decide_eq_false in Hex.
    destruct (files s !! output_file_of input_file output_directory)
      as [g|] eqn:Hg; [|done].
    destruct Hex. eauto. }
  assert (output_file_of input_file output_directory ≠ input_file)
    as Hne by congruence.
  destruct f as [bytes mtime].
  unfold copy_file, copy_file_try, makedirs, shutil_move, shutil_copy2,
    os_rename, os_unlink, copyfile.
  run.
  repeat (case_match; run; simplify_map_eq); eauto; try done;
    split_and?; eauto; try done.
Qed.

End Placement.

(** ** The loop of [sort] *)

Section Sorting.

Variable P : platform.

Lemma sort_file_ignored a root file count s :
  not_jpeg file = true →
  sort_file P a root file count s
  = (Returns count, with_log (DEBUG, MsgIgnoring (Path.join root file)) s).
Proof. intros H. unfold sort_file. by run. Qed.

(** a candidate whose digest is in the database is skipped: the message
    "Duplicated photo" is logged and nothing else happens *)
Lemma sort_file_duplicate a root file count s f :
  not_jpeg file = false →
  files s !! Path.join root file = Some f →
  is_Some (database s !! sha1_hexdigest P (content f)) →
  sort_file P a root file count s
  = (Returns count,
     with_log (INFO, MsgDuplicatedPhoto (Path.join root file)) s).
Proof.
  intros Hjpg Hf Hdb. unfold sort_file, get_file_hash, exist. run.
  by rewrite bool_decide_eq_true_2.
Qed.

(** a candidate whose digest is not in the database: the date is
    resolved, then [copy_file] decides *)
Lemma sort_file_new a root file count s f :
  not_jpeg file = false →
  files s !! Path.join root file = Some f →
  database s !! sha1_hexdigest P (content f) = None →
  sort_file P a root file count s
  = (date <- get_exif_date P (Path.join root file) ;;
     logging DEBUG (MsgCopying file (dir_struct P date)) ;;
     copied <- copy_file P a (Path.join root file) (output_directory_of P a date) ;;
     if copied : bool then
       (add_hash P (sha1_hexdigest P (content f)) (Path.join root file) ;;
        ret (S count))
     else ret count)%M s.
Proof.
  intros Hjpg Hf Hdb. unfold sort_file, get_file_hash, exist. run.
  rewrite bool_decide_eq_false_2; [done|].
  rewrite Hdb. by intros [? ?].
Qed.

Lemma sort_file_ledger_grows a root file count s :
  ledger_grows s (sort_file P a root file count s).2.
Proof.
  destruct (not_jpeg file) eqn:Hjpg.
  { rewrite sort_file_ignored by done. by apply ledger_grows_same. }
  destruct (files s !! Path.join root file) as [f|] eqn:Hf.
  2:{ unfold sort_file, get_file_hash. run. apply ledger_grows_refl. }
  destruct (database s !! sha1_hexdigest P (content f)) as [p|] eqn:Hdb.
  { rewrite (sort_file_duplicate _ _ _ _ _ f) by (rewrite ?Hdb; eauto).
    by apply ledger_grows_same. }
  rewrite (sort_file_new _ _ _ _ _ f) by done.
  pose proof (get_exif_date_only_logs P (Path.join root file) s) as Hdate.
  unfold bind at 1.
  destruct (get_exif_date P (Path.join root file) s) as [[date|n|e] sd];
    simpl in Hdate; destruct Hdate as (_ & _ & _ & Hdbd & _);
    try by apply ledger_grows_same.
  unfold bind at 1. unfold logging at 1. unfold modify at 1.
  unfold bind at 1.
  pose proof (copy_file_ledger P a (Path.join root file)
                (output_directory_of P a date)
                (with_log (DEBUG, MsgCopying file (dir_struct P date)) sd))
    as Hcopy.
  destruct (copy_file P a _ _ _) as [[[]|n|e] sc];
    simpl in Hcopy; destruct Hcopy as (Hdbc & _);
    try (apply ledger_grows_same; simpl; congruence).
  unfold bind, ret.
  pose proof (add_hash_ledger_grows P (sha1_hexdigest P (content f))
                (Path.join root file) sc) as Hadd.
  destruct (add_hash P _ _ sc) as [[[]|n|e] sa]; simpl in *;
    (eapply ledger_grows_trans; [|exact Hadd]);
    apply ledger_grows_same; congruence.
Qed.



(** [count] is incremented for a file only after [copy_file] has
    returned True for it and [add_hash] has been called: the database
    then has the digest *)
Lemma sort_file_counted a root file count s f s1 :
  files s !! Path.join root file = Some f →
  sort_file P a root file count s = (Returns (S count), s1) →
  database s1 !! sha1_hexdigest P (content f) = Some (Path.join root file)
  ∧ database s !! sha1_hexdigest P (content f) = None
  ∧ ∃ date sd,
      get_exif_date P (Path.join root file) s = (Returns date, sd)
      ∧ (copy_file P a (Path.join root file) (output_directory_of P a date)
           (with_log (DEBUG, MsgCopying file (dir_struct P date)) sd)).1
        = Returns true.
Proof.
  intros Hf Hrun.
  destruct (not_jpeg file) eqn:Hjpg.
  { rewrite sort_file_ignored in Hrun by done. simplify_eq. lia. }
  destruct (database s !! sha1_hexdigest P (content f)) as [p|] eqn:Hdb.
  { rewrite (sort_file_duplicate _ _ _ _ _ f) in Hrun
      by (rewrite ?Hdb; eauto).
    simplify_eq. lia. }
  rewrite (sort_file_new _ _ _ _ _ f) in Hrun by done.
  unfold bind at 1 in Hrun.
  pose proof (get_exif_date_only_logs P (Path.join root file) s)
    as (_ & _ & _ & Hdbd & _).
  destruct (get_exif_date P (Path.join root file) s) as [[date|n|e] sd];
    [|done|done].
  simpl in Hdbd.
  unfold bind at 1 in Hrun. unfold logging at 1 in Hrun.
  unfold modify at 1 in Hrun. unfold bind at 1 in Hrun.
  destruct (copy_file P a _ _ _) as [[[]|n|e] sc] eqn:Hcopy;
    [| |done|done].
  2:{ unfold ret in Hrun. simplify_eq. lia. }
  unfold bind, ret in Hrun.
  pose proof (add_hash_ledger_grows P (sha1_hexdigest P (content f))
                (Path.join root file) sc) as Hgrow.
  pose proof (copy_file_ledger P a (Path.join root file)
                (output_directory_of P a date)
                (with_log (DEBUG, MsgCopying file (dir_struct P date)) sd))
    as (Hdbc & _).
  rewrite Hcopy in Hdbc. simpl in Hdbc.
  destruct (add_hash P _ _ sc) as [[[]|n|e] sa] eqn:Hadd; simplify_eq.
  split; [|split; [done|]].
  - assert (database sc !! sha1_hexdigest P (content f) = None) as Hsc
      by (by rewrite Hdbc, Hdbd).
    rewrite add_hash_absent in Hadd by done.
      destruct (writerow_frame P [sha1_hexdigest P (content f);
                                Path.join root file]
                (with_database <[sha1_hexdigest P (content f)
                                 := Path.join root file]> sc))
      as (_ & _ & _ & Hdb' & _).
    rewrite Hadd in Hdb'. simpl in Hdb'. rewrite Hdb'.
    apply lookup_insert_eq.
  - exists date, sd. split; [done|]. by rewrite Hcopy.
Qed.

Lemma path_exists_only_logged p s s' :
  only_logged s s' → path_exists p s' = path_exists p s.
Proof. intros (Hf & Hd & _). unfold path_exists. by rewrite Hf, Hd. Qed.



End Sorting.

(** ** How the process ends *)

Lemma exits_zero_ret {A} (a : A) : exits_zero (ret a).
Proof. intros s n s' H. discriminate H. Qed.

Lemma exits_zero_raise {A} e : exits_zero (raise e : M A).
Proof. intros s n s' H. discriminate H. Qed.

Lemma exits_zero_get : exits_zero get.
Proof. intros s n s' H. discriminate H. Qed.

Lemma exits_zero_modify f : exits_zero (modify f).
Proof. intros s n s' H. discriminate H. Qed.

Lemma exits_zero_logging l m : exits_zero (logging l m).
Proof. apply exits_zero_modify. Qed.

Lemma exits_zero_sys_exit {A} : exits_zero (sys_exit 0 : M A).
Proof. intros s n s' H. by inversion H. Qed.

Lemma exits_zero_bind {A B} (m : M A) (k : A → M B) :
  exits_zero m → (∀ a, exits_zero (k a)) → exits_zero (bind m k).
Proof.
  intros Hm Hk s n s' H. unfold bind in H.
  destruct (m s) as [[a|n1|e] s1] eqn:Hms.
  - by apply (Hk a s1 n s').
  - inversion H; subst. by apply (Hm s n s').
  - discriminate H.
Qed.

Lemma exits_zero_try_except {A} (body : M A) (handler : exn → M A) :
  exits_zero body → (∀ e, exits_zero (handler e)) →
  exits_zero (try_except body handler).
Proof.
  intros Hb Hh s n s' H. unfold try_except in H.
  destruct (body s) as [[a|n1|e] s1] eqn:Hbs.
  - discriminate H.
  - inversion H; subst. by apply (Hb s n s').
  - by apply (Hh e s1 n s').
Qed.

Create HintDb exits.
#[local] Hint Resolve exits_zero_ret exits_zero_raise exits_zero_get
  exits_zero_modify exits_zero_logging exits_zero_sys_exit : exits.

(** take a computation apart, down to the calls that the hints know *)
Ltac exits_zero :=
  repeat first
    [ solve [auto with exits]
    | apply exits_zero_bind; [|intros ?]
    | apply exits_zero_try_except; [|intros ?]
    | progress (intros; cbv zeta)
    | case_match ].

Section Exits.

Variable P : platform.












End Exits.

Section Runs.

Variable P : platform.

Lemma creatable_dirs filename s s' :
  dirs s' = dirs s → creatable filename s' = creatable filename s.
Proof. intros Hd. unfold creatable, isdir. by rewrite Hd. Qed.

(** [HashDatabase.__init__] on a csv file that exists and cannot be
    loaded: the two messages of lines 64-65 are logged and the process
    exits with status 0; the disk is as it was *)
Lemma HashDatabase_init_unusable filename s :
  unusable (store s) →
  ∃ s' ex, HashDatabase_init P filename s = (Exits 0, s')
           ∧ files s' = files s ∧ dirs s' = dirs s ∧ store s' = store s
           ∧ log s' = log s ++ [(ERROR, MsgStoreReadError filename);
                                (DEBUG, MsgException ex)].
Proof.
  intros Hbad. unfold HashDatabase_init.
  erewrite bind_returns; [|reflexivity].
  destruct (load_database_unusable filename
              (with_database (λ _, ∅) s) Hbad)
    as (s' & Hload & Hf & Hd & Hs & ex & Hl).
  exists s', ex. erewrite bind_exits; [|exact Hload]. done.
Qed.

(** [main] stops in [PhotoSort.__init__] when the csv file exists and
    cannot be loaded: [sort] does not start, no file and no directory
    has changed *)
Lemma PhotoSort_init_unusable a s :
  unusable (store s) →
  ∃ s', PhotoSort_init P a s = (Exits 0, s')
        ∧ files s' = files s ∧ dirs s' = dirs s ∧ store s' = store s
        ∧ (isdir (input a) s = true →
           ∃ ex, log s' = log s ++ [(ERROR, MsgStoreReadError
                                              (Path.join (output a) ".database.csv"));
                                    (DEBUG, MsgException ex)]).
Proof.
  intros Hbad. unfold PhotoSort_init.
  destruct (isdir (input a) s) eqn:Hdir; run.
  - destruct (HashDatabase_init_unusable
                (Path.join (output a) ".database.csv") s Hbad)
      as (s' & ex & Hinit & Hf & Hd & Hs & Hl).
    rewrite Hinit. exists s'. split_and!; try done. intros _. by exists ex.
  - eexists. split_and!; try done.
Qed.

Lemma main_unusable a walk s :
  unusable (store s) →
  ∃ s', main P a walk s = (Exits 0, s')
        ∧ PhotoSort_init P a s = (Exits 0, s')
        ∧ files s' = files s ∧ dirs s' = dirs s ∧ store s' = store s
        ∧ (isdir (input a) s = true →
           ∃ ex, log s' = log s ++ [(ERROR, MsgStoreReadError
                                              (Path.join (output a) ".database.csv"));
                                    (DEBUG, MsgException ex)]).
Proof.
  intros Hbad.
  destruct (PhotoSort_init_unusable a s Hbad) as (s' & Hinit & ?).
  exists s'. split; [|done]. unfold main. by apply bind_exits.
Qed.

(** the csv file does not exist and can be created *)
Lemma PhotoSort_init_absent a s :
  store s = StoreAbsent →
  isdir (input a) s = true →
  open_append_fails P = false →
  creatable (Path.join (output a) ".database.csv") s = true →
  PhotoSort_init P a s
  = (Returns tt,
     with_log (INFO, MsgDeleteAfterCopy (remove a))
       (with_log (INFO, MsgSorting (input a) (output a)
                          (Path.join (output a) ".database.csv"))
          (with_store (StoreBytes "") ""
             (with_log (WARNING, MsgStoreMissing
                                   (Path.join (output a) ".database.csv"))
                (with_database (λ _, ∅) s))))).
Proof.
  intros Hst Hdir Hopen Hcreate.
  unfold PhotoSort_init, HashDatabase_init, load_database, open_append.
  run.
  erewrite (creatable_dirs _ s) by done. by rewrite Hcreate.
Qed.

(** the csv file does not exist and cannot be created: the [IOError] of
    line 39 is caught nowhere *)
Lemma PhotoSort_init_cannot_create a s :
  store s = StoreAbsent →
  isdir (input a) s = true →
  open_append_fails P = true
  ∨ creatable (Path.join (output a) ".database.csv") s = false →
  PhotoSort_init P a s
  = (Raises IOError,
     with_log (WARNING, MsgStoreMissing (Path.join (output a) ".database.csv"))
       (with_database (λ _, ∅) s)).
Proof.
  intros Hst Hdir Hno.
  unfold PhotoSort_init, HashDatabase_init, load_database, open_append.
  run.
  destruct (open_append_fails P); [done|].
  destruct Hno as [?|Hno]; [done|].
  erewrite (creatable_dirs _ s) by done. by rewrite Hno.
Qed.

(** C6, as the code has it: when the csv file does not exist,
    [load_database] logs a warning and returns, and the database (emptied
    on line 37) stays empty; the run goes on to [sort] if the file can
    then be created, with an empty file, and ends at once with the
    [IOError] of line 39, which nothing catches, if it cannot (its
    directory does not exist, or [open] fails).
    When the csv file exists and cannot be read, or a row of it has fewer
    than two fields, the process exits in [PhotoSort.__init__], before
    [sort], and no file and no directory has changed. *)
Theorem load_database_absent_or_unusable a walk s :
  let db := Path.join (output a) ".database.csv" in
  (store s = StoreAbsent →
     (∀ file_name,
        (modify (with_database (λ _, ∅)) ;; load_database file_name)%M s
        = (Returns tt,
           with_log (WARNING, MsgStoreMissing file_name)
             (with_database (λ _, ∅) s)))
     ∧ (isdir (input a) s = true →
        (open_append_fails P = false → creatable db s = true →
         ∃ s', PhotoSort_init P a s = (Returns tt, s')
               ∧ database s' = ∅ ∧ store s' = StoreBytes ""
               ∧ files s' = files s ∧ dirs s' = dirs s
               ∧ main P a walk s = sort P a walk s')
        ∧ (open_append_fails P = true ∨ creatable db s = false →
           main P a walk s
           = (Raises IOError,
              with_log (WARNING, MsgStoreMissing db)
                (with_database (λ _, ∅) s)))))
  ∧ (unusable (store s) →
     ∃ s', main P a walk s = (Exits 0, s')
           ∧ PhotoSort_init P a s = (Exits 0, s')
           ∧ files s' = files s ∧ dirs s' = dirs s ∧ store s' = store s).
Proof.
  simpl. split.
  - intros Hst. split.
    + intros file_name. erewrite bind_returns; [|reflexivity].
      by apply load_database_absent.
    + intros Hdir. split.
      * intros Hopen Hcreate.
        eexists. split; [by apply PhotoSort_init_absent|].
        split_and!; try done.
        unfold main. erewrite bind_returns; [done|].
        by apply PhotoSort_init_absent.
      * intros Hno. unfold main. apply bind_raises.
        by apply PhotoSort_init_cannot_create.
  - intros Hbad.
    destruct (main_unusable a walk s Hbad) as (s' & ? & ? & ? & ? & ? & _).
    by exists s'.
Qed.


(** *** Where the walk stops *)







End Runs.

(** ** When a row reaches the disk *)

Section Durability.

Variable P : platform.

Lemma HashDatabase_init_loads filename bytes rows s :
  store s = StoreBytes bytes → Csv.reader bytes = (rows, false) →
  two_fields rows →
  open_append_fails P = false →
  HashDatabase_init P filename s
  = (Returns tt,
     with_store (StoreBytes bytes) ""
       (with_log (DEBUG, MsgDatabaseLoaded (size (rows_into ∅ rows)))
          (with_database (λ _, rows_into ∅ rows) s))).
Proof.
  intros Hst Hread Hall Hopen. unfold HashDatabase_init.
  erewrite bind_returns; [|reflexivity].
  erewrite bind_returns; [|by apply (load_database_two_fields _ bytes rows)].
  unfold open_append. unfold_M. rewrite Hopen. simpl.
  by rewrite Hst.
Qed.

(** a process that finds on the disk a csv file that ends where a row
    ends, followed by the row of a digest, has that digest in its
    database *)
Lemma HashDatabase_init_finds filename bytes hash file_name s :
  store s = StoreBytes (bytes +:+ Csv.row_bytes [hash; file_name]) →
  Csv.complete bytes → two_fields (Csv.reader bytes).1 →
  Csv.plain hash = true → Csv.plain file_name = true →
  open_append_fails P = false →
  let r := HashDatabase_init P filename s in
  r.1 = Returns tt ∧ exist hash r.2 = (Returns true, r.2).
Proof.
  intros Hst Hc Htwo Hh Hp Hopen. simpl.
  destruct (CsvFacts.reader_append_row bytes hash file_name Hc Hh Hp)
    as (_ & Hread).
  rewrite (HashDatabase_init_loads filename _ _ s Hst Hread); [| |done].
  - split; [done|]. unfold exist. run.
    rewrite bool_decide_eq_true_2; [done|].
    eapply rows_into_elem. apply elem_of_app. right.
    by apply list_elem_of_singleton.
  - apply Forall_app. split; [done|].
    apply Forall_cons. split; [simpl; lia|done].
Qed.

(** C5, as the code has it: when [add_hash] ends from a new digest, the
    mapping is in the database in memory; when it returns, the bytes of
    the row have been given to the file object of [csv_writer] and follow
    what had been written.  The file on the disk has only received what
    the C library has written out of the buffer, which is nothing as long
    as the buffer is not full (and may end in the middle of a row when it
    is): that is all that a process started after a kill finds.  The
    rest reaches the disk when the file object is closed, which the
    interpreter does when the process ends: if that write succeeds the
    file holds every byte, and the next process finds the digest in its
    database, provided that the file ended where a row ends before the
    row was written. *)
Theorem add_hash_on_disk_after_exit hash file_name s bytes :
  store s = StoreBytes bytes →
  database s !! hash = None →
  let pending := csv_buffer s +:+ Csv.row_bytes [hash; file_name] in
  let r := add_hash P hash file_name s in
  database r.2 !! hash = Some file_name
  ∧ (r.1 = Returns tt →
     stream r.2 = stream s +:+ Csv.row_bytes [hash; file_name]
     ∧ store (boot (crash r.2))
       = StoreBytes (bytes +:+ Str.take (flushed P pending) pending)
     ∧ (flushed P pending = 0 → store (boot (crash r.2)) = store s)
     ∧ (closes P r.2 →
        store (boot (interpreter_exit P r.2))
        = StoreBytes (stream s +:+ Csv.row_bytes [hash; file_name])
        ∧ (Csv.complete (stream s) → two_fields (written s) →
           Csv.plain hash = true → Csv.plain file_name = true →
           open_append_fails P = false →
           ∀ filename,
             let r2 := HashDatabase_init P filename
                         (boot (interpreter_exit P r.2)) in
             r2.1 = Returns tt ∧ exist hash r2.2 = (Returns true, r2.2)))).
Proof.
  intros Hst Hdb. simpl. split.
  { rewrite add_hash_recorded by done. apply lookup_insert_eq. }
  rewrite add_hash_absent by done.
  set (s0 := with_database <[hash := file_name]> s).
  assert (store s0 = StoreBytes bytes) as Hst0 by done.
  intros Hr.
  destruct (writerow_returns P [hash; file_name] s0 bytes Hst0 Hr)
    as (Hs & Hb & Hstream).
  change (stream s0) with (stream s) in Hstream.
  change (csv_buffer s0) with (csv_buffer s) in Hs, Hb.
  split_and!; [done|done| |].
  - intros Hnone. simpl. rewrite Hs, Hnone, Hst. simpl.
    destruct (csv_buffer s +:+ Csv.row_bytes [hash; file_name]);
      by rewrite append_nil_r.
  - intros Hok.
    destruct (interpreter_exit_store P (writerow P [hash; file_name] s0).2)
      as (Hdisk & _); [by eexists|done|].
    rewrite Hstream in Hdisk.
    split; [exact Hdisk|].
    intros Hc Htwo Hh Hp Hopen filename.
    by apply (HashDatabase_init_finds filename (stream s) hash file_name).
Qed.

End Durability.

(** ** An image that the decoder rejects *)

Section Undecodable.

Variable P : platform.

(** C2: [get_exif_date] does not always return.  [Image.open] and
    [_getexif] are called outside the [try]: when they raise (PIL cannot
    identify the bytes as an image), the exception leaves
    [get_exif_date], the date of the last modification is not used, and
    [sort_file] lets it through to the caller of [sort].  (When the decoder
    returns, [get_exif_date] falls back to the date of the last
    modification in the three cases without a usable date:
    [get_exif_date_fallback].) *)
Theorem get_exif_date_raises a root file count s f e :
  not_jpeg file = false →
  files s !! Path.join root file = Some f →
  database s !! sha1_hexdigest P (content f) = None →
  getexif P (content f) = GetexifRaises e →
  get_exif_date P (Path.join root file) s = (Raises e, s)
  ∧ sort_file P a root file count s = (Raises e, s)
  ∧ ∀ rest, sort_files P a root (file :: rest) count s = (Raises e, s).
Proof.
  intros Hjpg Hf Hdb Hex.
  assert (get_exif_date P (Path.join root file) s = (Raises e, s)) as Hdate
    by (by rewrite (get_exif_date_cases P _ f), Hex).
  assert (sort_file P a root file count s = (Raises e, s)) as Hstep.
  { rewrite (sort_file_new P _ _ _ _ _ f) by done. by apply bind_raises. }
  split_and!; [done..|].
  intros rest. simpl. by apply bind_raises.
Qed.

End Undecodable.

(** ** The program on the concrete platform *)

Example one_row_loaded :
  database Runs.one_row !! "h1" = Some "in/a.jpg"
  ∧ store Runs.one_row = StoreBytes (Csv.row_bytes ["h1"; "in/a.jpg"])
  ∧ csv_buffer Runs.one_row = "".
Proof. split_and!; reflexivity. Qed.

Lemma add_hash_rejects_or_appends_witness :
  store Runs.one_row = StoreBytes (Csv.row_bytes ["h1"; "in/a.jpg"])
  ∧ (let r := add_hash Demo.plat "h1" "in/b.jpg" Runs.one_row in
     r.1 = Returns tt
     ∧ database r.2 !! "h1" = Some "in/a.jpg"
     ∧ store r.2 = store Runs.one_row
     ∧ csv_buffer r.2 = ""
     ∧ log r.2 = log Runs.one_row ++ [(ERROR, MsgDuplicatedEntry "in/b.jpg")])
  ∧ (let r := add_hash Demo.plat "h2" "in/b.jpg" Runs.one_row in
     r.1 = Returns tt
     ∧ database r.2 = <["h2" := "in/b.jpg"]> (database Runs.one_row)
     ∧ closes Demo.plat r.2
     ∧ store (interpreter_exit Demo.plat r.2)
       = StoreBytes (Csv.rows_bytes [["h1"; "in/a.jpg"]; ["h2"; "in/b.jpg"]])
     ∧ Csv.reader (Csv.row_bytes ["h2"; "in/b.jpg"])
       = ([["h2"; "in/b.jpg"]], false)).
Proof.
  assert (store Runs.one_row = StoreBytes (Csv.row_bytes ["h1"; "in/a.jpg"]))
    as Hst by reflexivity.
  split; [exact Hst|]. split.
  - destruct (add_hash_rejects_or_appends Demo.plat "h1" "in/b.jpg"
                Runs.one_row _ Hst) as (Hm & _).
    change (database Runs.one_row !! "h1") with (Some "in/a.jpg") in Hm.
    destruct Hm as (Hr & _ & Hold & Hstore & Hbuf & Hlog).
    exact (conj Hr (conj Hold (conj Hstore (conj Hbuf Hlog)))).
  - destruct (add_hash_rejects_or_appends Demo.plat "h2" "in/b.jpg"
                Runs.one_row _ Hst) as (Hm & _).
    change (database Runs.one_row !! "h2") with (@None string) in Hm.
    destruct Hm as (Hdb & _ & Hrow & Hread).
    assert ((add_hash Demo.plat "h2" "in/b.jpg" Runs.one_row).1 = Returns tt)
      as Hr by (vm_compute; reflexivity).
    assert (closes Demo.plat (add_hash Demo.plat "h2" "in/b.jpg" Runs.one_row).2)
      as Hok by (right; reflexivity).
    destruct Hrow as [(_ & _ & _ & Hclosed)|(Hraise & _)].
    + exact (conj Hr (conj Hdb (conj Hok
               (conj (Hclosed Hok) (Hread eq_refl eq_refl))))).
    + rewrite Hr in Hraise. discriminate Hraise.
Defined.

(** C4 as the specification states it fails: [add_hash] has returned from
    a new digest, and nothing has been appended to the csv file: it holds
    the row that it held, the new row is in the buffer of the file
    object. *)
Lemma add_hash_leaves_store :
  let r := add_hash Demo.plat "h2" "in/b.jpg" Runs.one_row in
  database Runs.one_row !! "h2" = None
  ∧ r.1 = Returns tt
  ∧ database r.2 !! "h2" = Some "in/b.jpg"
  ∧ store r.2 = store Runs.one_row
  ∧ Csv.reader (store_bytes (store r.2)) = ([["h1"; "in/a.jpg"]], false)
  ∧ csv_buffer r.2 = Csv.row_bytes ["h2"; "in/b.jpg"].
Proof. intros r. split_and!; vm_compute; reflexivity. Qed.

(** when the write fails, [add_hash] raises with the mapping in the
    database and a part of the row on the disk *)
Example add_hash_disk_full :
  let s := (HashDatabase_init Runs.full_disk Runs.db_file
              (Demo.disk [] StoreAbsent)).2 in
  let r := add_hash Runs.full_disk Runs.digest "in/a.jpg" s in
  r.1 = Raises IOError
  ∧ database r.2 !! Runs.digest = Some "in/a.jpg"
  ∧ store r.2 = StoreBytes "45323"
  ∧ csv_buffer r.2 = "".
Proof. intros s r. split_and!; vm_compute; reflexivity. Qed.

Lemma load_database_keeps_last_row_witness :
  let s := Demo.disk []
             (StoreBytes (Csv.rows_bytes [["h"; "p1"]; ["k"; "q"];
                                          ["h"; "p2"]; ["m"; "r"]])) in
  let r := load_database Runs.db_file s in
  r.1 = Returns tt
  ∧ database r.2 !! "h" = Some "p2"
  ∧ log r.2 = [(DEBUG, MsgDatabaseLoaded 3)]
  ∧ (add_hash Demo.plat "h" "p3" r.2).1 = Returns tt
  ∧ database (add_hash Demo.plat "h" "p3" r.2).2 !! "h" = Some "p2".
Proof.
  intros s r.
  assert (two_fields ([] ++ ["h"; "p1"] :: [["k"; "q"]] ++ ["h"; "p2"] :: [["m"; "r"]]))
    as Htwo by (repeat constructor; simpl; lia).
  assert (Forall (λ row : list string, row !! 0 ≠ Some "h") [["m"; "r"]])
    as Hpost by (repeat constructor; discriminate).
  assert (Csv.reader (Csv.rows_bytes [["h"; "p1"]; ["k"; "q"];
                                      ["h"; "p2"]; ["m"; "r"]])
          = ([] ++ ["h"; "p1"] :: [["k"; "q"]] ++ ["h"; "p2"] :: [["m"; "r"]],
             false)) as Hread by (vm_compute; reflexivity).
  destruct (load_database_keeps_last_row Demo.plat Runs.db_file s _
              [] ["h"; "p1"] [["k"; "q"]] ["h"; "p2"] [["m"; "r"]] "h" "p2"
              eq_refl Hread Htwo eq_refl eq_refl eq_refl Hpost)
    as (Hr & Hdb & Hlog & Hadd).
  fold r in Hr, Hdb, Hlog, Hadd.
  split; [exact Hr|]. split; [exact Hdb|]. split; [exact Hlog|].
  rewrite (Hadd "p3"). split; [reflexivity|exact Hdb].
Defined.

(** [shutil.move] across devices, the copy fails: the process exits and
    the source is where it was *)
Lemma move_keeps_a_copy_witness :
  let out := "out/2020/01-January/05-Sunday" in
  let r := copy_file Runs.other_device Demo.move_args "in/a.JPG" out Runs.fresh in
  remove Demo.move_args = true
  ∧ files Runs.fresh !! "in/a.JPG" = Some (Runs.photo "E2020:01:05 10:00:00" 0)
  ∧ r.1 = Exits 0
  ∧ files r.2 !! "in/a.JPG" = Some (Runs.photo "E2020:01:05 10:00:00" 0)
  ∧ files r.2 !! (out +:+ "/a.jpg") = Some (Runs.photo "E20" 1700000000).
Proof.
  intros out r.
  assert (files Runs.fresh !! "in/a.JPG"
          = Some (Runs.photo "E2020:01:05 10:00:00" 0)) as Hsrc
    by reflexivity.
  assert (r.1 = Exits 0) as Hexit by (vm_compute; reflexivity).
  destruct (move_keeps_a_copy Runs.other_device Demo.move_args "in/a.JPG" out
              Runs.fresh _ eq_refl Hsrc) as (_ & Hkept & _).
  split; [reflexivity|]. split; [exact Hsrc|]. split; [exact Hexit|].
  split; [exact (Hkept 0%Z Hexit)|].
  vm_compute; reflexivity.
Defined.




Lemma load_database_absent_or_unusable_witness :
  let missing := Demo.disk [] StoreAbsent in
  let short := Demo.disk [("in/a.jpg", Runs.photo "Nabc" 0)]
                 (StoreBytes (Csv.rows_bytes [["h1"; "in/a.jpg"]; ["h2"]])) in
  let walk := [("in", [], ["a.jpg"])] in
  ((modify (with_database (λ _, ∅)) ;; load_database Runs.db_file)%M missing
   = (Returns tt,
      with_log (WARNING, MsgStoreMissing Runs.db_file)
        (with_database (λ _, ∅) missing))
   ∧ creatable Runs.db_file missing = true
   ∧ ∃ s', PhotoSort_init Demo.plat Demo.copy_args missing = (Returns tt, s')
           ∧ database s' = ∅ ∧ store s' = StoreBytes ""
           ∧ main Demo.plat Demo.copy_args walk missing
             = sort Demo.plat Demo.copy_args walk s')
  ∧ unusable (store short)
  ∧ ∃ s', main Demo.plat Demo.copy_args walk short = (Exits 0, s')
          ∧ files s' = files short ∧ dirs s' = dirs short.
Proof.
  intros missing short walk.
  destruct (load_database_absent_or_unusable Demo.plat Demo.copy_args walk missing)
    as (Habsent & _).
  destruct (Habsent eq_refl) as (Hload & Hgoes).
  destruct (Hgoes eq_refl) as (Hcreated & _).
  destruct (Hcreated eq_refl eq_refl)
    as (s1 & Hinit & Hempty & Hstore & _ & _ & Hmain).
  destruct (load_database_absent_or_unusable Demo.plat Demo.copy_args walk short)
    as (_ & Hunusable).
  assert (unusable (store short)) as Hbad.
  { right. apply Exists_cons. right. apply Exists_cons. left. simpl. lia. }
  destruct (Hunusable Hbad) as (s2 & Hexit & _ & Hfiles & Hdirs & _).
  split.
  - split; [exact (Hload Runs.db_file)|]. split; [reflexivity|].
    exists s1. exact (conj Hinit (conj Hempty (conj Hstore Hmain))).
  - split; [exact Hbad|]. exists s2. exact (conj Hexit (conj Hfiles Hdirs)).
Defined.

(** C6 as the specification states it fails: the csv file does not exist
    because the output directory does not exist; the warning is logged,
    then the file cannot be created and the run ends there, with an
    exception that nothing catches. *)
Lemma missing_directory_ends_run :
  let r := main Demo.plat Demo.copy_args [("in", [], ["a.jpg"])]
             Runs.no_output in
  store Runs.no_output = StoreAbsent
  ∧ isdir "in" Runs.no_output = true
  ∧ isdir "out" Runs.no_output = false
  ∧ r.1 = Raises IOError ∧ exit_status r.1 = 1%Z
  ∧ log r.2 = [(WARNING, MsgStoreMissing Runs.db_file)]
  ∧ files r.2 = files Runs.no_output ∧ dirs r.2 = dirs Runs.no_output
  ∧ store r.2 = StoreAbsent.
Proof. intros r. split_and!; vm_compute; reflexivity. Qed.



Lemma destination_of_date_witness :
  let morning := Demo.gmtime 1578218400 in
  let night := {| tm_year := 2020; tm_mon := 1; tm_mday := 5; tm_hour := 23;
                  tm_min := 59; tm_sec := 59; tm_wday := 6 |} in
  let next := Demo.gmtime 1578304800 in
  Calendar.wellformed morning ∧ Calendar.wellformed night
  ∧ Calendar.wellformed next
  ∧ output_directory_of Demo.plat Demo.copy_args morning
    = "out/2020/01-January/05-Sunday"
  ∧ output_directory_of Demo.plat Demo.copy_args morning
    = output_directory_of Demo.plat Demo.copy_args night
  ∧ output_directory_of Demo.plat Demo.copy_args morning
    ≠ output_directory_of Demo.plat Demo.copy_args next
  ∧ output_file_of "in/trip/IMG_1.JPG" "out/2020/01-January/05-Sunday"
    = "out/2020/01-January/05-Sunday/IMG_1.jpg".
Proof.
  intros morning night next.
  assert (Calendar.wellformed morning) as Hm
    by (repeat split; vm_compute; lia).
  assert (Calendar.wellformed night) as Hn
    by (repeat split; vm_compute; lia).
  assert (Calendar.wellformed next) as Hx
    by (repeat split; vm_compute; lia).
  destruct (destination_of_date Demo.plat Demo.copy_args)
    as (Hform & Hname & Hdate).
  split; [exact Hm|]. split; [exact Hn|]. split; [exact Hx|].
  split; [reflexivity|].
  split; [exact (proj1 (Hdate morning night Hm Hn) eq_refl)|].
  split; [|reflexivity].
  intros Hsame. apply (Hdate morning next Hm Hx) in Hsame.
  vm_compute in Hsame. discriminate Hsame.
Defined.

(** C5 as the specification states it fails: [add_hash] has returned,
    the row is in the buffer of the file object, the process is killed; the
    next run loads a csv file without the row and takes the digest as
    new. *)
Lemma add_hash_lost_by_crash :
  let s0 := (HashDatabase_init Demo.plat Runs.db_file (Demo.disk [] StoreAbsent)).2 in
  let r1 := add_hash Demo.plat Runs.digest "in/a.jpg" s0 in
  let r2 := HashDatabase_init Demo.plat Runs.db_file (boot (crash r1.2)) in
  database s0 !! Runs.digest = None
  ∧ r1.1 = Returns tt
  ∧ database r1.2 !! Runs.digest = Some "in/a.jpg"
  ∧ csv_buffer r1.2 = Csv.row_bytes [Runs.digest; "in/a.jpg"]
  ∧ store r1.2 = StoreBytes ""
  ∧ r2.1 = Returns tt
  ∧ database r2.2 = ∅
  ∧ (exist Runs.digest r2.2).1 = Returns false.
Proof. intros s0 r1 r2. split_and!; vm_compute; reflexivity. Qed.

(** with a buffer of 32 bytes the C library writes the first 32 bytes of
    the row out, which are not the whole digest: after a kill the csv
    file ends with a row of one field, and the next run exits on it *)
Example add_hash_torn_by_crash :
  let s0 := (HashDatabase_init Runs.small_buffer Runs.db_file
               (Demo.disk [] StoreAbsent)).2 in
  let r1 := add_hash Runs.small_buffer Runs.digest "in/a.jpg" s0 in
  let r2 := HashDatabase_init Runs.small_buffer Runs.db_file (boot (crash r1.2)) in
  r1.1 = Returns tt
  ∧ store r1.2 = StoreBytes "45323032303a30313a30352031303a30"
  ∧ Csv.reader (store_bytes (store r1.2))
    = ([["45323032303a30313a30352031303a30"]], false)
  ∧ r2.1 = Exits 0
  ∧ log r2.2 = [(ERROR, MsgStoreReadError Runs.db_file);
                (DEBUG, MsgException IndexError)].
Proof. intros s0 r1 r2. split_and!; vm_compute; reflexivity. Qed.

(** a row appended to a csv file whose last line has no end is read as
    the rest of that line: the reader finds as many rows as before, and
    the next run does not find the digest *)
Example row_glued_to_unterminated_line :
  let s0 := (HashDatabase_init Demo.plat Runs.db_file
               (Demo.disk [] (StoreBytes "h1,in/a.jpg"))).2 in
  let r1 := add_hash Demo.plat "h2" "in/b.jpg" s0 in
  let r2 := HashDatabase_init Demo.plat Runs.db_file
              (boot (interpreter_exit Demo.plat r1.2)) in
  database r1.2 = {[ "h1" := "in/a.jpg"; "h2" := "in/b.jpg" ]}
  ∧ written s0 = [["h1"; "in/a.jpg"]]
  ∧ written r1.2 = [["h1"; "in/a.jpgh2"; "in/b.jpg"]]
  ∧ Csv.reader (store_bytes (store (interpreter_exit Demo.plat r1.2)))
    = ([["h1"; "in/a.jpgh2"; "in/b.jpg"]], false)
  ∧ r2.1 = Returns tt
  ∧ database r2.2 = {[ "h1" := "in/a.jpgh2" ]}.
Proof. intros s0 r1 r2. split_and!; vm_compute; reflexivity. Qed.

Lemma add_hash_on_disk_after_exit_witness :
  let r1 := add_hash Demo.plat "h2" "in/b.jpg" Runs.one_row in
  let r2 := HashDatabase_init Demo.plat Runs.db_file
              (boot (interpreter_exit Demo.plat r1.2)) in
  store Runs.one_row = StoreBytes (Csv.row_bytes ["h1"; "in/a.jpg"])
  ∧ database Runs.one_row !! "h2" = None
  ∧ database r1.2 !! "h2" = Some "in/b.jpg"
  ∧ r1.1 = Returns tt
  ∧ store (boot (crash r1.2)) = store Runs.one_row
  ∧ store (boot (interpreter_exit Demo.plat r1.2))
    = StoreBytes (Csv.rows_bytes [["h1"; "in/a.jpg"]; ["h2"; "in/b.jpg"]])
  ∧ r2.1 = Returns tt
  ∧ exist "h2" r2.2 = (Returns true, r2.2).
Proof.
  intros r1 r2.
  assert (store Runs.one_row = StoreBytes (Csv.row_bytes ["h1"; "in/a.jpg"]))
    as Hst by reflexivity.
  destruct (add_hash_on_disk_after_exit Demo.plat "h2" "in/b.jpg" Runs.one_row
              _ Hst eq_refl) as (Hdb & Hreturned).
  assert (r1.1 = Returns tt) as Hr1 by (vm_compute; reflexivity).
  destruct (Hreturned Hr1) as (_ & _ & Hcrash & Hexit).
  assert (closes Demo.plat r1.2) as Hok by (right; reflexivity).
  destruct (Hexit Hok) as (Hdisk & Hnext).
  assert (Csv.complete (stream Runs.one_row)) as Hc
    by (split; vm_compute; reflexivity).
  assert (two_fields (written Runs.one_row)) as Htwo.
  { assert (written Runs.one_row = [["h1"; "in/a.jpg"]]) as ->
      by (vm_compute; reflexivity).
    repeat constructor; simpl; lia. }
  destruct (Hnext Hc Htwo eq_refl eq_refl eq_refl Runs.db_file)
    as (Hr2 & Hexist).
  split; [exact Hst|]. split; [reflexivity|]. split; [exact Hdb|].
  split; [exact Hr1|]. split; [exact (Hcrash eq_refl)|].
  split; [exact Hdisk|]. exact (conj Hr2 Hexist).
Defined.

Lemma get_exif_date_raises_witness :
  let r := main Demo.plat Demo.copy_args [("in", [], ["broken.jpg"; "a.JPG"])]
             (Demo.disk [("in/a.JPG", Runs.photo "E2020:01:05 10:00:00" 0);
                         ("in/broken.jpg", Runs.photo "not an image" 0)]
                        StoreAbsent) in
  getexif Demo.plat "not an image" = GetexifRaises IOError
  ∧ get_exif_date Demo.plat "in/broken.jpg" Runs.fresh = (Raises IOError, Runs.fresh)
  ∧ sort_files Demo.plat Demo.copy_args "in" ["broken.jpg"; "a.JPG"] 0 Runs.fresh
    = (Raises IOError, Runs.fresh)
  ∧ r.1 = Raises IOError ∧ exit_status r.1 = 1%Z
  ∧ files r.2 !! "out/2020/01-January/05-Sunday/a.jpg" = None.
Proof.
  intros r.
  destruct (get_exif_date_raises Demo.plat Demo.copy_args "in" "broken.jpg" 0
              Runs.fresh (Runs.photo "not an image" 0) IOError
              eq_refl eq_refl eq_refl eq_refl)
    as (Hdate & _ & Hrun).
  split; [reflexivity|]. split; [exact Hdate|].
  split; [exact (Hrun ["a.JPG"])|].
  split_and!; vm_compute; reflexivity.
Defined.

(** * More of the program *)

(** ** The database and its csv file during a run *)

Lemma ledger_same_refl s : ledger_same s s.
Proof. by repeat split. Qed.

Lemma ledger_same_trans s1 s2 s3 :
  ledger_same s1 s2 → ledger_same s2 s3 → ledger_same s1 s3.
Proof. intros (? & ? & ?) (? & ? & ?). repeat split; congruence. Qed.

Lemma only_logged_ledger_same s s' : only_logged s s' → ledger_same s s'.
Proof. intros (_ & _ & ? & ? & ?). by repeat split. Qed.

Lemma ledger_same_stream s s' : ledger_same s s' → stream s' = stream s.
Proof. intros (_ & Hst & Hbuf). unfold stream. by rewrite Hst, Hbuf. Qed.

Section Steps.

Variable P : platform.

(** what one turn of the loop does to the hash database: nothing, or one
    call of [add_hash] on a digest that the database does not have, after
    which [count] is incremented, unless the write has failed *)
Lemma sort_file_shape a root file count s :
  let r := sort_file P a root file count s in
  (ledger_same s r.2
   ∧ (r.1 = Returns count ∨ (∃ n, r.1 = Exits n) ∨ ∃ e, r.1 = Raises e))
  ∨ (∃ f sc o,
       files s !! Path.join root file = Some f
       ∧ database s !! sha1_hexdigest P (content f) = None
       ∧ ledger_same s sc
       ∧ add_hash P (sha1_hexdigest P (content f)) (Path.join root file) sc
         = (o, r.2)
       ∧ (o = Returns tt ∧ r.1 = Returns (S count)
          ∨ o = Raises IOError ∧ r.1 = Raises IOError)).
Proof.
  simpl. destruct (sort_file P a root file count s) as [o s'] eqn:Hrun.
  simpl.
  destruct (not_jpeg file) eqn:Hjpg.
  { rewrite sort_file_ignored in Hrun by done. simplify_eq.
    left. split; [|by left]. by repeat split. }
  destruct (files s !! Path.join root file) as [f|] eqn:Hf.
  2:{ left. revert Hrun. unfold sort_file, get_file_hash. run.
      intros [= <- <-]. split; [apply ledger_same_refl|].
      right. right. by exists IOError. }
  destruct (database s !! sha1_hexdigest P (content f)) as [p|] eqn:Hdb.
  { rewrite (sort_file_duplicate _ _ _ _ _ _ f) in Hrun
      by (rewrite ?Hdb; eauto).
    simplify_eq. left. split; [|by left]. by repeat split. }
  rewrite (sort_file_new _ _ _ _ _ _ f) in Hrun by done.
  pose proof (get_exif_date_only_logs P (Path.join root file) s) as Hdate.
  apply only_logged_ledger_same in Hdate.
  unfold bind at 1 in Hrun.
  destruct (get_exif_date P (Path.join root file) s) as [[date|n|e] sd];
    simpl in Hdate.
  2:{ simplify_eq. left. split; [done|]. right. left. by exists n. }
  2:{ simplify_eq. left. split; [done|]. right. right. by exists e. }
  unfold bind at 1 in Hrun. unfold logging at 1 in Hrun.
  unfold modify at 1 in Hrun. unfold bind at 1 in Hrun.
  pose proof (copy_file_ledger P a (Path.join root file)
                (output_directory_of P a date)
                (with_log (DEBUG, MsgCopying file (dir_struct P date)) sd))
    as Hcopy.
  destruct (copy_file P a _ _ _) as [[[]|n|e] sc]; simpl in Hcopy.
  - right. exists f, sc.
    unfold bind, ret in Hrun.
    destruct (add_hash_outcome P (sha1_hexdigest P (content f))
                (Path.join root file) sc) as [Hret|Hret];
      destruct (add_hash P _ _ sc) as [o' sa]; simpl in Hret; subst o';
      simplify_eq.
    + exists (Returns tt). split_and!; try done.
      * by apply (ledger_same_trans _ sd).
      * by left.
    + exists (Raises IOError). split_and!; try done.
      * by apply (ledger_same_trans _ sd).
      * by right.
  - unfold ret in Hrun. simplify_eq.
    left. split; [by apply (ledger_same_trans _ sd)|]. by left.
  - simplify_eq.
    left. split; [by apply (ledger_same_trans _ sd)|]. right. left. by exists n.
  - simplify_eq.
    left. split; [by apply (ledger_same_trans _ sd)|]. right. right. by exists e.
Qed.

(** a property of the state that every turn of the loop keeps, whatever
    its outcome, is kept by the whole walk *)
Lemma sort_walk_keeps (R : state → state → Prop) a :
  (∀ s, R s s) →
  (∀ s1 s2 s3, R s1 s2 → R s2 s3 → R s1 s3) →
  (∀ root file count s, R s (sort_file P a root file count s).2) →
  ∀ walk count s, R s (sort_walk P a walk count s).2.
Proof.
  intros Hrefl Htrans Hstep.
  assert (∀ root names count s, R s (sort_files P a root names count s).2)
    as Hfiles.
  { intros root names. induction names as [|file rest IH]; intros count s.
    - apply Hrefl.
    - simpl. unfold bind.
      pose proof (Hstep root file count s) as H1.
      destruct (sort_file P a root file count s) as [[c|n|e] s1];
        simpl in *; [|done|done].
      eapply Htrans; [exact H1|apply IH]. }
  intros walk. induction walk as [|[[root ds] names] rest IH];
    intros count s.
  - apply Hrefl.
  - simpl. unfold bind.
    pose proof (Hfiles root names count s) as H1.
    destruct (sort_files P a root names count s) as [[c|n|e] s1];
      simpl in *; [|done|done].
    eapply Htrans; [exact H1|apply IH].
Qed.

(** the same for a relation between [count] and the state before and
    after, along the turns that return, for the files that [Q] holds of *)
Lemma sort_walk_returns_on (Q : string → string → Prop)
    (R : nat → state → nat → state → Prop) a :
  (∀ c s, R c s c s) →
  (∀ c1 s1 c2 s2 c3 s3, R c1 s1 c2 s2 → R c2 s2 c3 s3 → R c1 s1 c3 s3) →
  (∀ root file c s c' s',
     Q root file →
     sort_file P a root file c s = (Returns c', s') → R c s c' s') →
  ∀ walk c s c' s',
    Forall (λ entry : walk_entry, Forall (Q entry.1.1) entry.2) walk →
    sort_walk P a walk c s = (Returns c', s') → R c s c' s'.
Proof.
  intros Hrefl Htrans Hstep.
  assert (∀ root names c s c' s',
            Forall (Q root) names →
            sort_files P a root names c s = (Returns c', s') → R c s c' s')
    as Hfiles.
  { intros root names. induction names as [|file rest IH];
      intros c s c' s' Hall Hrun.
    - simpl in Hrun. unfold ret in Hrun. simplify_eq. apply Hrefl.
    - inversion Hall as [|? ? Hfile Hrest]; subst.
      simpl in Hrun. unfold bind in Hrun.
      destruct (sort_file P a root file c s) as [[c1|n|e] s1] eqn:H1;
        [|done|done].
      eapply Htrans; [by apply (Hstep root file)|by apply IH]. }
  intros walk. induction walk as [|[[root ds] names] rest IH];
    intros c s c' s' Hall Hrun.
  - simpl in Hrun. unfold ret in Hrun. simplify_eq. apply Hrefl.
  - inversion Hall as [|? ? Hentry Hrest]; subst. simpl in Hentry.
    simpl in Hrun. unfold bind in Hrun.
    destruct (sort_files P a root names c s) as [[c1|n|e] s1] eqn:H1;
      [|done|done].
    eapply Htrans; [by apply (Hfiles root names)|by apply IH].
Qed.

Lemma sort_walk_returns (R : nat → state → nat → state → Prop) a :
  (∀ c s, R c s c s) →
  (∀ c1 s1 c2 s2 c3 s3, R c1 s1 c2 s2 → R c2 s2 c3 s3 → R c1 s1 c3 s3) →
  (∀ root file c s c' s',
     sort_file P a root file c s = (Returns c', s') → R c s c' s') →
  ∀ walk c s c' s',
    sort_walk P a walk c s = (Returns c', s') → R c s c' s'.
Proof.
  intros Hrefl Htrans Hstep walk c s c' s'.
  apply (sort_walk_returns_on (λ _ _, True) R a); [done|done| |].
  - intros root file c0 s0 c0' s0' _. apply Hstep.
  - apply Forall_forall. intros entry _. by apply Forall_forall.
Qed.

(** a property that every turn keeps unless it ends the walk in a way
    that [E] describes, for the files that [Q] holds of *)
Lemma sort_walk_keeps_on (Q : string → string → Prop) (I : state → Prop)
    (E : outcome nat → Prop) a :
  (∀ root file count s,
     Q root file → I s →
     let r := sort_file P a root file count s in
     I r.2 ∨ E r.1 ∧ ∀ c, r.1 ≠ Returns c) →
  ∀ walk count s,
    Forall (λ entry : walk_entry, Forall (Q entry.1.1) entry.2) walk →
    I s →
    let r := sort_walk P a walk count s in
    I r.2 ∨ E r.1 ∧ ∀ c, r.1 ≠ Returns c.
Proof.
  intros Hstep.
  assert (∀ root names count s,
            Forall (Q root) names → I s →
            let r := sort_files P a root names count s in
            I r.2 ∨ E r.1 ∧ ∀ c, r.1 ≠ Returns c) as Hfiles.
  { intros root names. induction names as [|file rest IH];
      intros count s Hall Hs; simpl.
    - by left.
    - inversion Hall as [|? ? Hfile Hrest]; subst.
      unfold bind.
      pose proof (Hstep root file count s Hfile Hs) as H1. simpl in H1.
      destruct (sort_file P a root file count s) as [[c|n|e] s1];
        simpl in *; [|done..].
      destruct H1 as [H1|[_ H1]]; [|by destruct (H1 c)].
      exact (IH c s1 Hrest H1). }
  intros walk. induction walk as [|[[root ds] names] rest IH];
    intros count s Hall Hs; simpl.
  - by left.
  - inversion Hall as [|? ? Hentry Hrest]; subst. simpl in Hentry.
    unfold bind.
    pose proof (Hfiles root names count s Hentry Hs) as H1. simpl in H1.
    destruct (sort_files P a root names count s) as [[c|n|e] s1];
      simpl in *; [|done..].
    destruct H1 as [H1|[_ H1]]; [|by destruct (H1 c)].
    exact (IH c s1 Hrest H1).
Qed.

Lemma in_sync_ledger_same s s' : ledger_same s s' → in_sync s → in_sync s'.
Proof.
  intros Hsame ((bytes & Hst) & Hc & Htwo & Hsync).
  pose proof (ledger_same_stream s s' Hsame) as Hstream.
  destruct Hsame as (Hdb & Hst' & Hbuf).
  unfold in_sync, store_open, written in *.
  rewrite Hstream, Hdb, Hst'. split; [by exists bytes|done].
Qed.

(** [add_hash] keeps the database and the csv file in step, unless the
    write fails *)
Lemma in_sync_add_hash hash file_name s :
  Csv.plain hash = true → Csv.plain file_name = true →
  in_sync s →
  let r := add_hash P hash file_name s in
  (r.1 = Returns tt ∧ in_sync r.2)
  ∨ (r.1 = Raises IOError ∧ write_failed P).
Proof.
  intros Hh Hp Hsync. simpl.
  destruct (database s !! hash) as [old|] eqn:Hdb.
  - rewrite add_hash_present by (rewrite Hdb; eauto).
    left. split; [done|].
    revert Hsync. apply in_sync_ledger_same. by repeat split.
  - rewrite add_hash_absent by done.
    destruct Hsync as ((bytes & Hst) & Hc & Htwo & Hsync).
    set (s0 := with_database <[hash := file_name]> s).
    assert (store s0 = StoreBytes bytes) as Hst0 by done.
    destruct (writerow_frame P [hash; file_name] s0)
      as ([Hr|Hr] & _ & _ & Hdb' & _).
    + left. split; [done|].
      destruct (writerow_returns P [hash; file_name] s0 bytes Hst0 Hr)
        as (Hs & _ & Hstream).
      change (stream s0) with (stream s) in Hstream.
      destruct (CsvFacts.reader_append_row (stream s) hash file_name Hc Hh Hp)
        as (Hc' & Hread).
      unfold in_sync, written. rewrite Hstream, Hread. simpl.
      split_and!.
      * by eexists.
      * done.
      * apply Forall_app. split; [done|].
        apply Forall_cons. split; [simpl; lia|done].
      * rewrite Hdb'. simpl. rewrite Hsync. by rewrite rows_into_app.
    + right. split; [done|].
      destruct (writerow_raises P [hash; file_name] s0 bytes Hst0)
        as (_ & (n & Hn & _) & _); [by rewrite Hr|].
      eexists _, _. by rewrite Hn.
Qed.

Lemma in_sync_sort_file a root file count s :
  Csv.plain (Path.join root file) = true →
  in_sync s →
  let r := sort_file P a root file count s in
  in_sync r.2 ∨ (r.1 = Raises IOError ∧ write_failed P).
Proof.
  intros Hp Hsync. simpl.
  destruct (sort_file_shape a root file count s)
    as [(Hsame & _)|(f & sc & o & _ & _ & Hsame & Hadd & Hout)].
  - left. by apply (in_sync_ledger_same s).
  - destruct (in_sync_add_hash (sha1_hexdigest P (content f))
                (Path.join root file) sc) as [(_ & Hs)|(Hr & Hw)].
    + apply sha1_hexdigest_plain.
    + done.
    + by apply (in_sync_ledger_same s).
    + left. by rewrite Hadd in Hs.
    + right. split; [|done].
      rewrite Hadd in Hr. simpl in Hr. subst o.
      by destruct Hout as [[? _]|[_ ?]].
Qed.

(** the walk keeps them in step, however it ends, unless it ends by the
    [IOError] of a write that has failed *)
Lemma in_sync_sort_walk a walk count s :
  plain_walk walk →
  in_sync s →
  let r := sort_walk P a walk count s in
  in_sync r.2 ∨ (r.1 = Raises IOError ∧ write_failed P).
Proof.
  intros Hwalk Hsync. simpl.
  destruct (sort_walk_keeps_on
              (λ root file, Csv.plain (Path.join root file) = true)
              in_sync
              (λ o, o = Raises IOError ∧ write_failed P)
              a) with (walk := walk) (count := count) (s := s)
    as [H|[H _]]; auto.
  intros root file c s1 Hp Hs. simpl.
  destruct (in_sync_sort_file a root file c s1 Hp Hs) as [H|[H Hw]];
    [by left|right].
  split; [done|]. intros c'. by rewrite H.
Qed.

End Steps.

Lemma rows_into_first_field db rows h :
  two_fields rows →
  is_Some (rows_into db rows !! h)
  ↔ is_Some (db !! h) ∨ Exists (λ row : list string, row !! 0 = Some h) rows.
Proof.
  revert db. induction rows as [|row rest IH]; intros db Htwo; simpl.
  - split; [by left|]. intros [?|Hex]; [done|]. by apply Exists_nil in Hex.
  - inversion Htwo as [|? ? Hrow Hrest]; subst.
    destruct row as [|k [|v more]]; simpl in Hrow; try lia.
    rewrite IH by done. rewrite Exists_cons. simpl.
    destruct (decide (k = h)) as [->|Hne].
    + rewrite lookup_insert_eq. split; [|intros _; left; eauto].
      intros _. right. by left.
    + rewrite lookup_insert_ne by done. split.
      * intros [?|?]; [by left|right; by right].
      * intros [?|[?|?]]; [by left|congruence|by right].
Qed.

Lemma rows_into_take2 db rows :
  rows_into db (take 2 <$> rows) = rows_into db rows.
Proof.
  revert db. induction rows as [|row rest IH]; intros db; [done|].
  simpl. rewrite <- IH. by destruct row as [|k [|v more]].
Qed.

Section LedgerRuns.

Variable P : platform.

Lemma HashDatabase_init_opened filename s s0 :
  HashDatabase_init P filename s = (Returns tt, s0) →
  open_append_fails P = false.
Proof.
  unfold HashDatabase_init, open_append.
  destruct (open_append_fails P); [|done].
  unfold bind at 1. unfold modify at 1. unfold bind at 1.
  destruct (load_database filename _) as [[[]|n|e] s1]; discriminate.
Qed.

(** a csv file that [HashDatabase.__init__] has loaded can be loaded *)
Lemma HashDatabase_init_usable filename s s0 bytes :
  HashDatabase_init P filename s = (Returns tt, s0) →
  store s = StoreBytes bytes →
  (Csv.reader bytes).2 = false ∧ two_fields (Csv.reader bytes).1.
Proof.
  intros Hinit Hst.
  assert (¬ unusable (store s)) as Hok.
  { intros Hbad.
    destruct (HashDatabase_init_unusable P filename s Hbad)
      as (s' & ex & Hs' & _).
    congruence. }
  rewrite Hst in Hok. simpl in Hok. split.
  - destruct (Csv.reader bytes).2; [|done]. destruct Hok. by left.
  - destruct (Forall_Exists_dec (λ row : list string, 2 ≤ length row)
                (λ row : list string, length row < 2)
                (λ row, le_lt_dec 2 (length row)) (Csv.reader bytes).1)
      as [?|Hshort]; [done|].
    destruct Hok. by right.
Qed.

(** when [HashDatabase.__init__] returns, the database is what the rows
    of the csv file give; they are in step from then on if the file ends
    where a row ends *)
Lemma HashDatabase_init_in_sync filename s s0 :
  HashDatabase_init P filename s = (Returns tt, s0) →
  Csv.complete (store_bytes (store s)) →
  in_sync s0.
Proof.
  intros Hinit Hc.
  pose proof (HashDatabase_init_opened filename s s0 Hinit) as Hopen.
  destruct (store s) as [| |bytes] eqn:Hst.
  - revert Hinit.
    unfold HashDatabase_init, load_database, open_append. run.
    destruct (creatable filename _); run; [|discriminate].
    intros [= <-].
    split; [by eexists|]. by split_and!; [split|constructor|].
  - destruct (HashDatabase_init_unusable P filename s) as (s' & ex & Hs' & _);
      [by rewrite Hst|congruence].
  - destruct (HashDatabase_init_usable filename s s0 bytes Hinit Hst)
      as (Hgood & Htwo).
    assert (Csv.reader bytes = ((Csv.reader bytes).1, false)) as Hread
      by (rewrite <- Hgood; by destruct (Csv.reader bytes)).
    rewrite (HashDatabase_init_loads P filename bytes _ s Hst Hread Htwo Hopen)
      in Hinit.
    injection Hinit as <-. simpl in Hc.
    unfold in_sync, written, stream. simpl. rewrite append_nil_r.
    split; [by eexists|done].
Qed.

Lemma PhotoSort_init_returns a s s0 :
  PhotoSort_init P a s = (Returns tt, s0) →
  isdir (input a) s = true
  ∧ ∃ sh, HashDatabase_init P (Path.join (output a) ".database.csv") s
          = (Returns tt, sh)
          ∧ s0 = with_log (INFO, MsgDeleteAfterCopy (remove a))
                   (with_log (INFO, MsgSorting (input a) (output a)
                                      (Path.join (output a) ".database.csv"))
                      sh).
Proof.
  unfold PhotoSort_init. run.
  destruct (isdir (input a) s); run; [|discriminate].
  destruct (HashDatabase_init P _ s) as [[[]|n|e] sh]; try discriminate.
  intros [= <-]. split; [done|]. by exists sh.
Qed.

Lemma PhotoSort_init_in_sync a s s0 :
  PhotoSort_init P a s = (Returns tt, s0) →
  Csv.complete (store_bytes (store s)) →
  in_sync s0 ∧ open_append_fails P = false.
Proof.
  intros Hinit Hc.
  destruct (PhotoSort_init_returns a s s0 Hinit) as (Hdir & sh & Hsh & ->).
  split; [|by apply HashDatabase_init_opened in Hsh].
  apply HashDatabase_init_in_sync in Hsh; [|done].
  revert Hsh. apply in_sync_ledger_same. by repeat split.
Qed.


Lemma HashDatabase_init_after_exit filename s :
  in_sync s → closes P s →
  open_append_fails P = false →
  HashDatabase_init P filename (boot (interpreter_exit P s))
  = (Returns tt,
     with_store (StoreBytes (stream s)) ""
       (with_log (DEBUG, MsgDatabaseLoaded (size (database s)))
          (with_database (λ _, database s) (boot (interpreter_exit P s))))).
Proof.
  intros (Hopen & Hc & Htwo & Hsync) Hok Hfail.
  destruct (interpreter_exit_store P s Hopen Hok) as (Hst & _).
  assert (Csv.reader (stream s) = (written s, false)) as Hread
    by (unfold written; by rewrite (CsvFacts.reader_complete _ Hc)).
  rewrite (HashDatabase_init_loads P filename (stream s) (written s)
             (boot (interpreter_exit P s)) Hst Hread Htwo Hfail).
  by rewrite <- Hsync.
Qed.

(** X2: what a run has written to the csv file, the next run loads.  On
    a disk that takes every write, when the csv file ended where a row
    ends (or did not exist) and the paths of the walk are names that a
    file system can hold: however the walk ends, once the interpreter has
    closed the csv file a new process starts with the database that the
    old one had in memory, every byte on the disk, an empty buffer, and a
    csv file that ends where a row ends. *)
Theorem restart_restores_database a s s0 walk count filename :
  PhotoSort_init P a s = (Returns tt, s0) →
  Csv.complete (store_bytes (store s)) →
  plain_walk walk →
  never_full P →
  let r := sort_walk P a walk count s0 in
  let r2 := HashDatabase_init P filename (boot (interpreter_exit P r.2)) in
  r2.1 = Returns tt
  ∧ database r2.2 = database r.2
  ∧ store r2.2 = StoreBytes (stream r.2)
  ∧ csv_buffer r2.2 = ""
  ∧ Csv.complete (stream r2.2)
  ∧ files r2.2 = files r.2 ∧ dirs r2.2 = dirs r.2.
Proof.
  intros Hinit Hc Hwalk Hfull. simpl.
  destruct (PhotoSort_init_in_sync a s s0 Hinit Hc) as (Hsync0 & Hopen).
  destruct (in_sync_sort_walk P a walk count s0 Hwalk Hsync0)
    as [Hsync|(_ & held & block & Hfail)].
  2:{ rewrite Hfull in Hfail. by destruct Hfail. }
  rewrite (HashDatabase_init_after_exit filename _ Hsync); [|by right|done].
  simpl. split_and!; try done.
  unfold stream. simpl. rewrite append_nil_r. apply Hsync.
Qed.

(** what a turn that returns has written *)
Lemma sort_file_written a root file c s c' s' :
  store_open s →
  sort_file P a root file c s = (Returns c', s') →
  store_open s'
  ∧ (c' = c ∧ stream s' = stream s ∧ database s' = database s
     ∨ c' = S c
       ∧ (∃ f, stream s'
               = stream s +:+ Csv.row_bytes [sha1_hexdigest P (content f);
                                             Path.join root file])
       ∧ size (database s') = S (size (database s))).
Proof.
  intros [bytes Hrows] Hstep.
  destruct (sort_file_shape P a root file c s)
    as [(Hsame & Hout)|(f & sc & o & Hf & Hnone & Hsame & Hadd & Hout)];
    rewrite Hstep in *; simpl in *.
  - destruct Hout as [[= ->]|[[n [=]]|[e [=]]]].
    pose proof (ledger_same_stream _ _ Hsame) as Hstream.
    destruct Hsame as (Hdb & Hst & Hbuf).
    split; [exists bytes; congruence|]. by left.
  - destruct Hout as [[-> [= ->]]|[_ [=]]].
    pose proof (ledger_same_stream _ _ Hsame) as Hstream.
    destruct Hsame as (Hdb & Hst & Hbuf).
    assert (database sc !! sha1_hexdigest P (content f) = None) as Hsc
      by (by rewrite Hdb).
    pose proof (add_hash_recorded P _ (Path.join root file) sc Hsc) as Hdb'.
    rewrite Hadd in Hdb'. simpl in Hdb'.
    rewrite add_hash_absent in Hadd by done.
    set (s0 := with_database _ sc) in Hadd.
    assert (store s0 = StoreBytes bytes) as Hst0 by (simpl; congruence).
    destruct (writerow_returns P [sha1_hexdigest P (content f);
                                   Path.join root file] s0 bytes Hst0)
      as (Hs & _ & Hw); [by rewrite Hadd|].
    rewrite Hadd in Hs, Hw. simpl in Hs, Hw.
    split; [by eexists|]. right. split; [done|]. split.
    + exists f. rewrite Hw. change (stream s0) with (stream sc).
      by rewrite Hstream.
    + rewrite Hdb'. rewrite map_size_insert_None by done. by rewrite Hdb.
Qed.

(** X3: the value of [count] is the number of rows that the walk has
    written to the csv file, and the number of digests that it has added
    to the database: the bytes written are those of that many rows, and the
    reader finds that many more rows when the file ended where a row ends
    and the paths of the walk are names that a file system can hold. *)
Theorem count_is_rows_written a walk count s count' s' :
  store_open s →
  sort_walk P a walk count s = (Returns count', s') →
  count ≤ count'
  ∧ (∃ rows, length rows = count' - count
             ∧ stream s' = stream s +:+ Csv.rows_bytes rows)
  ∧ (Csv.complete (stream s) → plain_walk walk →
     length (written s') = length (written s) + (count' - count))
  ∧ size (database s') = size (database s) + (count' - count).
Proof.
  intros Hopen Hrun.
  assert (count ≤ count'
          ∧ (∃ rows, length rows = count' - count
                     ∧ stream s' = stream s +:+ Csv.rows_bytes rows)
          ∧ size (database s') = size (database s) + (count' - count))
    as (Hle & Hrows & Hsize).
  { assert (store_open s' ∧ count ≤ count'
            ∧ (∃ rows, length rows = count' - count
                       ∧ stream s' = stream s +:+ Csv.rows_bytes rows)
            ∧ size (database s') = size (database s) + (count' - count))
      as (_ & ?); [|done].
    revert Hopen.
    apply (sort_walk_returns P
             (λ c1 s1 c2 s2,
                store_open s1 →
                store_open s2 ∧ c1 ≤ c2
                ∧ (∃ rows, length rows = c2 - c1
                           ∧ stream s2 = stream s1 +:+ Csv.rows_bytes rows)
                ∧ size (database s2) = size (database s1) + (c2 - c1))
             a) with (walk := walk); [| | |done].
    - intros c s1 Ho. split_and!; [done|lia| |lia].
      exists []. split; [simpl; lia|]. simpl. by rewrite append_nil_r.
    - intros c1 s1 c2 s2 c3 s3 H12 H23 Ho.
      destruct (H12 Ho) as (Ho2 & ? & (rows2 & Hl2 & Hw2) & Hd2).
      destruct (H23 Ho2) as (Ho3 & ? & (rows3 & Hl3 & Hw3) & Hd3).
      split_and!; [done|lia| |lia].
      exists (rows2 ++ rows3). split; [rewrite length_app; lia|].
      rewrite Hw3, Hw2, append_assoc. f_equal.
      clear. induction rows2 as [|row rows2 IH]; [done|].
      simpl. by rewrite append_assoc, IH.
    - intros root file c s1 c2 s2 Hstep Ho.
      destruct (sort_file_written a root file c s1 c2 s2 Ho Hstep)
        as (Ho2 & [(-> & Hw & Hd)|(-> & (f & Hw) & Hd)]).
      + split_and!; [done|lia| |rewrite Hd; lia].
        exists []. split; [simpl; lia|]. simpl. by rewrite append_nil_r.
      + split_and!; [done|lia| |lia].
        exists [[sha1_hexdigest P (content f); Path.join root file]].
        split; [simpl; lia|]. simpl. by rewrite append_nil_r. }
  split_and!; [done|done| |done].
  intros Hc Hwalk.
  assert (store_open s' ∧ count ≤ count'
          ∧ ∃ rows, length rows = count' - count ∧ Forall plain_row rows
                    ∧ stream s' = stream s +:+ Csv.rows_bytes rows)
    as (_ & _ & rows & Hlen & Hplain & Hw).
  { revert Hopen.
    apply (sort_walk_returns_on P
             (λ root file, Csv.plain (Path.join root file) = true)
             (λ c1 s1 c2 s2,
                store_open s1 →
                store_open s2 ∧ c1 ≤ c2
                ∧ ∃ rows, length rows = c2 - c1 ∧ Forall plain_row rows
                          ∧ stream s2 = stream s1 +:+ Csv.rows_bytes rows)
             a) with (walk := walk); [| | |done|done].
    - intros c s1 Ho. split_and!; [done|lia|].
      exists []. split_and!; [simpl; lia|done|]. simpl. by rewrite append_nil_r.
    - intros c1 s1 c2 s2 c3 s3 H12 H23 Ho.
      destruct (H12 Ho) as (Ho2 & ? & (rows2 & Hl2 & Hp2 & Hw2)).
      destruct (H23 Ho2) as (Ho3 & ? & (rows3 & Hl3 & Hp3 & Hw3)).
      split_and!; [done|lia|].
      exists (rows2 ++ rows3).
      split_and!; [rewrite length_app; lia|by apply Forall_app|].
      rewrite Hw3, Hw2, append_assoc. f_equal.
      clear. induction rows2 as [|row rows2 IH]; [done|].
      simpl. by rewrite append_assoc, IH.
    - intros root file c s1 c2 s2 Hp Hstep Ho.
      destruct (sort_file_written a root file c s1 c2 s2 Ho Hstep)
        as (Ho2 & [(-> & Hw & Hd)|(-> & (f & Hw) & Hd)]).
      + split_and!; [done|lia|].
        exists []. split_and!; [simpl; lia|done|]. simpl.
        by rewrite append_nil_r.
      + split_and!; [done|lia|].
        exists [[sha1_hexdigest P (content f); Path.join root file]].
        split_and!; [simpl; lia| |simpl; by rewrite append_nil_r].
        apply Forall_cons. split; [|done].
        eexists _, _. split; [done|]. split; [|done].
        apply sha1_hexdigest_plain. }
  destruct (reader_append_rows (stream s) rows Hc Hplain) as (_ & Hread).
  unfold written. rewrite Hw, Hread. simpl. rewrite length_app. lia.
Qed.

Lemma ledger_keeps_add_hash hash file_name s :
  ledger_keeps s (add_hash P hash file_name s).2.
Proof.
  intros h p Hh.
  destruct (database s !! hash) as [old|] eqn:Hdb.
  - by rewrite add_hash_present by (rewrite Hdb; eauto).
  - rewrite add_hash_recorded by done.
    rewrite lookup_insert_ne; [done|congruence].
Qed.

(** X4: [sort] never replaces and never removes what the database holds
    for a digest: whatever the walk does and however it ends, a digest
    that had a path has the same path afterwards. *)
Theorem recorded_path_is_kept a walk count s h p :
  database s !! h = Some p →
  database (sort_walk P a walk count s).2 !! h = Some p.
Proof.
  revert h p.
  apply (sort_walk_keeps P ledger_keeps a).
  - by intros s1 h p.
  - intros s1 s2 s3 H12 H23 h p Hh. by apply H23, H12.
  - intros root file c s1.
    destruct (sort_file_shape P a root file c s1)
      as [((Hdb & _) & _)|(f & sc & o & _ & _ & (Hdb & _) & Hadd & _)].
    + intros h p. by rewrite Hdb.
    + intros h p Hh.
      pose proof (ledger_keeps_add_hash (sha1_hexdigest P (content f))
                    (Path.join root file) sc h p) as Hkeep.
      rewrite Hadd in Hkeep. apply Hkeep. by rewrite Hdb.
Qed.

(** X5: [exist] after [HashDatabase.__init__] on a csv file that loads: a
    digest is in the database exactly when some row of the file starts
    with it. *)
Theorem exist_after_load filename bytes rows s h :
  store s = StoreBytes bytes →
  Csv.reader bytes = (rows, false) →
  two_fields rows →
  open_append_fails P = false →
  let r := HashDatabase_init P filename s in
  r.1 = Returns tt
  ∧ (exist h r.2).1
    = Returns (bool_decide (Exists (λ row : list string, row !! 0 = Some h) rows)).
Proof.
  intros Hst Hread Htwo Hopen. simpl.
  rewrite (HashDatabase_init_loads P filename bytes rows s Hst Hread Htwo Hopen).
  split; [done|]. unfold exist. run. f_equal.
  apply bool_decide_ext.
  rewrite (rows_into_first_field ∅ rows h Htwo).
  rewrite lookup_empty. split; [intros [[? [=]]|?]; done|by right].
Qed.

End LedgerRuns.

(** X6: a row of the csv file with more than two fields is loaded as its
    first two fields: the loop of [load_database] gives the same outcome
    and the same database on the rows and on the rows cut after their
    second field. *)
Theorem load_rows_ignores_extra_fields rows s :
  (load_rows rows s).1 = (load_rows (take 2 <$> rows) s).1
  ∧ database (load_rows rows s).2
    = database (load_rows (take 2 <$> rows) s).2.
Proof.
  revert s. induction rows as [|row rest IH]; intros s; [done|].
  destruct row as [|k [|v more]]; simpl; [done|done|].
  unfold index. run. apply IH.
Qed.

(** ** What [copy_file] and [sort] do to the files *)

Lemma disk_grows_refl s : disk_grows s s.
Proof. by split. Qed.

Lemma disk_grows_trans s1 s2 s3 :
  disk_grows s1 s2 → disk_grows s2 s3 → disk_grows s1 s3.
Proof. intros [? ?] [? ?]. split; by etrans. Qed.

Lemma path_exists_false p s :
  path_exists p s = false → files s !! p = None ∧ p ∉ dirs s.
Proof.
  unfold path_exists. intros [Hf Hd]%orb_false_iff.
  apply bool_decide_eq_false in Hf. apply bool_decide_eq_false in Hd.
  split; [|done]. destruct (files s !! p); [|done]. destruct Hf. eauto.
Qed.

Lemma path_exists_grows p s s' :
  disk_grows s s' → path_exists p s = true → path_exists p s' = true.
Proof.
  intros [Hf Hd]. unfold path_exists.
  intros [H|H]%orb_true_iff; apply orb_true_iff.
  - left. apply bool_decide_eq_true in H as [f Hp].
    apply bool_decide_eq_true. exists f. by eapply lookup_weaken.
  - right. apply bool_decide_eq_true in H. apply bool_decide_eq_true.
    by apply Hd.
Qed.

Section Disk.

Variable P : platform.

(** X7: whatever its outcome, [copy_file] changes no file but its source
    and its destination, removes no directory, and touches nothing at all
    when the destination exists; without [--remove] every file stays as it
    was, the source among them. *)
Theorem copy_file_touches_only a input_file output_directory s :
  let r := copy_file P a input_file output_directory s in
  let output_file := output_file_of input_file output_directory in
  (∀ p, p ≠ input_file → p ≠ output_file → files r.2 !! p = files s !! p)
  ∧ (path_exists output_file s = true →
     files r.2 = files s ∧ dirs r.2 = dirs s)
  ∧ (remove a = false → files s ⊆ files r.2)
  ∧ dirs s ⊆ dirs r.2.
Proof.
  simpl.
  destruct (path_exists (output_file_of input_file output_directory) s)
    eqn:Hex.
  { rewrite copy_file_conflict by done. simpl. by split_and!. }
  destruct (path_exists_false _ _ Hex) as (Hdst & _).
  unfold copy_file, copy_file_try, makedirs, shutil_move, shutil_copy,
    shutil_copy2, os_rename, os_unlink, copyfile.
  run.
  repeat (case_match; run; simplify_eq); split_and!; try done;
    try set_solver;
    try (intros p Hp1 Hp2;
         rewrite ?lookup_delete_ne, ?lookup_insert_ne, ?lookup_delete_ne
           by done; done);
    try (intros _; by apply insert_subseteq).
Qed.

Lemma copy_file_disk_grows a input_file output_directory s :
  remove a = false →
  disk_grows s (copy_file P a input_file output_directory s).2.
Proof.
  intros Hrm.
  destruct (path_exists (output_file_of input_file output_directory) s)
    eqn:Hex.
  { rewrite copy_file_conflict by done. by split. }
  destruct (path_exists_false _ _ Hex) as (Hdst & _).
  unfold copy_file, copy_file_try, makedirs, shutil_move, shutil_copy,
    shutil_copy2, os_rename, os_unlink, copyfile.
  run.
  repeat (case_match; run; simplify_eq); split; simpl; try done;
    try set_solver; by apply insert_subseteq.
Qed.

Lemma copy_file_false a input_file output_directory s s' :
  copy_file P a input_file output_directory s = (Returns false, s') →
  path_exists (output_file_of input_file output_directory) s = true.
Proof.
  destruct (path_exists (output_file_of input_file output_directory) s)
    eqn:Hex; [done|].
  unfold copy_file, copy_file_try, makedirs, shutil_move, shutil_copy,
    shutil_copy2, os_rename, os_unlink, copyfile.
  run. repeat (case_match; run; simplify_eq); discriminate.
Qed.

Lemma shutil_copy_returns src dst s s' :
  shutil_copy P src dst s = (Returns tt, s') →
  ∃ f, files s !! src = Some f
       ∧ s' = with_files <[dst := {| content := content f;
                                     st_mtime := now P |}]> s.
Proof.
  unfold shutil_copy, copyfile. run.
  destruct (files s !! src) as [f|]; run; [|discriminate].
  destruct (copy_fails P src dst); run; [discriminate|].
  intros [= <-]. by exists f.
Qed.

Lemma shutil_move_returns src dst s s' :
  shutil_move P src dst s = (Returns tt, s') →
  ∃ f, files s !! src = Some f
       ∧ (s' = with_files (λ fs, <[dst := f]> (delete src fs)) s
          ∨ s' = with_files (delete src)
                   (with_files <[dst := {| content := content f;
                                           st_mtime := st_mtime f |}]> s)).
Proof.
  unfold shutil_move, shutil_copy2, os_rename, os_unlink, copyfile. run.
  destruct (files s !! src) as [f|] eqn:Hsrc; run; [|discriminate].
  destruct (rename_fails P src dst); run.
  - destruct (copy_fails P src dst); run; [discriminate|].
    destruct (decide (dst = src)) as [->|Hne].
    + rewrite lookup_insert_eq.
      destruct (unlink_fails P src); run; [discriminate|].
      intros [= <-]. exists f. split; [done|]. by right.
    + rewrite lookup_insert_ne by done. rewrite Hsrc.
      destruct (unlink_fails P src); run; [discriminate|].
      intros [= <-]. exists f. split; [done|]. by right.
  - intros [= <-]. exists f. split; [done|]. by left.
Qed.

(** lines 132-133: the directory is there afterwards, unless the path
    was taken *)
Lemma ensure_directory_returns output_directory s s' :
  (if path_exists output_directory s then ret tt
   else makedirs P output_directory) s = (Returns tt, s') →
  files s' = files s ∧ log s' = log s
  ∧ (path_exists output_directory s = true
     ∨ isdir output_directory s' = true).
Proof.
  destruct (path_exists output_directory s) eqn:Hex.
  - unfold ret. intros [= <-]. split_and!; auto.
  - unfold makedirs. destruct (makedirs_fails P output_directory);
      [discriminate|].
    unfold modify. intros [= <-]. split_and!; try done.
    right. unfold isdir. apply bool_decide_eq_true. simpl. set_solver.
Qed.

Lemma copy_file_try_true a input_file output_directory s s' :
  copy_file_try P a input_file output_directory s = (Returns true, s') →
  let output_file := output_file_of input_file output_directory in
  path_exists output_file s = false
  ∧ (∃ f, files s !! input_file = Some f
          ∧ content <$> files s' !! output_file = Some (content f)
          ∧ files s' !! input_file = if remove a then None else Some f)
  ∧ (path_exists output_directory s = true
     ∨ isdir output_directory s' = true)
  ∧ log s' = log s.
Proof.
  simpl. unfold copy_file_try.
  unfold bind at 1. unfold get at 1.
  destruct (path_exists (output_file_of input_file output_directory) s)
    eqn:Hex.
  { unfold_M. discriminate. }
  destruct (path_exists_false _ _ Hex) as (Hdst & _).
  unfold bind at 1.
  destruct ((if path_exists output_directory s then ret tt
             else makedirs P output_directory) s)
    as [[[]|n|e] s0] eqn:Hdir; [|discriminate..].
  apply ensure_directory_returns in Hdir as (Hf0 & Hl0 & Hex0).
  unfold bind at 1.
  destruct ((if remove a then shutil_move P input_file
                                (output_file_of input_file output_directory)
             else shutil_copy P input_file
                    (output_file_of input_file output_directory)) s0)
    as [[[]|n|e] s1] eqn:Hput; [|discriminate..].
  unfold ret. intros [= <-]. split; [done|].
  destruct (remove a).
  - apply shutil_move_returns in Hput as (f & Hsrc & Hs1).
    rewrite Hf0 in Hsrc.
    assert (output_file_of input_file output_directory ≠ input_file)
      as Hne by congruence.
    split; [exists f; split; [done|]|].
    + destruct Hs1 as [-> | ->]; simpl; simplify_map_eq; done.
    + destruct Hs1 as [-> | ->]; simpl; done.
  - apply shutil_copy_returns in Hput as (f & Hsrc & ->).
    rewrite Hf0 in Hsrc.
    assert (output_file_of input_file output_directory ≠ input_file)
      as Hne by congruence.
    split; [exists f; split; [done|]|done].
    simpl. rewrite Hf0. by simplify_map_eq.
Qed.

(** X8: when [copy_file] returns True, the destination did not exist
    before and now holds the bytes of the source; its directory has been
    created unless that path existed; the source is gone with [--remove]
    and is as it was without; nothing has been logged. *)
Theorem copy_file_true_has_placed a input_file output_directory s s' :
  copy_file P a input_file output_directory s = (Returns true, s') →
  let output_file := output_file_of input_file output_directory in
  path_exists output_file s = false
  ∧ (∃ f, files s !! input_file = Some f
          ∧ content <$> files s' !! output_file = Some (content f)
          ∧ files s' !! input_file = if remove a then None else Some f)
  ∧ (path_exists output_directory s = true
     ∨ isdir output_directory s' = true)
  ∧ log s' = log s.
Proof.
  intros Hrun. apply copy_file_try_true.
  revert Hrun. unfold copy_file, try_except.
  destruct (copy_file_try P a input_file output_directory s)
    as [[b|n|e] s1]; [done|done|].
  unfold_M. discriminate.
Qed.

End Disk.

Lemma only_logged_disk_grows s s' : only_logged s s' → disk_grows s s'.
Proof. intros (Hf & Hd & _). split; by rewrite ?Hf, ?Hd. Qed.

Lemma only_logged_ledger_grows s s' : only_logged s s' → ledger_grows s s'.
Proof. intros (_ & _ & _ & Hdb & _). by apply ledger_grows_same. Qed.

Lemma only_logged_trans s1 s2 s3 :
  only_logged s1 s2 → only_logged s2 s3 → only_logged s1 s3.
Proof.
  intros (? & ? & ? & ? & ?) (? & ? & ? & ? & ?).
  repeat split; congruence.
Qed.

Section Reruns.

Variable P : platform.

(** what one turn of the loop does to the files and the directories:
    nothing, or what one call of [copy_file] does *)
Lemma sort_file_disk a root file count s :
  let s' := (sort_file P a root file count s).2 in
  (files s' = files s ∧ dirs s' = dirs s)
  ∨ ∃ date sd,
      files sd = files s ∧ dirs sd = dirs s
      ∧ files s' = files (copy_file P a (Path.join root file)
                            (output_directory_of P a date) sd).2
      ∧ dirs s' = dirs (copy_file P a (Path.join root file)
                          (output_directory_of P a date) sd).2.
Proof.
  simpl. destruct (sort_file P a root file count s) as [o s'] eqn:Hrun.
  simpl.
  destruct (not_jpeg file) eqn:Hjpg.
  { rewrite sort_file_ignored in Hrun by done. simplify_eq. by left. }
  destruct (files s !! Path.join root file) as [f|] eqn:Hf.
  2:{ left. revert Hrun. unfold sort_file, get_file_hash. run.
      by intros [= <- <-]. }
  destruct (database s !! sha1_hexdigest P (content f)) as [p|] eqn:Hdb.
  { rewrite (sort_file_duplicate _ _ _ _ _ _ f) in Hrun
      by (rewrite ?Hdb; eauto).
    simplify_eq. by left. }
  rewrite (sort_file_new _ _ _ _ _ _ f) in Hrun by done.
  pose proof (get_exif_date_only_logs P (Path.join root file) s)
    as (Hfd & Hdd & _).
  unfold bind at 1 in Hrun.
  destruct (get_exif_date P (Path.join root file) s) as [[date|n|e] sd];
    simpl in Hfd, Hdd.
  2:{ simplify_eq. by left. }
  2:{ simplify_eq. by left. }
  unfold bind at 1 in Hrun. unfold logging at 1 in Hrun.
  unfold modify at 1 in Hrun. unfold bind at 1 in Hrun.
  right. exists date, (with_log (DEBUG, MsgCopying file (dir_struct P date)) sd).
  split; [done|]. split; [done|].
  destruct (copy_file P a _ _ _) as [[[]|n|e] sc]; simpl.
  - unfold bind, ret in Hrun.
    destruct (add_hash_only_ledger P (sha1_hexdigest P (content f))
                (Path.join root file) sc) as (Hfa & Hda).
    destruct (add_hash P _ _ sc) as [[[]|n|e] sa]; simpl in *;
      by simplify_eq.
  - unfold ret in Hrun. by simplify_eq.
  - by simplify_eq.
  - by simplify_eq.
Qed.

Lemma sort_file_disk_grows a root file count s :
  remove a = false →
  disk_grows s (sort_file P a root file count s).2.
Proof.
  intros Hrm.
  destruct (sort_file_disk a root file count s)
    as [(Hf & Hd)|(date & sd & Hf & Hd & Hf' & Hd')].
  - split; by rewrite ?Hf, ?Hd.
  - destruct (copy_file_disk_grows P a (Path.join root file)
                (output_directory_of P a date) sd Hrm) as (Hfg & Hdg).
    split; rewrite ?Hf', ?Hd'; by rewrite <- ?Hf, <- ?Hd.
Qed.

(** X9: without [--remove], [sort] removes nothing and overwrites
    nothing: however the walk ends, every file that was on the disk is
    still there with the same bytes and the same date, and every
    directory is still there. *)
Theorem copy_mode_keeps_every_file a walk count s :
  remove a = false →
  let s' := (sort_walk P a walk count s).2 in
  (∀ p f, files s !! p = Some f → files s' !! p = Some f)
  ∧ (∀ d, d ∈ dirs s → d ∈ dirs s').
Proof.
  intros Hrm. simpl.
  assert (disk_grows s (sort_walk P a walk count s).2) as (Hf & Hd).
  { apply (sort_walk_keeps P disk_grows a).
    - apply disk_grows_refl.
    - apply disk_grows_trans.
    - intros. by apply sort_file_disk_grows. }
  split.
  - intros p f Hp. by eapply lookup_weaken.
  - intros d. apply Hd.
Qed.

(** the date that [get_exif_date] resolves only depends on the file *)
Lemma get_exif_date_outcome filename f s s' :
  files s !! filename = Some f →
  files s' !! filename = Some f →
  (get_exif_date P filename s).1 = (get_exif_date P filename s').1.
Proof.
  intros Hf Hf'.
  rewrite (get_exif_date_cases P filename f s Hf).
  rewrite (get_exif_date_cases P filename f s' Hf').
  unfold fallback. by repeat case_match.
Qed.

Lemma settled_grows a s s' root file :
  disk_grows s s' → ledger_grows s s' →
  settled P a s root file → settled P a s' root file.
Proof.
  intros Hdisk Hledger [Hjpg|(f & Hf & Hwhy)]; [by left|].
  right. exists f.
  assert (files s' !! Path.join root file = Some f) as Hf'
    by (destruct Hdisk; by eapply lookup_weaken).
  split; [done|].
  destruct Hwhy as [Hdb|(date & Hdate & Hex)].
  - left. by apply Hledger.
  - right. exists date. split.
    + by rewrite <- (get_exif_date_outcome _ f s s').
    + by apply (path_exists_grows _ s).
Qed.

(** a settled file is skipped, and the skip only logs *)
Lemma settled_sort_file a root file count s :
  settled P a s root file →
  ∃ s', sort_file P a root file count s = (Returns count, s')
        ∧ only_logged s s'.
Proof.
  intros [Hjpg|(f & Hf & Hwhy)].
  { rewrite sort_file_ignored by done. eexists. split; [done|].
    apply only_logged_with_log. }
  destruct (not_jpeg file) eqn:Hjpg.
  { rewrite sort_file_ignored by done. eexists. split; [done|].
    apply only_logged_with_log. }
  destruct (database s !! sha1_hexdigest P (content f)) as [p|] eqn:Hdb.
  { rewrite (sort_file_duplicate _ _ _ _ _ _ f) by (rewrite ?Hdb; eauto).
    eexists. split; [done|]. apply only_logged_with_log. }
  destruct Hwhy as [[? ?]|(date & Hdate & Hex)]; [congruence|].
  rewrite (sort_file_new _ _ _ _ _ _ f) by done.
  pose proof (get_exif_date_only_logs P (Path.join root file) s) as Hlog.
  unfold bind at 1.
  destruct (get_exif_date P (Path.join root file) s) as [o sd].
  simpl in Hdate, Hlog. subst o.
  unfold bind at 1. unfold logging at 1. unfold modify at 1.
  unfold bind at 1. rewrite copy_file_conflict.
  - unfold ret. eexists. split; [done|].
    eapply only_logged_trans; [exact Hlog|].
    eapply only_logged_trans; apply only_logged_with_log.
  - rewrite <- Hex. apply path_exists_only_logged.
    eapply only_logged_trans; [exact Hlog|apply only_logged_with_log].
Qed.

(** a turn that leaves [count] as it is met a settled file, and only
    logged *)
Lemma sort_file_same_count a root file count s s' :
  sort_file P a root file count s = (Returns count, s') →
  settled P a s root file ∧ only_logged s s'.
Proof.
  intros Hrun.
  destruct (not_jpeg file) eqn:Hjpg.
  { rewrite sort_file_ignored in Hrun by done. simplify_eq.
    split; [by left|apply only_logged_with_log]. }
  destruct (files s !! Path.join root file) as [f|] eqn:Hf.
  2:{ revert Hrun. unfold sort_file, get_file_hash. run. discriminate. }
  destruct (database s !! sha1_hexdigest P (content f)) as [p|] eqn:Hdb.
  { rewrite (sort_file_duplicate _ _ _ _ _ _ f) in Hrun
      by (rewrite ?Hdb; eauto).
    simplify_eq. split; [|apply only_logged_with_log].
    right. exists f. split; [done|]. left. rewrite Hdb. eauto. }
  rewrite (sort_file_new _ _ _ _ _ _ f) in Hrun by done.
  pose proof (get_exif_date_only_logs P (Path.join root file) s) as Hlog.
  unfold bind at 1 in Hrun.
  destruct (get_exif_date P (Path.join root file) s) as [[date|n|e] sd] eqn:Hdate;
    [|discriminate..].
  simpl in Hlog.
  unfold bind at 1 in Hrun. unfold logging at 1 in Hrun.
  unfold modify at 1 in Hrun. unfold bind at 1 in Hrun.
  destruct (copy_file P a _ _ _) as [[[]|n|e] sc] eqn:Hcopy;
    [| |discriminate..].
  - unfold bind, ret in Hrun.
    destruct (add_hash P _ _ sc) as [[[]|n|e] sa]; simplify_eq. lia.
  - unfold ret in Hrun. simplify_eq.
    pose proof (copy_file_false P _ _ _ _ _ Hcopy) as Hex.
    assert (only_logged s (with_log (DEBUG, MsgCopying file (dir_struct P date)) sd))
      as Hlog' by (eapply only_logged_trans;
                   [exact Hlog|apply only_logged_with_log]).
    rewrite copy_file_conflict in Hcopy by done. simplify_eq.
    split.
    + right. exists f. split; [done|]. right. exists date.
      rewrite Hdate. split; [done|].
      rewrite <- Hex. symmetry. by apply path_exists_only_logged.
    + eapply only_logged_trans; [exact Hlog'|apply only_logged_with_log].
Qed.

(** without [--remove], every file that a turn has dealt with is settled
    afterwards *)
Lemma sort_file_settles a root file count s count' s' :
  remove a = false →
  sort_file P a root file count s = (Returns count', s') →
  settled P a s' root file.
Proof.
  intros Hrm Hrun.
  pose proof (sort_file_disk_grows a root file count s Hrm) as Hdisk.
  pose proof (sort_file_ledger_grows P a root file count s) as Hledger.
  rewrite Hrun in Hdisk, Hledger. simpl in Hdisk, Hledger.
  destruct (sort_file_shape P a root file count s)
    as [(_ & Hout)|(f & sc & o & Hf & _ & _ & _ & Hout)]; rewrite Hrun in *.
  - simpl in Hout. destruct Hout as [[= ->]|[[n [=]]|[e [=]]]].
    destruct (sort_file_same_count a root file count s s' Hrun) as (Hs & _).
    by apply (settled_grows a s s').
  - simpl in Hout. destruct Hout as [[_ [= ->]]|[_ [=]]].
    destruct (sort_file_counted P a root file count s f s' Hf Hrun)
      as (Hdb & _).
    right. exists f. split.
    + destruct Hdisk. by eapply lookup_weaken.
    + left. rewrite Hdb. eauto.
Qed.

Lemma sort_files_settles a root names count s count' s' :
  remove a = false →
  sort_files P a root names count s = (Returns count', s') →
  Forall (settled P a s' root) names
  ∧ disk_grows s s' ∧ ledger_grows s s'.
Proof.
  intros Hrm. revert count s.
  induction names as [|file rest IH]; intros count s Hrun.
  - simpl in Hrun. unfold ret in Hrun. simplify_eq.
    split; [constructor|]. split; [apply disk_grows_refl|apply ledger_grows_refl].
  - simpl in Hrun. unfold bind in Hrun.
    destruct (sort_file P a root file count s) as [[c1|n|e] s1] eqn:H1;
      [|discriminate..].
    destruct (IH c1 s1 Hrun) as (Hrest & Hdisk & Hledger).
    pose proof (sort_file_disk_grows a root file count s Hrm) as Hdisk1.
    pose proof (sort_file_ledger_grows P a root file count s) as Hledger1.
    rewrite H1 in Hdisk1, Hledger1. simpl in Hdisk1, Hledger1.
    split; [|split].
    + apply Forall_cons. split; [|done].
      apply (settled_grows a s1 s'); [done..|].
      by apply (sort_file_settles a root file count s c1 s1).
    + by apply (disk_grows_trans s s1 s').
    + by apply (ledger_grows_trans s s1 s').
Qed.

Lemma all_settled_grows a s s' walk :
  disk_grows s s' → ledger_grows s s' →
  all_settled P a s walk → all_settled P a s' walk.
Proof.
  intros Hdisk Hledger Hall. unfold all_settled in *.
  eapply Forall_impl; [exact Hall|]. intros entry Hentry. simpl in *.
  eapply Forall_impl; [exact Hentry|].
  intros file. by apply settled_grows.
Qed.

Lemma sort_walk_settles a walk count s count' s' :
  remove a = false →
  sort_walk P a walk count s = (Returns count', s') →
  all_settled P a s' walk ∧ disk_grows s s' ∧ ledger_grows s s'.
Proof.
  intros Hrm. revert count s.
  induction walk as [|[[root ds] names] rest IH]; intros count s Hrun.
  - simpl in Hrun. unfold ret in Hrun. simplify_eq.
    split; [constructor|]. split; [apply disk_grows_refl|apply ledger_grows_refl].
  - simpl in Hrun. unfold bind in Hrun.
    destruct (sort_files P a root names count s) as [[c1|n|e] s1] eqn:H1;
      [|discriminate..].
    destruct (IH c1 s1 Hrun) as (Hrest & Hdisk & Hledger).
    destruct (sort_files_settles a root names count s c1 s1 Hrm H1)
      as (Hnames & Hdisk1 & Hledger1).
    split; [|split].
    + apply Forall_cons. split; [|done]. simpl.
      eapply Forall_impl; [exact Hnames|]. intros file.
      by apply settled_grows.
    + by apply (disk_grows_trans s s1 s').
    + by apply (ledger_grows_trans s s1 s').
Qed.

Lemma settled_sort_files a root names count s :
  Forall (settled P a s root) names →
  ∃ s', sort_files P a root names count s = (Returns count, s')
        ∧ only_logged s s'.
Proof.
  revert s. induction names as [|file rest IH]; intros s Hall.
  - exists s. split; [done|apply only_logged_refl].
  - inversion Hall as [|? ? Hfile Hrest]; subst.
    destruct (settled_sort_file a root file count s Hfile)
      as (s1 & H1 & Hlog1).
    destruct (IH s1) as (s' & Hrun & Hlog).
    { eapply Forall_impl; [exact Hrest|]. intros f.
      apply settled_grows;
        [by apply only_logged_disk_grows|by apply only_logged_ledger_grows]. }
    exists s'. split; [|by apply (only_logged_trans s s1 s')].
    simpl. by erewrite bind_returns.
Qed.

Lemma settled_sort_walk a walk count s :
  all_settled P a s walk →
  ∃ s', sort_walk P a walk count s = (Returns count, s')
        ∧ only_logged s s'.
Proof.
  revert s. induction walk as [|[[root ds] names] rest IH]; intros s Hall.
  - exists s. split; [done|apply only_logged_refl].
  - inversion Hall as [|? ? Hentry Hrest]; subst. simpl in Hentry.
    destruct (settled_sort_files a root names count s Hentry)
      as (s1 & H1 & Hlog1).
    destruct (IH s1) as (s' & Hrun & Hlog).
    { apply (all_settled_grows a s s1);
        [by apply only_logged_disk_grows
        |by apply only_logged_ledger_grows|done]. }
    exists s'. split; [|by apply (only_logged_trans s s1 s')].
    simpl. by erewrite bind_returns.
Qed.


End Reruns.

(** ** Running the program again *)

Section NextRun.

Variable P : platform.

Lemma load_database_disk file_name s :
  let s' := (load_database file_name s).2 in
  files s' = files s ∧ dirs s' = dirs s.
Proof.
  simpl. destruct (load_database file_name s) as [o s'] eqn:Hrun.
  simpl. revert Hrun.
  destruct (store s) as [| |bytes] eqn:Hst.
  - rewrite load_database_absent by done. by intros [= <- <-].
  - unfold load_database, read_store. run. by intros [= <- <-].
  - destruct (load_rows_frame (Csv.reader bytes).1 s) as (_ & Hf & Hd & _).
    unfold load_database, read_store. run.
    destruct (load_rows (Csv.reader bytes).1 s) as [[[]|n|e] s1]; simpl in *;
      [destruct (Csv.reader bytes).2|..]; run; by intros [= <- <-].
Qed.

Lemma HashDatabase_init_disk filename s :
  let s' := (HashDatabase_init P filename s).2 in
  files s' = files s ∧ dirs s' = dirs s.
Proof.
  simpl. destruct (HashDatabase_init P filename s) as [o s'] eqn:Hrun.
  simpl. revert Hrun. unfold HashDatabase_init.
  unfold bind at 1. unfold modify at 1. unfold bind at 1.
  destruct (load_database_disk filename (with_database (λ _, ∅) s))
    as (Hf & Hd).
  destruct (load_database filename _) as [[[]|n|e] s1]; simpl in *;
    [|by intros [= <- <-]..].
  unfold open_append. run.
  repeat (case_match; run); by intros [= <- <-].
Qed.

Lemma main_returns a walk s s1 :
  main P a walk s = (Returns tt, s1) →
  ∃ s0 count sw,
    PhotoSort_init P a s = (Returns tt, s0)
    ∧ sort_walk P a walk 0 s0 = (Returns count, sw)
    ∧ s1 = with_log (INFO, MsgSorted count) sw.
Proof.
  unfold main, sort. unfold bind at 1.
  destruct (PhotoSort_init P a s) as [[[]|n|e] s0]; [|discriminate..].
  unfold bind at 1.
  destruct (sort_walk P a walk 0 s0) as [[count|n|e] sw] eqn:Hwalk;
    [|discriminate..].
  unfold_M. simpl. intros [= <-]. by exists s0, count, sw.
Qed.

Lemma PhotoSort_init_disk a s s0 :
  PhotoSort_init P a s = (Returns tt, s0) →
  files s0 = files s ∧ dirs s0 = dirs s ∧ isdir (input a) s = true.
Proof.
  intros Hinit.
  destruct (PhotoSort_init_returns P a s s0 Hinit) as (Hdir & sh & Hsh & ->).
  destruct (HashDatabase_init_disk (Path.join (output a) ".database.csv") s)
    as (Hf & Hd).
  rewrite Hsh in Hf, Hd. simpl in Hf, Hd. by split_and!.
Qed.

(** X11: without [--remove], running the program again on the disk that
    a completed run leaves (same arguments, same walk) places nothing: the
    second run completes, reports 0 photos sorted, and the files, the
    directories, the database and the rows of the csv file are those that
    the first run left.  This holds when the csv file of the first run
    ended where a row ends (or did not exist), the paths of the walk are
    names that a file system can hold, and the write that closes the csv
    file succeeds. *)
Theorem rerun_places_nothing a walk s s1 :
  remove a = false →
  Csv.complete (store_bytes (store s)) →
  plain_walk walk →
  main P a walk s = (Returns tt, s1) →
  closes P s1 →
  ∃ s2, main P a walk (boot (interpreter_exit P s1)) = (Returns tt, s2)
        ∧ files s2 = files s1 ∧ dirs s2 = dirs s1
        ∧ database s2 = database s1
        ∧ written s2 = written s1
        ∧ store s2 = StoreBytes (stream s1)
        ∧ last (log s2) = Some (INFO, MsgSorted 0).
Proof.
  intros Hrm Hc Hplain Hmain Hok.
  destruct (main_returns a walk s s1 Hmain) as (s0 & c & sw & Hinit & Hwalk & ->).
  destruct (PhotoSort_init_in_sync P a s s0 Hinit Hc) as (Hsync0 & Hopen).
  destruct (PhotoSort_init_disk a s s0 Hinit) as (Hf0 & Hd0 & Hdir).
  assert (in_sync sw) as Hsyncw.
  { destruct (in_sync_sort_walk P a walk 0 s0 Hplain Hsync0) as [H|[H _]];
      rewrite Hwalk in H; [done|discriminate]. }
  destruct (sort_walk_settles P a walk 0 s0 c sw Hrm Hwalk)
    as (Hall & (Hfw & Hdw) & _).
  set (s1 := with_log (INFO, MsgSorted c) sw) in *.
  assert (in_sync s1) as Hsync1
    by (revert Hsyncw; apply in_sync_ledger_same; by repeat split).
  set (b := boot (interpreter_exit P s1)).
  set (db_file := Path.join (output a) ".database.csv").
  set (s20 := with_log (INFO, MsgDeleteAfterCopy (remove a))
                (with_log (INFO, MsgSorting (input a) (output a) db_file)
                   (with_store (StoreBytes (stream s1)) ""
                      (with_log (DEBUG, MsgDatabaseLoaded (size (database s1)))
                         (with_database (λ _, database s1) b))))).
  assert (PhotoSort_init P a b = (Returns tt, s20)) as Hinit2.
  { unfold PhotoSort_init. unfold bind at 1. unfold get at 1.
    assert (isdir (input a) b = true) as ->.
    { unfold isdir in *. apply bool_decide_eq_true in Hdir.
      apply bool_decide_eq_true. simpl. apply Hdw. by rewrite Hd0. }
    unfold bind at 1. unfold ret at 1. unfold bind at 1.
    fold db_file. unfold b.
    rewrite (HashDatabase_init_after_exit P db_file s1 Hsync1 Hok Hopen).
    by unfold_M. }
  assert (all_settled P a s20 walk) as Hall2.
  { apply (all_settled_grows P a sw s20); [| |done].
    - by split.
    - by apply ledger_grows_same. }
  destruct (settled_sort_walk P a walk 0 s20 Hall2)
    as (sw2 & Hwalk2 & Hf2 & Hd2 & Hs2 & Hdb2 & Hb2).
  exists (with_log (INFO, MsgSorted 0) sw2). split_and!.
  - unfold main, sort. erewrite bind_returns; [|exact Hinit2].
    erewrite bind_returns; [|exact Hwalk2]. done.
  - simpl. by rewrite Hf2.
  - simpl. by rewrite Hd2.
  - simpl. by rewrite Hdb2.
  - unfold written, stream. simpl. rewrite Hs2, Hb2. simpl.
    by rewrite append_nil_r.
  - simpl. by rewrite Hs2.
  - simpl. apply last_snoc.
Qed.

End NextRun.

(** ** The name of a placed file *)

Lemma rfind_no_char c s : Str.contains c s = false → Str.rfind c s = None.
Proof.
  induction s as [|a s IH]; simpl; [done|].
  intros [Ha Hs]%orb_false_iff. by rewrite IH, Ha.
Qed.

Lemma basename_plain file :
  Str.contains "/" file = false → Path.basename file = file.
Proof. intros H. unfold Path.basename. by rewrite rfind_no_char. Qed.

Lemma basename_after_sep pre file :
  Str.contains "/" file = false →
  Path.basename (pre +:+ String "/" file) = file.
Proof.
  intros Hfile. unfold Path.basename.
  assert (Str.rfind "/" (pre +:+ String "/" file) = Some (String.length pre)
          ∧ Str.drop (S (String.length pre)) (pre +:+ String "/" file) = file)
    as [-> Hdrop]; [|done].
  induction pre as [|a pre [IH1 IH2]].
  - rewrite append_nil. simpl. by rewrite rfind_no_char.
  - rewrite append_cons. simpl. by rewrite IH1.
Qed.

Lemma endswith_split c s :
  Str.endswith c s = true → ∃ pre, s = pre +:+ String c "".
Proof.
  induction s as [|a s IH]; simpl; [done|].
  destruct s as [|b s'].
  - intros ->%Ascii.eqb_eq. by exists "".
  - intros H. destruct (IH H) as [pre ->]. exists (String a pre).
    by rewrite append_cons.
Qed.

Lemma startswith_no_char c s :
  Str.contains c s = false → Str.startswith c s = false.
Proof. destruct s; simpl; [done|]. by intros [? _]%orb_false_iff. Qed.

(** [os.walk] gives names without a separator: the base name of the path
    that [sort] builds is the name *)
Lemma basename_join root file :
  Str.contains "/" file = false →
  Path.basename (Path.join root file) = file.
Proof.
  intros Hfile. unfold Path.join. rewrite startswith_no_char by done.
  destruct (String.eqb root "") eqn:Hroot; simpl.
  - apply String.eqb_eq in Hroot as ->. rewrite append_nil.
    by apply basename_plain.
  - destruct (Str.endswith "/" root) eqn:Hend.
    + destruct (endswith_split _ _ Hend) as [pre ->].
      rewrite append_assoc, append_cons, append_nil.
      by apply basename_after_sep.
    + rewrite append_cons, append_nil. by apply basename_after_sep.
Qed.

(** X12: a candidate of [sort] is placed under its own name with the
    extension in lower case, and that extension is [.jpg] or [.jpeg]:
    whatever the case of the extension in the input, the stem of the name
    is kept as it is. *)
Theorem placed_name_is_lowercased_jpeg root file output_directory :
  not_jpeg file = false →
  Str.contains "/" file = false →
  ∃ stem ext,
    Path.splitext file = (stem, ext)
    ∧ stem +:+ ext = file
    ∧ (Str.lower ext = ".jpg" ∨ Str.lower ext = ".jpeg")
    ∧ output_file_of (Path.join root file) output_directory
      = Path.join output_directory (stem +:+ Str.lower ext).
Proof.
  intros Hjpg Hfile. unfold output_file_of.
  rewrite basename_join by done.
  pose proof (splitext_append file) as Happ.
  unfold not_jpeg in Hjpg.
  destruct (Path.splitext file) as [stem ext]. simpl in *.
  exists stem, ext. split_and!; [done|done| |done].
  apply andb_false_iff in Hjpg as [H|H]; apply negb_false_iff in H;
    apply String.eqb_eq in H; auto.
Qed.

(** ** The Exif date *)

Section ExifDate.

Variable P : platform.

Lemma decode_tags_snoc items item :
  decode_tags P (items ++ [item])
  = <[match TAGS P item.1 with
      | Some name => inl name
      | None => inr item.1
      end := item.2]> (decode_tags P items).
Proof. unfold decode_tags. by rewrite foldl_app. Qed.

Lemma decode_tags_other items name :
  Forall (λ item : Z * exif_value, TAGS P item.1 ≠ Some name) items →
  decode_tags P items !! inl name = None.
Proof.
  induction items as [|item items IH] using rev_ind; intros Hall; [done|].
  apply Forall_app in Hall as [Hitems Hitem].
  inversion Hitem as [|? ? Hne _]; subst.
  rewrite decode_tags_snoc. destruct (TAGS P item.1) as [name'|].
  - rewrite lookup_insert_ne by congruence. by apply IH.
  - rewrite lookup_insert_ne by done. by apply IH.
Qed.

Lemma decode_tags_last pre tag value post name :
  TAGS P tag = Some name →
  Forall (λ item : Z * exif_value, TAGS P item.1 ≠ Some name) post →
  decode_tags P (pre ++ (tag, value) :: post) !! inl name = Some value.
Proof.
  intros Htag. induction post as [|item post IH] using rev_ind; intros Hall.
  - rewrite decode_tags_snoc. simpl. rewrite Htag. apply lookup_insert_eq.
  - apply Forall_app in Hall as [Hpost Hitem].
    inversion Hitem as [|? ? Hne _]; subst.
    replace (pre ++ (tag, value) :: post ++ [item])
      with ((pre ++ (tag, value) :: post) ++ [item])
      by (by rewrite <- app_assoc).
    rewrite decode_tags_snoc. destruct (TAGS P item.1) as [name'|].
    + rewrite lookup_insert_ne by congruence. by apply IH.
    + rewrite lookup_insert_ne by done. by apply IH.
Qed.

(** X13: the date of a photo is its Exif DateTimeOriginal when that is a
    string that [time.strptime] accepts: the last item with that tag
    decides, the other tags and the last-modified time of the file are not
    used, and nothing is logged or changed. *)
Theorem exif_original_date_wins filename f s pre tag v post t :
  files s !! filename = Some f →
  getexif P (content f) = GetexifDict (pre ++ (tag, ExifStr v) :: post) →
  TAGS P tag = Some "DateTimeOriginal" →
  Forall (λ item : Z * exif_value,
            TAGS P item.1 ≠ Some "DateTimeOriginal") post →
  strptime P v = Some t →
  get_exif_date P filename s = (Returns t, s).
Proof.
  intros Hf Hexif Htag Hpost Hparse.
  rewrite (get_exif_date_cases P filename f s Hf), Hexif.
  by rewrite (decode_tags_last pre tag (ExifStr v) post _ Htag Hpost), Hparse.
Qed.

(** X14: when the decoder returns, [get_exif_date] only logs.  Without
    Exif data, and with Exif data in which no tag is DateTimeOriginal
    (DateTime and DateTimeDigitized do not count), it falls back to the
    date of the last modification after a message at level INFO; with a
    DateTimeOriginal that is not a string or that [time.strptime] rejects,
    it does the same after a WARNING.  The fall-back returns that date
    when [time.localtime] accepts the time stamp; when it does not, the
    [ValueError] of line 119 leaves [get_exif_date], after the message. *)
Theorem exif_date_falls_back_to_mtime filename f s :
  files s !! filename = Some f →
  (∀ e, getexif P (content f) ≠ GetexifRaises e) →
  let r := get_exif_date P filename s in
  let falls_back (l : level) (m : message) :=
    r = match localtime P (st_mtime f) with
        | Some t => (Returns t, with_log (l, m) s)
        | None => (Raises ValueError, with_log (l, m) s)
        end in
  ((∃ t, r.1 = Returns t)
   ∨ r.1 = Raises ValueError ∧ localtime P (st_mtime f) = None)
  ∧ (is_Some (localtime P (st_mtime f)) → ∃ t, r.1 = Returns t)
  ∧ only_logged s r.2
  ∧ (getexif P (content f) = GetexifNone →
     falls_back INFO (MsgNoExif (Path.basename filename)))
  ∧ (∀ items,
       getexif P (content f) = GetexifDict items →
       Forall (λ item : Z * exif_value,
                 TAGS P item.1 ≠ Some "DateTimeOriginal") items →
       falls_back INFO (MsgNoDateInExif (Path.basename filename)))
  ∧ (∀ pre tag value post,
       getexif P (content f) = GetexifDict (pre ++ (tag, value) :: post) →
       TAGS P tag = Some "DateTimeOriginal" →
       Forall (λ item : Z * exif_value,
                 TAGS P item.1 ≠ Some "DateTimeOriginal") post →
       match value with
       | ExifStr v => strptime P v = None
       | ExifOther => True
       end →
       falls_back WARNING (MsgIncorrectDateInExif (Path.basename filename))).
Proof.
  intros Hf Hret. simpl.
  destruct (get_exif_date_fallback P filename f s Hf Hret)
    as (Hout & Hok & _).
  split_and!.
  - done.
  - done.
  - apply get_exif_date_only_logs.
  - intros Hnone. by rewrite (get_exif_date_cases P filename f s Hf), Hnone.
  - intros items Hexif Hall.
    rewrite (get_exif_date_cases P filename f s Hf), Hexif.
    by rewrite decode_tags_other.
  - intros pre tag value post Hexif Htag Hpost Hbad.
    rewrite (get_exif_date_cases P filename f s Hf), Hexif.
    rewrite (decode_tags_last pre tag value post _ Htag Hpost).
    destruct value as [v|]; [by rewrite Hbad|done].
Qed.

End ExifDate.

(** ** Files that are not photos, and an input that is not a directory *)

Section Ignored.

Variable P : platform.

(** X15: the files of a directory whose extension is not [.jpg] or
    [.jpeg] are never opened: [sort] goes through them, whether they can
    be read or not, with one DEBUG message each and no other effect. *)
Theorem other_files_are_ignored a root names count s :
  Forall (λ file, not_jpeg file = true) names →
  ∃ s', sort_files P a root names count s = (Returns count, s')
        ∧ only_logged s s'
        ∧ log s' = log s ++ ((λ file, (DEBUG, MsgIgnoring (Path.join root file)))
                               <$> names).
Proof.
  revert s. induction names as [|file rest IH]; intros s Hall.
  - exists s. split_and!; [done|apply only_logged_refl|].
    simpl. by rewrite app_nil_r.
  - inversion Hall as [|? ? Hfile Hrest]; subst.
    destruct (IH (with_log (DEBUG, MsgIgnoring (Path.join root file)) s) Hrest)
      as (s' & Hrun & Hlog & Hmsgs).
    exists s'. split_and!.
    + simpl. erewrite bind_returns; [exact Hrun|].
      by apply sort_file_ignored.
    + eapply only_logged_trans; [apply only_logged_with_log|exact Hlog].
    + rewrite Hmsgs. simpl. by rewrite <- app_assoc.
Qed.

(** X16: the input directory is checked before anything else: when it is
    not a directory the process exits with status 0 after one ERROR
    message, the csv file is neither read nor created, whatever its
    state. *)
Theorem input_is_checked_first a walk s :
  isdir (input a) s = false →
  main P a walk s
  = (Exits 0, with_log (ERROR, MsgInputNotDirectory (input a)) s).
Proof.
  intros Hdir. unfold main. erewrite bind_exits; [done|].
  unfold PhotoSort_init. by run.
Qed.

End Ignored.

(** ** Reading a file by blocks *)

Lemma take_length n s : String.length (Str.take n s) ≤ n.
Proof.
  revert s. induction n as [|n IH]; intros [|c s]; simpl; try lia.
  specialize (IH s). lia.
Qed.

Lemma take_empty n s : 0 < n → Str.take n s = "" → s = "".
Proof. destruct n; [lia|]. by destruct s. Qed.

Lemma drop_length n s :
  0 < n → s ≠ "" → String.length (Str.drop n s) < String.length s.
Proof.
  intros Hn Hs. destruct n as [|n]; [lia|]. destruct s as [|c s]; [done|].
  simpl. clear. revert s. induction n as [|n IH]; intros [|a s]; simpl;
    try lia.
  specialize (IH s). lia.
Qed.

Section HashLoop.

Variable hash_object : Type.
Variable sha1_new : hash_object.
Variable update : hash_object → string → hash_object.
Variable hexdigest : hash_object → string.

Lemma hash_loop_blocks fuel size rest hash :
  0 < size →
  String.length rest < fuel →
  hash_loop hash_object update fuel size rest hash
  = Some (foldl update hash (blocks_read fuel size rest))
  ∧ foldr String.append "" (blocks_read fuel size rest) = rest
  ∧ Forall (λ block, 0 < String.length block ≤ size)
      (blocks_read fuel size rest).
Proof.
  intros Hsize. revert rest hash.
  induction fuel as [|fuel IH]; intros rest hash Hfuel; [lia|].
  simpl. destruct (String.eqb (Str.take size rest) "") eqn:Hdata.
  - apply String.eqb_eq in Hdata. apply take_empty in Hdata; [|done].
    subst rest. by split_and!.
  - apply String.eqb_neq in Hdata.
    assert (rest ≠ "") as Hrest by (intros ->; by destruct size).
    pose proof (drop_length size rest Hsize Hrest) as Hless.
    destruct (IH (Str.drop size rest) (update hash (Str.take size rest)))
      as (Hloop & Hcat & Hall); [lia|].
    split_and!.
    + done.
    + simpl. rewrite Hcat. apply take_drop.
    + apply Forall_cons. split; [|done]. split; [|apply take_length].
      destruct (Str.take size rest); [done|simpl; lia].
Qed.

Lemma blocks_read_empty fuel size : blocks_read fuel size "" = [].
Proof. destruct fuel; [done|]. by destruct size. Qed.

Lemma foldl_update_stream hash blocks :
  (∀ h x y, update (update h x) y = update h (x +:+ y)) →
  blocks ≠ [] →
  foldl update hash blocks = update hash (foldr String.append "" blocks).
Proof.
  intros Hstream. revert hash.
  induction blocks as [|block rest IH]; intros hash Hne; [done|].
  simpl. destruct rest as [|block' rest'].
  - simpl. by rewrite append_nil_r.
  - rewrite IH by done. by rewrite Hstream.
Qed.

(** X17: the loop of [get_file_hash] ends, having given the hash object
    the bytes of the file, all of them, in order, in blocks of 1 to 65536
    bytes: an empty file gives the digest of the new hash object, without
    any [update]; and for a hash object whose [update] is streaming, a
    file that is not empty gives the digest of one [update] with all its
    bytes. *)
Theorem get_file_hash_reads_every_byte bytes :
  let blocks := blocks_read (S (String.length bytes)) block_size bytes in
  get_file_hash_loop hash_object sha1_new update hexdigest
    (S (String.length bytes)) bytes
  = Some (hexdigest (foldl update sha1_new blocks))
  ∧ foldr String.append "" blocks = bytes
  ∧ Forall (λ block, 0 < String.length block ≤ 2 ^ 16) blocks
  ∧ (bytes = "" → blocks = [])
  ∧ ((∀ h x y, update (update h x) y = update h (x +:+ y)) →
     bytes ≠ "" →
     get_file_hash_loop hash_object sha1_new update hexdigest
       (S (String.length bytes)) bytes
     = Some (hexdigest (update sha1_new bytes))).
Proof.
  cbv zeta.
  assert (0 < block_size) as Hsize.
  { unfold block_size. pose proof (Nat.pow_nonzero 2 16). lia. }
  destruct (hash_loop_blocks (S (String.length bytes)) block_size bytes
              sha1_new Hsize ltac:(lia)) as (Hloop & Hcat & Hall).
  unfold get_file_hash_loop. rewrite Hloop.
  split_and!; [done|done|exact Hall| |].
  - intros ->. apply blocks_read_empty.
  - intros Hstream Hne. do 2 f_equal.
    rewrite foldl_update_stream; [by rewrite Hcat|done|].
    intros Hnil. rewrite Hnil in Hcat. by subst bytes.
Qed.

End HashLoop.

(** ** More runs on the concrete platform *)

Example main_on_start :
  (main Demo.plat Demo.copy_args Again.walk Again.start).1 = Returns tt
  ∧ last (log Again.done) = Some (INFO, MsgSorted 2)
  ∧ written Again.done
    = [[Runs.digest; "in/a.JPG"];
       ["000000000000000000000000000000004e78797a"; "in/c.jpg"]]
  ∧ store Again.done = StoreBytes ""
  ∧ csv_buffer Again.done
    = Csv.rows_bytes
        [[Runs.digest; "in/a.JPG"];
         ["000000000000000000000000000000004e78797a"; "in/c.jpg"]].
Proof. split_and!; vm_compute; reflexivity. Qed.

Example walk_is_plain : plain_walk Again.walk.
Proof.
  repeat (apply Forall_cons; split); try apply Forall_nil;
    vm_compute; reflexivity.
Qed.


(** on a disk without room, the walk ends by the [IOError] of the first
    row that is written out, with its digest in the database and five
    bytes of its row in the csv file *)
Example walk_on_full_disk :
  let s0 := (PhotoSort_init Runs.full_disk Demo.copy_args Again.start).2 in
  let r := sort_walk Runs.full_disk Demo.copy_args Again.walk 0 s0 in
  r.1 = Raises IOError
  ∧ database r.2 !! Runs.digest = Some "in/a.JPG"
  ∧ store r.2 = StoreBytes "45323"
  ∧ written r.2 = [["45323"]]
  ∧ files r.2 !! "out/2020/01-January/05-Sunday/a.jpg"
    = Some (Runs.photo "E2020:01:05 10:00:00" 1700000000).
Proof. intros s0 r. split_and!; vm_compute; reflexivity. Qed.

Lemma restart_restores_database_witness :
  let r := sort_walk Demo.plat Demo.copy_args Again.walk 0 Again.ready in
  let r2 := HashDatabase_init Demo.plat Runs.db_file
              (boot (interpreter_exit Demo.plat r.2)) in
  PhotoSort_init Demo.plat Demo.copy_args Again.start = (Returns tt, Again.ready)
  ∧ never_full Demo.plat
  ∧ r2.1 = Returns tt
  ∧ database r2.2 = database r.2
  ∧ database r2.2 !! Runs.digest = Some "in/a.JPG"
  ∧ database r2.2 !! "000000000000000000000000000000004e78797a"
    = Some "in/c.jpg"
  ∧ store r2.2
    = StoreBytes
        (Csv.rows_bytes
           [[Runs.digest; "in/a.JPG"];
            ["000000000000000000000000000000004e78797a"; "in/c.jpg"]]).
Proof.
  intros r r2.
  assert (PhotoSort_init Demo.plat Demo.copy_args Again.start
          = (Returns tt, Again.ready)) as Hinit by (vm_compute; reflexivity).
  assert (Csv.complete (store_bytes (store Again.start))) as Hc
    by (split; reflexivity).
  assert (never_full Demo.plat) as Hfull by (intros held block; reflexivity).
  destruct (restart_restores_database Demo.plat Demo.copy_args Again.start
              Again.ready Again.walk 0 Runs.db_file Hinit Hc walk_is_plain
              Hfull) as (Hr & Hdb & Hst & _).
  split; [exact Hinit|]. split; [exact Hfull|]. split; [exact Hr|].
  split; [exact Hdb|]. split; [vm_compute; reflexivity|].
  split; [vm_compute; reflexivity|].
  etrans; [exact Hst|]. vm_compute. reflexivity.
Defined.

Lemma count_is_rows_written_witness :
  let r := sort_walk Demo.plat Demo.copy_args Again.walk 0 Again.ready in
  store_open Again.ready
  ∧ r.1 = Returns 2
  ∧ (∃ rows, length rows = 2 - 0
             ∧ stream r.2 = stream Again.ready +:+ Csv.rows_bytes rows)
  ∧ length (written r.2) = length (written Again.ready) + (2 - 0)
  ∧ size (database r.2) = size (database Again.ready) + (2 - 0).
Proof.
  intros r.
  assert (store_open Again.ready) as Hopen by (by eexists).
  assert (r = (Returns 2, r.2)) as Hrun by (vm_compute; reflexivity).
  destruct (count_is_rows_written Demo.plat Demo.copy_args Again.walk 0
              Again.ready 2 r.2 Hopen Hrun) as (_ & Hrows & Hw & Hdb).
  assert (Csv.complete (stream Again.ready)) as Hc by (split; reflexivity).
  split; [exact Hopen|]. split; [by rewrite Hrun|].
  exact (conj Hrows (conj (Hw Hc walk_is_plain) Hdb)).
Defined.

Lemma recorded_path_is_kept_witness :
  database Runs.one_row !! "h1" = Some "in/a.jpg"
  ∧ database (sort_walk Demo.plat Demo.copy_args Again.walk 0 Runs.one_row).2
    !! "h1" = Some "in/a.jpg".
Proof.
  split; [reflexivity|].
  apply (recorded_path_is_kept Demo.plat Demo.copy_args Again.walk 0
           Runs.one_row "h1" "in/a.jpg").
  reflexivity.
Defined.

Lemma exist_after_load_witness :
  let s := Demo.disk []
             (StoreBytes (Csv.rows_bytes [["h"; "p1"]; ["k"; "q"; "more"]])) in
  let r := HashDatabase_init Demo.plat Runs.db_file s in
  Csv.reader (Csv.rows_bytes [["h"; "p1"]; ["k"; "q"; "more"]])
  = ([["h"; "p1"]; ["k"; "q"; "more"]], false)
  ∧ r.1 = Returns tt
  ∧ (exist "k" r.2).1 = Returns true
  ∧ (exist "q" r.2).1 = Returns false.
Proof.
  intros s r. subst r.
  assert (two_fields [["h"; "p1"]; ["k"; "q"; "more"]]) as Htwo
    by (repeat constructor; simpl; lia).
  assert (Csv.reader (Csv.rows_bytes [["h"; "p1"]; ["k"; "q"; "more"]])
          = ([["h"; "p1"]; ["k"; "q"; "more"]], false)) as Hread
    by (vm_compute; reflexivity).
  destruct (exist_after_load Demo.plat Runs.db_file _ _ s "k" eq_refl Hread
              Htwo eq_refl) as (Hr & Hk).
  destruct (exist_after_load Demo.plat Runs.db_file _ _ s "q" eq_refl Hread
              Htwo eq_refl) as (_ & Hq).
  split; [exact Hread|].
  split; [exact Hr|]. split.
  - rewrite Hk. reflexivity.
  - rewrite Hq. reflexivity.
Defined.

Lemma copy_file_touches_only_witness :
  let out := "out/2020/01-January/05-Sunday" in
  let r := copy_file Runs.other_device Demo.move_args "in/a.JPG" out Runs.fresh in
  r.1 = Exits 0
  ∧ files r.2 !! "in/copy.jpeg" = files Runs.fresh !! "in/copy.jpeg"
  ∧ dirs Runs.fresh ⊆ dirs r.2
  ∧ path_exists (output_file_of "in/a.jpg" out) Runs.taken = true
  ∧ files (copy_file Demo.plat Demo.copy_args "in/a.jpg" out Runs.taken).2
    = files Runs.taken.
Proof.
  intros out r.
  destruct (copy_file_touches_only Runs.other_device Demo.move_args
              "in/a.JPG" out Runs.fresh) as (Hother & _ & _ & Hdirs).
  destruct (copy_file_touches_only Demo.plat Demo.copy_args
              "in/a.jpg" out Runs.taken) as (_ & Htaken & _).
  split; [vm_compute; reflexivity|].
  split; [apply Hother; discriminate|].
  split; [exact Hdirs|].
  assert (path_exists (output_file_of "in/a.jpg" out) Runs.taken = true)
    as Hex by (vm_compute; reflexivity).
  split; [exact Hex|]. exact (proj1 (Htaken Hex)).
Defined.

Lemma copy_file_true_has_placed_witness :
  let out := "out/2020/01-January/05-Sunday" in
  let r := copy_file Demo.plat Demo.copy_args "in/a.JPG" out Runs.fresh in
  r.1 = Returns true
  ∧ path_exists (out +:+ "/a.jpg") Runs.fresh = false
  ∧ (∃ f, files Runs.fresh !! "in/a.JPG" = Some f
          ∧ content <$> files r.2 !! (out +:+ "/a.jpg") = Some (content f)
          ∧ files r.2 !! "in/a.JPG" = Some f)
  ∧ log r.2 = log Runs.fresh.
Proof.
  intros out r.
  assert (r = (Returns true, r.2)) as Hrun by (vm_compute; reflexivity).
  destruct (copy_file_true_has_placed Demo.plat Demo.copy_args "in/a.JPG" out
              Runs.fresh r.2 Hrun) as (Hfree & Hplaced & _ & Hlog).
  split; [by rewrite Hrun|].
  exact (conj Hfree (conj Hplaced Hlog)).
Defined.

Lemma copy_mode_keeps_every_file_witness :
  let s' := (sort_walk Demo.plat Demo.copy_args Again.walk 0 Again.ready).2 in
  remove Demo.copy_args = false
  ∧ files s' !! "in/a.JPG" = Some (Runs.photo "E2020:01:05 10:00:00" 0)
  ∧ "in" ∈ dirs s'.
Proof.
  intros s'.
  destruct (copy_mode_keeps_every_file Demo.plat Demo.copy_args Again.walk 0
              Again.ready eq_refl) as (Hfiles & Hdirs).
  split; [reflexivity|]. split.
  - apply Hfiles. reflexivity.
  - apply Hdirs. vm_compute. set_solver.
Defined.


Lemma rerun_places_nothing_witness :
  main Demo.plat Demo.copy_args Again.walk Again.start = (Returns tt, Again.done)
  ∧ closes Demo.plat Again.done
  ∧ ∃ s2, main Demo.plat Demo.copy_args Again.walk
            (boot (interpreter_exit Demo.plat Again.done)) = (Returns tt, s2)
          ∧ files s2 = files Again.done
          ∧ database s2 = database Again.done
          ∧ written s2 = written Again.done
          ∧ last (log s2) = Some (INFO, MsgSorted 0).
Proof.
  assert (main Demo.plat Demo.copy_args Again.walk Again.start
          = (Returns tt, Again.done)) as Hmain by (vm_compute; reflexivity).
  assert (Csv.complete (store_bytes (store Again.start))) as Hc
    by (split; reflexivity).
  assert (closes Demo.plat Again.done) as Hok by (right; reflexivity).
  destruct (rerun_places_nothing Demo.plat Demo.copy_args Again.walk
              Again.start Again.done eq_refl Hc walk_is_plain Hmain Hok)
    as (s2 & Hrun & Hf & _ & Hdb & Hw & _ & Hlog).
  split; [exact Hmain|]. split; [exact Hok|]. exists s2.
  exact (conj Hrun (conj Hf (conj Hdb (conj Hw Hlog)))).
Defined.

Lemma placed_name_is_lowercased_jpeg_witness :
  not_jpeg "IMG_1.JpG" = false
  ∧ ∃ stem ext,
      Path.splitext "IMG_1.JpG" = (stem, ext)
      ∧ (Str.lower ext = ".jpg" ∨ Str.lower ext = ".jpeg")
      ∧ output_file_of (Path.join "in/trip" "IMG_1.JpG") "out/2020"
        = Path.join "out/2020" (stem +:+ Str.lower ext).
Proof.
  split; [reflexivity|].
  destruct (placed_name_is_lowercased_jpeg "in/trip" "IMG_1.JpG" "out/2020"
              eq_refl eq_refl) as (stem & ext & Hsplit & _ & Hext & Hout).
  exists stem, ext. exact (conj Hsplit (conj Hext Hout)).
Defined.

Lemma exif_original_date_wins_witness :
  get_exif_date Demo.plat "in/a.JPG" Runs.fresh
  = (Returns {| tm_year := 2020; tm_mon := 1; tm_mday := 5; tm_hour := 10;
                tm_min := 0; tm_sec := 0; tm_wday := 6 |},
     Runs.fresh).
Proof.
  apply (exif_original_date_wins Demo.plat "in/a.JPG"
           (Runs.photo "E2020:01:05 10:00:00" 0) Runs.fresh
           [(306%Z, ExifStr "2020:01:05 10:00:00")] 36867%Z
           "2020:01:05 10:00:00" []).
  - reflexivity.
  - reflexivity.
  - reflexivity.
  - constructor.
  - reflexivity.
Defined.

Lemma exif_date_falls_back_to_mtime_witness :
  let s := Demo.disk [("in/t.jpg", Runs.photo "T2020:01:05 10:00:00" 86400);
                      ("in/v.jpg", Runs.photo "Vxyz" 86400);
                      ("in/n.jpg", Runs.photo "Nxyz" 72057594037927936)]
             StoreAbsent in
  get_exif_date Demo.plat "in/t.jpg" s
  = (Returns (Demo.gmtime 86400), with_log (INFO, MsgNoDateInExif "t.jpg") s)
  ∧ get_exif_date Demo.plat "in/v.jpg" s
    = (Returns (Demo.gmtime 86400),
       with_log (WARNING, MsgIncorrectDateInExif "v.jpg") s)
  ∧ localtime Demo.plat 72057594037927936 = None
  ∧ get_exif_date Demo.plat "in/n.jpg" s
    = (Raises ValueError, with_log (INFO, MsgNoExif "n.jpg") s).
Proof.
  intros s.
  destruct (exif_date_falls_back_to_mtime Demo.plat "in/t.jpg"
              (Runs.photo "T2020:01:05 10:00:00" 86400) s eq_refl)
    as (_ & _ & _ & _ & Hnodate & _); [intros e; discriminate|].
  destruct (exif_date_falls_back_to_mtime Demo.plat "in/v.jpg"
              (Runs.photo "Vxyz" 86400) s eq_refl)
    as (_ & _ & _ & _ & _ & Hbad); [intros e; discriminate|].
  destruct (exif_date_falls_back_to_mtime Demo.plat "in/n.jpg"
              (Runs.photo "Nxyz" 72057594037927936) s eq_refl)
    as (_ & _ & _ & Hnone & _); [intros e; discriminate|].
  split_and!.
  - apply (Hnodate [(306%Z, ExifStr "2020:01:05 10:00:00")]); [reflexivity|].
    repeat constructor. discriminate.
  - apply (Hbad [] 36867%Z ExifOther []); [reflexivity|reflexivity| |exact I].
    constructor.
  - reflexivity.
  - exact (Hnone eq_refl).
Defined.

Lemma other_files_are_ignored_witness :
  ∃ s', sort_files Demo.plat Demo.copy_args "in" ["notes.txt"; "missing.png"] 0
          Runs.fresh = (Returns 0, s')
        ∧ log s' = log Runs.fresh ++ [(DEBUG, MsgIgnoring "in/notes.txt");
                                      (DEBUG, MsgIgnoring "in/missing.png")].
Proof.
  destruct (other_files_are_ignored Demo.plat Demo.copy_args "in"
              ["notes.txt"; "missing.png"] 0 Runs.fresh)
    as (s' & Hrun & _ & Hlog); [by repeat constructor|].
  exists s'. exact (conj Hrun Hlog).
Defined.

Lemma input_is_checked_first_witness :
  let s := Demo.disk [] StoreUnreadable in
  isdir "nowhere" s = false
  ∧ main Demo.plat Again.wrong_input Again.walk s
    = (Exits 0, with_log (ERROR, MsgInputNotDirectory "nowhere") s).
Proof.
  intros s. split; [reflexivity|].
  apply (input_is_checked_first Demo.plat Again.wrong_input Again.walk s).
  reflexivity.
Defined.

Lemma get_file_hash_reads_every_byte_witness :
  get_file_hash_loop string "" String.append id 4 "abc" = Some "abc"
  ∧ get_file_hash_loop string "" String.append id 1 "" = Some "".
Proof.
  destruct (get_file_hash_reads_every_byte string "" String.append id "abc")
    as (_ & _ & _ & _ & Hstream).
  destruct (get_file_hash_reads_every_byte string "" String.append id "")
    as (Hempty & _ & _ & Hnone & _).
  split.
  - apply Hstream; [|discriminate]. intros h x y. apply append_assoc.
  - etrans; [exact Hempty|]. by rewrite (Hnone eq_refl).
Defined.
